(** * Naeyam: the relational schema, its row-level security policies,
      the repeatable migration, and the language toggle of the web client

    The development embeds

    - the schema of [src/unnamed/part_000] (seven tables, their NOT NULL,
      CHECK, UNIQUE, PRIMARY KEY and FOREIGN KEY constraints) together with
      the statements a client can issue against it, as the relational engine
      executes them;
    - the row-level security policies of the same file, as data held in a
      catalog and evaluated by one generic gate;
    - the migration script itself (drop policies, drop tables, create, enable
      row-level security, create policies, seed);
    - the [language] state of [App] ([src/unnamed/part_002]) and the derived
      [content] object;
    - the statistics the About section ([src/unnamed/part_001]) reads from
      [profiles]. *)

From stdpp Require Import base option list strings gmap.
From Stdlib Require Import ZArith QArith.

Open Scope Z_scope.
Open Scope string_scope.
Open Scope list_scope.

(** ** SQL values *)

Definition uuid := string.
Definition text := string.

(** A nullable column is an [option]; [None] is SQL NULL.  Dates, times and
    timestamps are integers: a [time] is the number of microseconds since
    midnight, an [interval] a number of microseconds. *)
Definition date := Z.
Definition time := Z.
Definition interval := Z.
Definition timestamptz := Z.

(** Three-valued logic: [None] is "unknown". *)
Definition tri := option bool.

Definition tri_and (a b : tri) : tri :=
  match a, b with
  | Some false, _ | _, Some false => Some false
  | Some true, Some true => Some true
  | _, _ => None
  end.

Definition tri_or (a b : tri) : tri :=
  match a, b with
  | Some true, _ | _, Some true => Some true
  | Some false, Some false => Some false
  | _, _ => None
  end.

(** [v IN (l)] for a non-empty list of non-null literals. *)
Definition sql_in (v : option text) (l : list text) : tri :=
  match v with
  | None => None
  | Some s => Some (bool_decide (s ∈ l))
  end.

(** [a > b] on times. *)
Definition sql_gt (a b : option time) : tri :=
  match a, b with
  | Some x, Some y => Some (bool_decide (y < x))
  | _, _ => None
  end.

(** [a - b] on times gives an interval. *)
Definition time_minus (a b : option time) : option interval :=
  match a, b with
  | Some x, Some y => Some (x - y)
  | _, _ => None
  end.

(** [EXTRACT(EPOCH FROM iv)]: the interval in seconds, with its fraction. *)
Definition extract_epoch (iv : option interval) : option Q :=
  match iv with
  | Some us => Some (us # 1000000)
  | None => None
  end.

Definition sql_eq_num (a : option Q) (n : Z) : tri :=
  match a with
  | Some q => Some (Qeq_bool q (inject_Z n))
  | None => None
  end.

(** A CHECK constraint rejects a row only when its expression is false; an
    unknown result passes. *)
Definition check_holds (t : tri) : Prop := t ≠ Some false.

(** A policy expression permits a row only when it is true. *)
Definition holds (t : tri) : bool :=
  match t with
  | Some true => true
  | _ => false
  end.

(** Values as a policy expression sees them. *)
Inductive sqlval :=
  | VNull
  | VUuid (u : uuid)
  | VText (s : text)
  | VBool (b : bool)
  | VInt (z : Z)
  | VArr (l : list text).

Definition val {A} (f : A → sqlval) (o : option A) : sqlval :=
  match o with Some a => f a | None => VNull end.

(** ** Rows, one module per table, columns as declared *)

Module profiles.
(** [CREATE TABLE profiles]: [role] and [name] are NOT NULL,
    [CHECK (role IN ('patient', 'nurse'))]. *)
Record row := {
  id : uuid;
  role : option text;
  name : option text;
  phone : option text;
  address : option text;
  created_at : option timestamptz;
  updated_at : option timestamptz }.

Definition not_nulls (r : row) : Prop := is_Some (role r) ∧ is_Some (name r).
Definition checks (r : row) : Prop :=
  check_holds (sql_in (role r) ["patient"; "nurse"]).

Definition view (r : row) (c : string) : sqlval :=
  if decide (c = "id") then VUuid (id r)
  else if decide (c = "role") then val VText (role r)
  else if decide (c = "name") then val VText (name r)
  else if decide (c = "phone") then val VText (phone r)
  else if decide (c = "address") then val VText (address r)
  else if decide (c = "created_at") then val VInt (created_at r)
  else if decide (c = "updated_at") then val VInt (updated_at r)
  else VNull.
End profiles.

Module service_areas.
(** [CREATE TABLE service_areas]: [pincode] and [service_id] are NOT NULL. *)
Record row := {
  id : uuid;
  pincode : option text;
  service_id : option text;
  is_available : option bool;
  created_at : option timestamptz;
  updated_at : option timestamptz }.

Definition not_nulls (r : row) : Prop :=
  is_Some (pincode r) ∧ is_Some (service_id r).
Definition checks (r : row) : Prop := True.

(** UNIQUE(pincode, service_id) *)
Definition ukey (r : row) : list (option text) := [pincode r; service_id r].

Definition view (r : row) (c : string) : sqlval :=
  if decide (c = "id") then VUuid (id r)
  else if decide (c = "pincode") then val VText (pincode r)
  else if decide (c = "service_id") then val VText (service_id r)
  else if decide (c = "is_available") then val VBool (is_available r)
  else if decide (c = "created_at") then val VInt (created_at r)
  else if decide (c = "updated_at") then val VInt (updated_at r)
  else VNull.
End service_areas.

Module patient_profiles.
(** [CREATE TABLE patient_profiles]: no NOT NULL column besides the key,
    [CHECK (gender IN ('male', 'female', 'other'))]. *)
Record row := {
  id : uuid;
  date_of_birth : option date;
  gender : option text;
  blood_group : option text;
  emergency_contact_name : option text;
  emergency_contact_phone : option text;
  medical_conditions : option (list text);
  allergies : option (list text);
  current_medications : option (list text);
  created_at : option timestamptz;
  updated_at : option timestamptz }.

Definition not_nulls (r : row) : Prop := True.
Definition checks (r : row) : Prop :=
  check_holds (sql_in (gender r) ["male"; "female"; "other"]).

Definition view (r : row) (c : string) : sqlval :=
  if decide (c = "id") then VUuid (id r)
  else if decide (c = "date_of_birth") then val VInt (date_of_birth r)
  else if decide (c = "gender") then val VText (gender r)
  else if decide (c = "blood_group") then val VText (blood_group r)
  else if decide (c = "emergency_contact_name")
    then val VText (emergency_contact_name r)
  else if decide (c = "emergency_contact_phone")
    then val VText (emergency_contact_phone r)
  else if decide (c = "medical_conditions") then val VArr (medical_conditions r)
  else if decide (c = "allergies") then val VArr (allergies r)
  else if decide (c = "current_medications")
    then val VArr (current_medications r)
  else if decide (c = "created_at") then val VInt (created_at r)
  else if decide (c = "updated_at") then val VInt (updated_at r)
  else VNull.
End patient_profiles.

Module nurse_profiles.
(** [CREATE TABLE nurse_profiles]: [qualification] and
    [years_of_experience] are NOT NULL. *)
Record row := {
  id : uuid;
  qualification : option text;
  years_of_experience : option Z;
  specializations : option (list text);
  languages_spoken : option (list text);
  created_at : option timestamptz;
  updated_at : option timestamptz }.

Definition not_nulls (r : row) : Prop :=
  is_Some (qualification r) ∧ is_Some (years_of_experience r).
Definition checks (r : row) : Prop := True.

Definition view (r : row) (c : string) : sqlval :=
  if decide (c = "id") then VUuid (id r)
  else if decide (c = "qualification") then val VText (qualification r)
  else if decide (c = "years_of_experience")
    then val VInt (years_of_experience r)
  else if decide (c = "specializations") then val VArr (specializations r)
  else if decide (c = "languages_spoken") then val VArr (languages_spoken r)
  else if decide (c = "created_at") then val VInt (created_at r)
  else if decide (c = "updated_at") then val VInt (updated_at r)
  else VNull.
End nurse_profiles.

Module nurse_service_areas.
(** [CREATE TABLE nurse_service_areas]: [pincode] is NOT NULL, [nurse_id] is
    not. *)
Record row := {
  id : uuid;
  nurse_id : option uuid;
  pincode : option text;
  is_active : option bool;
  created_at : option timestamptz;
  updated_at : option timestamptz }.

Definition not_nulls (r : row) : Prop := is_Some (pincode r).
Definition checks (r : row) : Prop := True.

(** UNIQUE(nurse_id, pincode) *)
Definition ukey (r : row) : list (option text) := [nurse_id r; pincode r].

Definition view (r : row) (c : string) : sqlval :=
  if decide (c = "id") then VUuid (id r)
  else if decide (c = "nurse_id") then val VUuid (nurse_id r)
  else if decide (c = "pincode") then val VText (pincode r)
  else if decide (c = "is_active") then val VBool (is_active r)
  else if decide (c = "created_at") then val VInt (created_at r)
  else if decide (c = "updated_at") then val VInt (updated_at r)
  else VNull.
End nurse_service_areas.

Module nurse_slots.
(** [CREATE TABLE nurse_slots]: [date], [start_time], [end_time] and [status]
    are NOT NULL, [nurse_id] is not;
    [CHECK (status IN ('available', 'booked', 'completed', 'cancelled'))]. *)
Record row := {
  id : uuid;
  nurse_id : option uuid;
  date : option date;
  start_time : option time;
  end_time : option time;
  status : option text;
  created_at : option timestamptz;
  updated_at : option timestamptz }.

Definition not_nulls (r : row) : Prop :=
  is_Some (date r) ∧ is_Some (start_time r) ∧ is_Some (end_time r)
  ∧ is_Some (status r).

(** CONSTRAINT valid_slot_time CHECK (end_time > start_time) *)
Definition valid_slot_time (r : row) : tri :=
  sql_gt (end_time r) (start_time r).

(** CONSTRAINT one_hour_slot
      CHECK (EXTRACT(EPOCH FROM end_time::time - start_time::time) = 3600) *)
Definition one_hour_slot (r : row) : tri :=
  sql_eq_num (extract_epoch (time_minus (end_time r) (start_time r))) 3600.

Definition checks (r : row) : Prop :=
  check_holds
    (sql_in (status r) ["available"; "booked"; "completed"; "cancelled"])
  ∧ check_holds (valid_slot_time r)
  ∧ check_holds (one_hour_slot r).

Definition view (r : row) (c : string) : sqlval :=
  if decide (c = "id") then VUuid (id r)
  else if decide (c = "nurse_id") then val VUuid (nurse_id r)
  else if decide (c = "date") then val VInt (date r)
  else if decide (c = "start_time") then val VInt (start_time r)
  else if decide (c = "end_time") then val VInt (end_time r)
  else if decide (c = "status") then val VText (status r)
  else if decide (c = "created_at") then val VInt (created_at r)
  else if decide (c = "updated_at") then val VInt (updated_at r)
  else VNull.
End nurse_slots.

Module bookings.
(** [CREATE TABLE bookings]: [service_id] and [status] are NOT NULL, the three
    references are not;
    [CHECK (status IN ('pending', 'confirmed', 'completed', 'cancelled'))]. *)
Record row := {
  id : uuid;
  patient_id : option uuid;
  nurse_id : option uuid;
  slot_id : option uuid;
  service_id : option text;
  status : option text;
  notes : option text;
  created_at : option timestamptz;
  updated_at : option timestamptz }.

Definition not_nulls (r : row) : Prop :=
  is_Some (service_id r) ∧ is_Some (status r).
Definition checks (r : row) : Prop :=
  check_holds
    (sql_in (status r) ["pending"; "confirmed"; "completed"; "cancelled"]).

Definition view (r : row) (c : string) : sqlval :=
  if decide (c = "id") then VUuid (id r)
  else if decide (c = "patient_id") then val VUuid (patient_id r)
  else if decide (c = "nurse_id") then val VUuid (nurse_id r)
  else if decide (c = "slot_id") then val VUuid (slot_id r)
  else if decide (c = "service_id") then val VText (service_id r)
  else if decide (c = "status") then val VText (status r)
  else if decide (c = "notes") then val VText (notes r)
  else if decide (c = "created_at") then val VInt (created_at r)
  else if decide (c = "updated_at") then val VInt (updated_at r)
  else VNull.
End bookings.

#[global] Instance profiles_row_eq_dec : EqDecision profiles.row.
Proof. solve_decision. Defined.
#[global] Instance service_areas_row_eq_dec : EqDecision service_areas.row.
Proof. solve_decision. Defined.
#[global] Instance patient_profiles_row_eq_dec : EqDecision patient_profiles.row.
Proof. solve_decision. Defined.
#[global] Instance nurse_profiles_row_eq_dec : EqDecision nurse_profiles.row.
Proof. solve_decision. Defined.
#[global] Instance nurse_service_areas_row_eq_dec :
  EqDecision nurse_service_areas.row.
Proof. solve_decision. Defined.
#[global] Instance nurse_slots_row_eq_dec : EqDecision nurse_slots.row.
Proof. solve_decision. Defined.
#[global] Instance bookings_row_eq_dec : EqDecision bookings.row.
Proof. solve_decision. Defined.

(** ** The database: the rows of [auth.users] (only their ids matter here)
    and of the seven tables of the [public] schema *)

Record db := {
  auth_users : list uuid;
  profiles : list profiles.row;
  service_areas : list service_areas.row;
  patient_profiles : list patient_profiles.row;
  nurse_profiles : list nurse_profiles.row;
  nurse_service_areas : list nurse_service_areas.row;
  nurse_slots : list nurse_slots.row;
  bookings : list bookings.row }.

Definition no_rows (users : list uuid) : db :=
  {| auth_users := users; profiles := []; service_areas := [];
     patient_profiles := []; nurse_profiles := []; nurse_service_areas := [];
     nurse_slots := []; bookings := [] |}.

(** ** The schema as the engine reads it *)

Inductive table :=
  | Tprofiles
  | Tservice_areas
  | Tpatient_profiles
  | Tnurse_profiles
  | Tnurse_service_areas
  | Tnurse_slots
  | Tbookings.

#[global] Instance table_eq_dec : EqDecision table.
Proof. solve_decision. Defined.

Definition all_tables : list table :=
  [Tprofiles; Tservice_areas; Tpatient_profiles; Tnurse_profiles;
   Tnurse_service_areas; Tnurse_slots; Tbookings].

Definition table_name (t : table) : string :=
  match t with
  | Tprofiles => "profiles"
  | Tservice_areas => "service_areas"
  | Tpatient_profiles => "patient_profiles"
  | Tnurse_profiles => "nurse_profiles"
  | Tnurse_service_areas => "nurse_service_areas"
  | Tnurse_slots => "nurse_slots"
  | Tbookings => "bookings"
  end.

Definition row_of (t : table) : Type :=
  match t with
  | Tprofiles => profiles.row
  | Tservice_areas => service_areas.row
  | Tpatient_profiles => patient_profiles.row
  | Tnurse_profiles => nurse_profiles.row
  | Tnurse_service_areas => nurse_service_areas.row
  | Tnurse_slots => nurse_slots.row
  | Tbookings => bookings.row
  end.

Definition rows (t : table) (d : db) : list (row_of t) :=
  match t with
  | Tprofiles => profiles d
  | Tservice_areas => service_areas d
  | Tpatient_profiles => patient_profiles d
  | Tnurse_profiles => nurse_profiles d
  | Tnurse_service_areas => nurse_service_areas d
  | Tnurse_slots => nurse_slots d
  | Tbookings => bookings d
  end.

Definition with_rows (t : table) : list (row_of t) → db → db :=
  match t with
  | Tprofiles => λ l d,
      {| auth_users := auth_users d; profiles := l;
         service_areas := service_areas d;
         patient_profiles := patient_profiles d;
         nurse_profiles := nurse_profiles d;
         nurse_service_areas := nurse_service_areas d;
         nurse_slots := nurse_slots d; bookings := bookings d |}
  | Tservice_areas => λ l d,
      {| auth_users := auth_users d; profiles := profiles d;
         service_areas := l;
         patient_profiles := patient_profiles d;
         nurse_profiles := nurse_profiles d;
         nurse_service_areas := nurse_service_areas d;
         nurse_slots := nurse_slots d; bookings := bookings d |}
  | Tpatient_profiles => λ l d,
      {| auth_users := auth_users d; profiles := profiles d;
         service_areas := service_areas d;
         patient_profiles := l;
         nurse_profiles := nurse_profiles d;
         nurse_service_areas := nurse_service_areas d;
         nurse_slots := nurse_slots d; bookings := bookings d |}
  | Tnurse_profiles => λ l d,
      {| auth_users := auth_users d; profiles := profiles d;
         service_areas := service_areas d;
         patient_profiles := patient_profiles d;
         nurse_profiles := l;
         nurse_service_areas := nurse_service_areas d;
         nurse_slots := nurse_slots d; bookings := bookings d |}
  | Tnurse_service_areas => λ l d,
      {| auth_users := auth_users d; profiles := profiles d;
         service_areas := service_areas d;
         patient_profiles := patient_profiles d;
         nurse_profiles := nurse_profiles d;
         nurse_service_areas := l;
         nurse_slots := nurse_slots d; bookings := bookings d |}
  | Tnurse_slots => λ l d,
      {| auth_users := auth_users d; profiles := profiles d;
         service_areas := service_areas d;
         patient_profiles := patient_profiles d;
         nurse_profiles := nurse_profiles d;
         nurse_service_areas := nurse_service_areas d;
         nurse_slots := l; bookings := bookings d |}
  | Tbookings => λ l d,
      {| auth_users := auth_users d; profiles := profiles d;
         service_areas := service_areas d;
         patient_profiles := patient_profiles d;
         nurse_profiles := nurse_profiles d;
         nurse_service_areas := nurse_service_areas d;
         nurse_slots := nurse_slots d; bookings := l |}
  end.

Definition with_users (l : list uuid) (d : db) : db :=
  {| auth_users := l; profiles := profiles d;
     service_areas := service_areas d;
     patient_profiles := patient_profiles d;
     nurse_profiles := nurse_profiles d;
     nurse_service_areas := nurse_service_areas d;
     nurse_slots := nurse_slots d; bookings := bookings d |}.

(** [id uuid PRIMARY KEY] of every table. *)
Definition pkey (t : table) : row_of t → uuid :=
  match t with
  | Tprofiles => profiles.id
  | Tservice_areas => service_areas.id
  | Tpatient_profiles => patient_profiles.id
  | Tnurse_profiles => nurse_profiles.id
  | Tnurse_service_areas => nurse_service_areas.id
  | Tnurse_slots => nurse_slots.id
  | Tbookings => bookings.id
  end.

Definition view (t : table) : row_of t → string → sqlval :=
  match t with
  | Tprofiles => profiles.view
  | Tservice_areas => service_areas.view
  | Tpatient_profiles => patient_profiles.view
  | Tnurse_profiles => nurse_profiles.view
  | Tnurse_service_areas => nurse_service_areas.view
  | Tnurse_slots => nurse_slots.view
  | Tbookings => bookings.view
  end.

Definition not_nulls (t : table) : row_of t → Prop :=
  match t with
  | Tprofiles => profiles.not_nulls
  | Tservice_areas => service_areas.not_nulls
  | Tpatient_profiles => patient_profiles.not_nulls
  | Tnurse_profiles => nurse_profiles.not_nulls
  | Tnurse_service_areas => nurse_service_areas.not_nulls
  | Tnurse_slots => nurse_slots.not_nulls
  | Tbookings => bookings.not_nulls
  end.

Definition checks (t : table) : row_of t → Prop :=
  match t with
  | Tprofiles => profiles.checks
  | Tservice_areas => service_areas.checks
  | Tpatient_profiles => patient_profiles.checks
  | Tnurse_profiles => nurse_profiles.checks
  | Tnurse_service_areas => nurse_service_areas.checks
  | Tnurse_slots => nurse_slots.checks
  | Tbookings => bookings.checks
  end.

(** The UNIQUE constraints of a table, each as the key it extracts. *)
Definition uniques (t : table) : list (row_of t → list (option text)) :=
  match t with
  | Tservice_areas => [service_areas.ukey]
  | Tnurse_service_areas => [nurse_service_areas.ukey]
  | _ => []
  end.

(** What a foreign key points to: [auth.users(id)] or the [id] of a table. *)
Inductive parent :=
  | Pauth_users
  | Ptable (t : table).

#[global] Instance parent_eq_dec : EqDecision parent.
Proof. solve_decision. Defined.

(** The REFERENCES clauses of a table: the referencing value of the row and
    the referenced key.  Every one of them is ON DELETE CASCADE, and none
    declares an ON UPDATE action. *)
Definition refs (t : table) : row_of t → list (option uuid * parent) :=
  match t with
  | Tprofiles => λ r, [(Some (profiles.id r), Pauth_users)]
  | Tservice_areas => λ _, []
  | Tpatient_profiles => λ r, [(Some (patient_profiles.id r), Ptable Tprofiles)]
  | Tnurse_profiles => λ r, [(Some (nurse_profiles.id r), Ptable Tprofiles)]
  | Tnurse_service_areas => λ r,
      [(nurse_service_areas.nurse_id r, Ptable Tnurse_profiles)]
  | Tnurse_slots => λ r, [(nurse_slots.nurse_id r, Ptable Tnurse_profiles)]
  | Tbookings => λ r,
      [(bookings.patient_id r, Ptable Tpatient_profiles);
       (bookings.nurse_id r, Ptable Tnurse_profiles);
       (bookings.slot_id r, Ptable Tnurse_slots)]
  end.

Definition keys (t : table) (d : db) : list uuid := pkey t <$> rows t d.

Definition parent_keys (p : parent) (d : db) : list uuid :=
  match p with
  | Pauth_users => auth_users d
  | Ptable t => keys t d
  end.

(** A foreign key holds when the referencing value is NULL or present among
    the referenced keys. *)
Definition fk_holds (d : db) (ref : option uuid * parent) : Prop :=
  ref.1 = None ∨ ref.1 ∈ Some <$> parent_keys ref.2 d.

(** A key with a NULL component never conflicts (NULLs are distinct). *)
Definition definite (k : list (option text)) : Prop := Forall is_Some k.

Definition key_free (k : list (option text)) (others : list (list (option text))) : Prop :=
  definite k → k ∉ others.

(** Some row of [t'] references the key [u] of [p]. *)
Definition referenced_from (t' : table) (p : parent) (u : uuid) (d : db) : Prop :=
  Exists (λ r, (Some u, p) ∈ refs t' r) (rows t' d).

Definition referenced (p : parent) (u : uuid) (d : db) : Prop :=
  Exists (λ t', referenced_from t' p u d) all_tables.

#[global] Instance not_nulls_dec t r : Decision (not_nulls t r).
Proof. destruct t; cbv [not_nulls profiles.not_nulls service_areas.not_nulls
  patient_profiles.not_nulls nurse_profiles.not_nulls
  nurse_service_areas.not_nulls nurse_slots.not_nulls bookings.not_nulls];
  apply _. Defined.

#[global] Instance checks_dec t r : Decision (checks t r).
Proof. destruct t; cbv [checks profiles.checks service_areas.checks
  patient_profiles.checks nurse_profiles.checks nurse_service_areas.checks
  nurse_slots.checks bookings.checks check_holds];
  apply _. Defined.

#[global] Instance fk_holds_dec d ref : Decision (fk_holds d ref).
Proof. unfold fk_holds; apply _. Defined.

#[global] Instance key_free_dec k others : Decision (key_free k others).
Proof. unfold key_free, definite; apply _. Defined.

#[global] Instance referenced_dec p u d : Decision (referenced p u d).
Proof. unfold referenced, referenced_from; apply _. Defined.

(** ** Statement outcomes *)

Inductive sqlerr :=
  | not_null_violation
  | check_violation
  | unique_violation
  | foreign_key_violation
  | insufficient_privilege.

Inductive outcome (A : Type) :=
  | Done (a : A)
  | Fail (e : sqlerr).
Arguments Done {A} a.
Arguments Fail {A} e.

#[global] Instance outcome_ret : MRet outcome := λ A a, Done a.
#[global] Instance outcome_bind : MBind outcome := λ A B f m,
  match m with
  | Done a => f a
  | Fail e => Fail e
  end.

Definition require (P : Prop) `{Decision P} (e : sqlerr) : outcome unit :=
  if decide P then Done () else Fail e.

(** ** Statements without row-level security (the engine proper) *)

(** The constraints a new or changed row [r] of [t] must meet, [others]
    being the rows of [t] it will live next to. *)
Definition constrain (t : table) (r : row_of t) (others : list (row_of t))
    (d : db) : outcome unit :=
  require (not_nulls t r) not_null_violation ;;
  require (checks t r) check_violation ;;
  require (pkey t r ∉ pkey t <$> others) unique_violation ;;
  require (Forall (λ k, key_free (k r) (k <$> others)) (uniques t))
    unique_violation ;;
  require (Forall (fk_holds d) (refs t r)) foreign_key_violation.

(** [INSERT INTO t VALUES (r)] *)
Definition insert_into (t : table) (r : row_of t) (d : db) : outcome db :=
  constrain t r (rows t d) d ;;
  Done (with_rows t (rows t d ++ [r]) d).

(** [UPDATE t SET ... WHERE id = i], the SET list given as the function [f]
    from the old row to the new one.  The referenced key of a row may not
    change while something still references it (no ON UPDATE action). *)
Definition update_set (t : table) (i : uuid) (f : row_of t → row_of t) (d : db)
    : outcome db :=
  match list_find (λ r, pkey t r = i) (rows t d) with
  | None => Done d
  | Some (n, old) =>
      let new := f old in
      let d' := with_rows t (<[n := new]> (rows t d)) d in
      constrain t new (delete n (rows t d)) d' ;;
      require (pkey t new = i ∨ ¬ referenced (Ptable t) i d')
        foreign_key_violation ;;
      Done d'
  end.

(** *** ON DELETE CASCADE *)

(** A row of [t] is orphaned when one of its foreign keys points into [p]
    at a key that has just been deleted. *)
Definition orphaned (t : table) (p : parent) (gone : list uuid)
    (r : row_of t) : Prop :=
  Exists (λ ref, ref.2 = p ∧ ref.1 ∈ Some <$> gone) (refs t r).

#[global] Instance orphaned_dec t p gone r : Decision (orphaned t p gone r).
Proof. unfold orphaned; apply _. Defined.

Definition purged (t : table) (p : parent) (gone : list uuid) (d : db)
    : list uuid :=
  pkey t <$> filter (orphaned t p gone) (rows t d).

Definition purge (t : table) (p : parent) (gone : list uuid) (d : db) : db :=
  with_rows t (filter (λ r, ¬ orphaned t p gone r) (rows t d)) d.

(** The referential action: after the keys [gone] of [p] have been deleted,
    every table loses the rows that referenced them, and so on for the keys
    those rows carried.  A chain of cascades visits each table at most once
    (the references are acyclic), which bounds the depth. *)
Fixpoint cascade (depth : nat) (p : parent) (gone : list uuid) (d : db) : db :=
  match depth with
  | O => d
  | S n =>
      foldr (λ t acc,
               cascade n (Ptable t) (purged t p gone acc) (purge t p gone acc))
            d all_tables
  end.

Definition cascade_depth : nat := length all_tables.

(** [DELETE FROM t WHERE id = i] *)
Definition delete_from (t : table) (i : uuid) (d : db) : db :=
  if decide (i ∈ keys t d)
  then cascade cascade_depth (Ptable t) [i]
         (with_rows t (filter (λ r, pkey t r ≠ i) (rows t d)) d)
  else d.

(** The identity provider adds and removes rows of [auth.users];
    [profiles.id REFERENCES auth.users(id) ON DELETE CASCADE]. *)
Definition sign_up (u : uuid) (d : db) : outcome db :=
  require (u ∉ auth_users d) unique_violation ;;
  Done (with_users (auth_users d ++ [u]) d).

Definition delete_user (u : uuid) (d : db) : db :=
  if decide (u ∈ auth_users d)
  then cascade cascade_depth Pauth_users [u]
         (with_users (filter (λ x, x ≠ u) (auth_users d)) d)
  else d.

(** Statements on the tables of the schema. *)
Inductive statement :=
  | Insert (t : table) (r : row_of t)
  | Update (t : table) (i : uuid) (f : row_of t → row_of t)
  | Delete (t : table) (i : uuid).

(** The table a statement writes to. *)
Definition target (s : statement) : table :=
  match s with
  | Insert t _ | Update t _ _ | Delete t _ => t
  end.

Definition run (s : statement) (d : db) : outcome db :=
  match s with
  | Insert t r => insert_into t r d
  | Update t i f => update_set t i f d
  | Delete t i => Done (delete_from t i d)
  end.

(** ** The catalog: tables and policies of the [public] schema *)

(** [CREATE POLICY ... FOR cmd] *)
Inductive command := SELECT | INSERT | UPDATE | DELETE | ALL.

#[global] Instance command_eq_dec : EqDecision command.
Proof. solve_decision. Defined.

(** [CREATE POLICY ... TO role]; [public] stands for every role. *)
Inductive grantee :=
  | to_public
  | to_role (r : string).

#[global] Instance grantee_eq_dec : EqDecision grantee.
Proof. solve_decision. Defined.

(** The expressions the policies of the script are written in. *)
Inductive expr :=
  | Etrue                                  (* true *)
  | Euid_eq (c : string)                   (* c = auth.uid() *)
  | Ecol_eq (c : string) (lit : text)      (* c = 'lit' *)
  | Eand (a b : expr)
  | Eor (a b : expr)
  | Eexists (from : string) (cond : expr). (* EXISTS (SELECT 1 FROM from WHERE cond) *)

#[global] Instance expr_eq_dec : EqDecision expr.
Proof. solve_decision. Defined.

(** The tables an expression reads through subqueries. *)
Fixpoint sources (e : expr) : list string :=
  match e with
  | Etrue | Euid_eq _ | Ecol_eq _ _ => []
  | Eand a b | Eor a b => sources a ++ sources b
  | Eexists from cond => from :: sources cond
  end.

(** A row of [pg_policies]. *)
Module pg_policies.
Record row := {
  policyname : string;
  tablename : string;
  cmd : command;
  roles : grantee;
  qual : option expr;          (* USING *)
  with_check : option expr }.  (* WITH CHECK *)

(** The tables a policy depends on: its own and those its expressions
    read. *)
Definition depends (p : row) : list string :=
  tablename p :: from_option sources [] (qual p)
              ++ from_option sources [] (with_check p).
End pg_policies.

#[global] Instance policy_eq_dec : EqDecision pg_policies.row.
Proof. solve_decision. Defined.


(** A row of [pg_tables], with what the migration needs of the definition:
    whether the columns and constraints are the ones this script declares
    for one of its tables, and the tables its foreign keys reference. *)
Module pg_tables.
Record row := {
  tablename : string;
  rowsecurity : bool;
  declared : option table;
  fkeys : list string }.
End pg_tables.

#[global] Instance pg_table_eq_dec : EqDecision pg_tables.row.
Proof. solve_decision. Defined.

Record catalog := {
  tables : list pg_tables.row;
  policies : list pg_policies.row }.

(** The tables of [public] referenced by the foreign keys of [t]
    ([auth.users] lives in another schema). *)
Definition fk_targets (t : table) : list table :=
  match t with
  | Tprofiles | Tservice_areas => []
  | Tpatient_profiles | Tnurse_profiles => [Tprofiles]
  | Tnurse_service_areas | Tnurse_slots => [Tnurse_profiles]
  | Tbookings => [Tpatient_profiles; Tnurse_profiles; Tnurse_slots]
  end.

(** The catalog entry [CREATE TABLE] makes for [t]. *)
Definition created (t : table) : pg_tables.row :=
  {| pg_tables.tablename := table_name t;
     pg_tables.rowsecurity := false;
     pg_tables.declared := Some t;
     pg_tables.fkeys := table_name <$> fk_targets t |}.

Definition table_names (c : catalog) : list string :=
  pg_tables.tablename <$> tables c.

(** ** Callers and the row-level security gate *)

(** The session of a statement: its database role, whether that role is
    exempt from row-level security (BYPASSRLS, or the owner of the tables),
    and what [auth.uid()] returns for it. *)
Record caller := {
  role : string;
  bypassrls : bool;
  uid : option uuid }.

Definition signed_in (u : uuid) : caller :=
  {| role := "authenticated"; bypassrls := false; uid := Some u |}.

Definition rls_enabled (c : catalog) (name : string) : Prop :=
  Exists (λ e, pg_tables.tablename e = name ∧ pg_tables.rowsecurity e = true)
         (tables c).

(** Policies gate a statement when row-level security is enabled on the
    table and the caller is not exempt. *)
Definition gated (c : catalog) (who : caller) (t : table) : Prop :=
  bypassrls who = false ∧ rls_enabled c (table_name t).

Definition applies (p : pg_policies.row) (name : string) (k : command)
    (who : caller) : Prop :=
  pg_policies.tablename p = name
  ∧ (pg_policies.cmd p = k ∨ pg_policies.cmd p = ALL)
  ∧ (pg_policies.roles p = to_public ∨ pg_policies.roles p = to_role (role who)).

#[global] Instance rls_enabled_dec c name : Decision (rls_enabled c name).
Proof. unfold rls_enabled; apply _. Defined.
#[global] Instance gated_dec c who t : Decision (gated c who t).
Proof. unfold gated; apply _. Defined.
#[global] Instance applies_dec p name k who : Decision (applies p name k who).
Proof. unfold applies; apply _. Defined.

Definition table_named (x : string) : option table :=
  head (filter (λ t, table_name t = x) all_tables).

(** The expression a policy contributes to the visibility of existing rows
    (USING), and the one it contributes to the check of new rows (WITH CHECK,
    or USING when the policy has none). *)
Definition using_of (p : pg_policies.row) : option expr := pg_policies.qual p.
Definition check_of (p : pg_policies.row) : option expr :=
  match pg_policies.with_check p with
  | Some e => Some e
  | None => pg_policies.qual p
  end.

Definition uid_eq (who : caller) (v : sqlval) : tri :=
  match uid who, v with
  | Some u, VUuid x => Some (bool_decide (x = u))
  | _, _ => None
  end.

Definition text_eq (v : sqlval) (lit : text) : tri :=
  match v with
  | VText s => Some (bool_decide (s = lit))
  | _ => None
  end.

(** Some policy of [t] for command [k] contributes an expression (chosen by
    [sel]) that is true of the row [r]; [ev] evaluates expressions.  With no
    such policy nothing is admitted. *)
Definition permits (ev : (string → sqlval) → expr → tri) (c : catalog)
    (who : caller) (t : table) (k : command)
    (sel : pg_policies.row → option expr) (r : row_of t) : bool :=
  existsb (λ p, bool_decide (applies p (table_name t) k who)
                && match sel p with
                   | Some q => holds (ev (view t r) q)
                   | None => false
                   end)
          (policies c).

(** Evaluation of a policy expression on a row.  A subquery reads the table
    it names through that table's own SELECT policies, which is why the
    evaluation descends at most [depth] policies deep; past that the engine
    gives up on the statement, and nothing is admitted. *)
Fixpoint eval (depth : nat) (c : catalog) (d : db) (who : caller)
    (v : string → sqlval) (e : expr) : tri :=
  match depth with
  | O => None
  | S n =>
      let fix go (e : expr) : tri :=
        match e with
        | Etrue => Some true
        | Euid_eq col => uid_eq who (v col)
        | Ecol_eq col lit => text_eq (v col) lit
        | Eand a b => tri_and (go a) (go b)
        | Eor a b => tri_or (go a) (go b)
        | Eexists from cond =>
            match table_named from with
            | None => Some false
            | Some t =>
                Some (existsb
                        (λ r, (negb (bool_decide (gated c who t))
                               || permits (eval n c d who) c who t SELECT
                                    using_of r)
                              && holds (eval n c d who (view t r) cond))
                        (rows t d))
            end
        end in
      go e
  end.

(** A chain of subqueries longer than the number of policies would have to
    pass through one policy twice. *)
Definition policy_depth (c : catalog) : nat := S (length (policies c)).

(** Some policy for command [k] lets the caller see the existing row [r]. *)
Definition visible (c : catalog) (d : db) (who : caller) (t : table)
    (k : command) (r : row_of t) : bool :=
  permits (eval (policy_depth c) c d who) c who t k using_of r.

(** Some policy for command [k] accepts the new row [r]. *)
Definition allowed (c : catalog) (d : db) (who : caller) (t : table)
    (k : command) (r : row_of t) : bool :=
  permits (eval (policy_depth c) c d who) c who t k check_of r.

(** [SELECT * FROM t] *)
Definition select_from (c : catalog) (who : caller) (t : table) (d : db)
    : list (row_of t) :=
  if decide (gated c who t)
  then filter (λ r, visible c d who t SELECT r) (rows t d)
  else rows t d.

(** A statement as issued by a caller.  A row the caller may not see is
    skipped by UPDATE and DELETE without an error; a new row the policies do
    not accept fails the statement.  UPDATE and DELETE name their row in a
    WHERE clause and therefore read the table, which brings the SELECT
    policies in as well. *)
Definition exec (c : catalog) (who : caller) (s : statement) (d : db)
    : outcome db :=
  match s with
  | Insert t r =>
      if decide (gated c who t) then
        require (allowed c d who t INSERT r) insufficient_privilege ;;
        insert_into t r d
      else insert_into t r d
  | Update t i f =>
      if decide (gated c who t) then
        match list_find (λ r, pkey t r = i) (rows t d) with
        | None => Done d
        | Some (_, old) =>
            if visible c d who t SELECT old && visible c d who t UPDATE old
            then
              require (allowed c d who t UPDATE (f old)
                       && visible c d who t SELECT (f old))
                insufficient_privilege ;;
              update_set t i f d
            else Done d
        end
      else update_set t i f d
  | Delete t i =>
      if decide (gated c who t) then
        match list_find (λ r, pkey t r = i) (rows t d) with
        | None => Done d
        | Some (_, old) =>
            if visible c d who t SELECT old && visible c d who t DELETE old
            then Done (delete_from t i d)
            else Done d
        end
      else Done (delete_from t i d)
  end.

(** A write is rejected when it does not take effect: the statement fails,
    or it completes without having changed anything. *)
Definition rejected (c : catalog) (who : caller) (s : statement) (d : db)
    : Prop :=
  ∀ d', exec c who s d = Done d' → d' = d.

(** ** The policies of the script *)

Definition policy (name : string) (t : table) (k : command) (to : grantee)
    (qual with_check : option expr) : pg_policies.row :=
  {| pg_policies.policyname := name;
     pg_policies.tablename := table_name t;
     pg_policies.cmd := k;
     pg_policies.roles := to;
     pg_policies.qual := qual;
     pg_policies.with_check := with_check |}.

Definition authenticated : grantee := to_role "authenticated".

(** [patient_id = auth.uid() OR nurse_id = auth.uid()] *)
Definition party : expr := Eor (Euid_eq "patient_id") (Euid_eq "nurse_id").

Definition script_policies : list pg_policies.row := [
  policy "Users can view their own profile" Tprofiles SELECT authenticated
    (Some (Euid_eq "id")) None;
  policy "Users can update their own profile" Tprofiles UPDATE authenticated
    (Some (Euid_eq "id")) (Some (Euid_eq "id"));
  policy "Users can insert their own profile" Tprofiles INSERT authenticated
    None (Some (Euid_eq "id"));
  policy "Public can view service areas" Tservice_areas SELECT to_public
    (Some Etrue) None;
  policy "Patients can view their own profile" Tpatient_profiles SELECT
    authenticated (Some (Euid_eq "id")) None;
  policy "Patients can insert their own profile" Tpatient_profiles INSERT
    authenticated None (Some (Euid_eq "id"));
  policy "Patients can update their own profile" Tpatient_profiles UPDATE
    authenticated (Some (Euid_eq "id")) (Some (Euid_eq "id"));
  policy "Public can view nurse profiles" Tnurse_profiles SELECT authenticated
    (Some Etrue) None;
  policy "Nurses can insert their own profile" Tnurse_profiles INSERT
    authenticated None (Some (Euid_eq "id"));
  policy "Nurses can update their own profile" Tnurse_profiles UPDATE
    authenticated (Some (Euid_eq "id")) (Some (Euid_eq "id"));
  policy "Public can view nurse service areas" Tnurse_service_areas SELECT
    authenticated (Some Etrue) None;
  policy "Nurses can manage their service areas" Tnurse_service_areas ALL
    authenticated (Some (Euid_eq "nurse_id")) (Some (Euid_eq "nurse_id"));
  policy "Public can view available slots" Tnurse_slots SELECT authenticated
    (Some Etrue) None;
  policy "Nurses can manage their slots" Tnurse_slots ALL authenticated
    (Some (Euid_eq "nurse_id")) (Some (Euid_eq "nurse_id"));
  policy "Users can view their bookings" Tbookings SELECT authenticated
    (Some party) None;
  policy "Patients can create bookings" Tbookings INSERT authenticated
    None
    (Some (Eand (Euid_eq "patient_id")
                (Eexists "profiles"
                   (Eand (Euid_eq "id") (Ecol_eq "role" "patient")))));
  policy "Users can update their bookings" Tbookings UPDATE authenticated
    (Some party) (Some party) ].

(** ** The migration script *)

(** The server: the catalog of [public] and the rows. *)
Record server := {
  cat : catalog;
  data : db }.

(** [DROP POLICY IF EXISTS n ON t] *)
Definition drop_policy_if_exists (n t : string) (c : catalog) : catalog :=
  {| tables := tables c;
     policies :=
       filter (λ p, ¬ (pg_policies.policyname p = n
                       ∧ pg_policies.tablename p = t)) (policies c) |}.

(** The first DO block: one DROP POLICY per row of [pg_policies], the rows
    read before the loop starts. *)
Definition drop_all_policies (c : catalog) : catalog :=
  foldl (λ acc pol,
           drop_policy_if_exists (pg_policies.policyname pol)
             (pg_policies.tablename pol) acc)
        c (policies c).

(** What CASCADE does to another table: its foreign keys to the dropped
    table go, and with them its being as declared. *)
Definition detach (x : string) (e : pg_tables.row) : pg_tables.row :=
  if decide (x ∈ pg_tables.fkeys e) then
    {| pg_tables.tablename := pg_tables.tablename e;
       pg_tables.rowsecurity := pg_tables.rowsecurity e;
       pg_tables.declared := None;
       pg_tables.fkeys := filter (λ y, y ≠ x) (pg_tables.fkeys e) |}
  else e.

Definition without_table (x : string) (l : list pg_tables.row)
    : list pg_tables.row :=
  detach x <$> filter (λ e, pg_tables.tablename e ≠ x) l.

(** [DROP TABLE IF EXISTS x CASCADE] *)
Definition drop_table_if_exists_cascade (x : string) (s : server) : server :=
  if decide (x ∈ table_names (cat s)) then
    {| cat :=
         {| tables := without_table x (tables (cat s));
            policies :=
              filter (λ p, x ∉ pg_policies.depends p) (policies (cat s)) |};
       data :=
         match table_named x with
         | Some t => with_rows t [] (data s)
         | None => data s
         end |}
  else s.

(** [CREATE TABLE IF NOT EXISTS t (...)]; the tables it references must
    exist. *)
Definition create_table_if_not_exists (t : table) (s : server)
    : option server :=
  if decide (table_name t ∈ table_names (cat s)) then Some s
  else if decide (Forall (λ x, table_name x ∈ table_names (cat s))
                         (fk_targets t)) then
    Some {| cat := {| tables := tables (cat s) ++ [created t];
                      policies := policies (cat s) |};
            data := with_rows t [] (data s) |}
  else None.

Definition secured (e : pg_tables.row) : pg_tables.row :=
  {| pg_tables.tablename := pg_tables.tablename e;
     pg_tables.rowsecurity := true;
     pg_tables.declared := pg_tables.declared e;
     pg_tables.fkeys := pg_tables.fkeys e |}.

(** [ALTER TABLE x ENABLE ROW LEVEL SECURITY] *)
Definition enable_row_level_security (x : string) (c : catalog) : catalog :=
  {| tables :=
       (λ e, if decide (pg_tables.tablename e = x) then secured e else e)
         <$> tables c;
     policies := policies c |}.

(** The second DO block: one ALTER TABLE per row of [pg_tables]. *)
Definition enable_all (c : catalog) : catalog :=
  foldl (λ acc tbl, enable_row_level_security tbl acc) c (table_names c).

(** [CREATE POLICY]: the table and the tables the expressions read must
    exist, and the table must not have a policy of that name yet. *)
Definition create_policy (p : pg_policies.row) (c : catalog) : option catalog :=
  if decide (Forall (λ x, x ∈ table_names c) (pg_policies.depends p)
             ∧ Forall (λ q, ¬ (pg_policies.policyname q = pg_policies.policyname p
                               ∧ pg_policies.tablename q = pg_policies.tablename p))
                      (policies c))
  then Some {| tables := tables c; policies := policies c ++ [p] |}
  else None.

(** *** Test data *)

(** [INSERT INTO t VALUES (r) ON CONFLICT (id) DO NOTHING] *)
Definition insert_on_conflict_do_nothing (t : table) (r : row_of t) (d : db)
    : outcome db :=
  require (not_nulls t r) not_null_violation ;;
  require (checks t r) check_violation ;;
  if decide (pkey t r ∈ keys t d) then Done d else insert_into t r d.

Definition test_patient_id : uuid := "e9dc96f3-6691-4a7c-9d6c-ef3b367ad6f1".
Definition test_nurse_id : uuid := "f7dc96f3-6691-4a7c-9d6c-ef3b367ad6f2".

Definition test_profile (i : uuid) (r n : text) (now : timestamptz)
    : profiles.row :=
  {| profiles.id := i; profiles.role := Some r; profiles.name := Some n;
     profiles.phone := None; profiles.address := None;
     profiles.created_at := Some now; profiles.updated_at := Some now |}.

(** ['1990-01-01'] in days since 1970-01-01. *)
Definition test_patient_profile (now : timestamptz) : patient_profiles.row :=
  {| patient_profiles.id := test_patient_id;
     patient_profiles.date_of_birth := Some 7305;
     patient_profiles.gender := Some "male";
     patient_profiles.blood_group := Some "O+";
     patient_profiles.emergency_contact_name := Some "Emergency Contact";
     patient_profiles.emergency_contact_phone := Some "+91 98765 43210";
     patient_profiles.medical_conditions := Some [];
     patient_profiles.allergies := Some [];
     patient_profiles.current_medications := Some [];
     patient_profiles.created_at := Some now;
     patient_profiles.updated_at := Some now |}.

Definition test_nurse_profile (now : timestamptz) : nurse_profiles.row :=
  {| nurse_profiles.id := test_nurse_id;
     nurse_profiles.qualification := Some "BSc Nursing";
     nurse_profiles.years_of_experience := Some 5;
     nurse_profiles.specializations :=
       Some ["General Care"; "Elder Care"; "Post-operative Care"];
     nurse_profiles.languages_spoken := Some ["English"; "Tamil"; "Hindi"];
     nurse_profiles.created_at := Some now;
     nurse_profiles.updated_at := Some now |}.

(** The last DO block; [now] is the time of the transaction, which the
    [DEFAULT now()] columns take. *)
Definition insert_test_data (now : timestamptz) (d : db) : outcome db :=
  d ← insert_on_conflict_do_nothing Tprofiles
         (test_profile test_patient_id "patient" "Test Patient" now) d;
  d ← insert_on_conflict_do_nothing Tprofiles
         (test_profile test_nurse_id "nurse" "Test Nurse" now) d;
  d ← insert_on_conflict_do_nothing Tpatient_profiles
         (test_patient_profile now) d;
  insert_on_conflict_do_nothing Tnurse_profiles (test_nurse_profile now) d.

(** *** The script, statement by statement *)

Definition step := server → option server.

Definition on_catalog (f : catalog → catalog) : step :=
  λ s, Some {| cat := f (cat s); data := data s |}.

Definition drop_order : list table :=
  [Tbookings; Tnurse_slots; Tnurse_service_areas; Tnurse_profiles;
   Tpatient_profiles; Tprofiles; Tservice_areas].

Definition create_order : list table :=
  [Tprofiles; Tservice_areas; Tpatient_profiles; Tnurse_profiles;
   Tnurse_service_areas; Tnurse_slots; Tbookings].

Definition create_policy_step (p : pg_policies.row) : step :=
  λ s, c ← create_policy p (cat s); Some {| cat := c; data := data s |}.

Definition insert_test_data_step (now : timestamptz) : step :=
  λ s, match insert_test_data now (data s) with
       | Done d => Some {| cat := cat s; data := d |}
       | Fail _ => None
       end.

Definition drop_table_step (t : table) : step :=
  λ s, Some (drop_table_if_exists_cascade (table_name t) s).

(** Everything up to the test data. *)
Definition schema_steps : list step :=
  [on_catalog drop_all_policies]
  ++ (drop_table_step <$> drop_order)
  ++ (create_table_if_not_exists <$> create_order)
  ++ [on_catalog enable_all]
  ++ (create_policy_step <$> script_policies).

Definition script (now : timestamptz) : list step :=
  schema_steps ++ [insert_test_data_step now].

(** The script has no transaction of its own.  A runner either wraps it in
    one, so that a failing statement undoes everything, or sends the
    statements one by one, a failing statement leaving the state as it
    was. *)
Fixpoint run_all (steps : list step) (s : server) : option server :=
  match steps with
  | [] => Some s
  | st :: rest => st s ≫= run_all rest
  end.

Definition run_atomic (steps : list step) (s : server) : server :=
  default s (run_all steps s).

Definition run_each (steps : list step) (s : server) : server :=
  foldl (λ acc st, default acc (st acc)) s steps.

Definition migrate (atomic : bool) (now : timestamptz) (s : server) : server :=
  if atomic then run_atomic (script now) s else run_each (script now) s.

(** ** The language of the web client ([App]) *)

(** [setLanguage(prev => prev === 'en' ? 'ta' : 'en')] *)
Definition toggleLanguage (prev : string) : string :=
  if decide (prev = "en") then "ta" else "en".

(** The state of [App]. *)
Record app_state := {
  language : string;
  isMenuOpen : bool }.

Definition on_toggleLanguage (st : app_state) : app_state :=
  {| language := toggleLanguage (language st); isMenuOpen := isMenuOpen st |}.

(** The values of a locale: strings, lists and nested objects. *)
#[warnings="-register-all"]
Inductive jsval :=
  | JStr (s : string)
  | JArr (items : list jsval)
  | JObj (props : gmap string jsval).

(** [{...v}]: the own properties of an object, and nothing for
    [undefined].  ([LanguageContent] types [nav] as an object, so the
    properties a string or an array would spread do not arise.) *)
Definition spread (v : option jsval) : gmap string jsval :=
  match v with
  | Some (JObj props) => props
  | _ => ∅
  end.

Section content.
(** The two locale modules, [./locales/en] and [./locales/ta]. *)
Variables en ta : gmap string jsval.

Definition locale (language : string) : gmap string jsval :=
  if decide (language = "en") then en else ta.

(** [{ ...(language === 'en' ? en : ta),
       nav: { ...(language === 'en' ? en.nav : ta.nav), language } }] *)
Definition content (language : string) : gmap string jsval :=
  <["nav" := JObj (<["language" := JStr language]>
                     (spread (locale language !! "nav")))]>
    (locale language).
End content.

(** ** What the constraints promise *)

(** A database in which every declared constraint holds. *)
Record consistent (d : db) : Prop := {
  users_unique : NoDup (auth_users d);
  rows_valid : ∀ t r, r ∈ rows t d → not_nulls t r ∧ checks t r;
  pkey_unique : ∀ t, NoDup (keys t d);
  uniques_hold :
    ∀ t k, k ∈ uniques t → NoDup (filter definite (k <$> rows t d));
  fkeys_hold : ∀ t r ref, r ∈ rows t d → ref ∈ refs t r → fk_holds d ref }.

(** The states the server can be in under the catalog [c]: the freshly
    created tables, then any statement of any caller that succeeds, and the
    identity provider adding and removing users. *)
Inductive reachable (c : catalog) : db → Prop :=
  | reach_fresh users :
      NoDup users → reachable c (no_rows users)
  | reach_exec d who s d' :
      reachable c d → exec c who s d = Done d' → reachable c d'
  | reach_sign_up d u d' :
      reachable c d → sign_up u d = Done d' → reachable c d'
  | reach_delete_user d u :
      reachable c d → reachable c (delete_user u d).

(** A catalog that carries the policies of the script, with row-level
    security enabled on its seven tables. *)
Definition installed (c : catalog) : Prop :=
  policies c = script_policies ∧ ∀ t, rls_enabled c (table_name t).

(** A slot that lasts exactly one hour: 3600 seconds, in microseconds. *)
Definition one_hour (r : nurse_slots.row) : Prop :=
  ∃ s e, nurse_slots.start_time r = Some s ∧ nurse_slots.end_time r = Some e
         ∧ s < e ∧ e - s = 3600 * 1000000.

(** In a catalog, a foreign key references a table that exists. *)
Definition tables_wf (l : list pg_tables.row) : Prop :=
  Forall (λ e, Forall (λ x, x ∈ pg_tables.tablename <$> l) (pg_tables.fkeys e))
         l.

Definition catalog_wf (c : catalog) : Prop := tables_wf (tables c).

#[global] Instance catalog_wf_dec c : Decision (catalog_wf c).
Proof. unfold catalog_wf, tables_wf; apply _. Defined.

(** What the seven DROP TABLE statements leave of a list of tables. *)
Definition emptied (l : list pg_tables.row) : list pg_tables.row :=
  foldl (λ acc t, without_table (table_name t) acc) l drop_order.

(** What the schema part of the script makes of a catalog: the tables that
    are not the script's, without their foreign keys to the script's tables,
    then the script's seven tables, all with row-level security enabled, and
    the script's policies. *)
Definition schema_catalog (c : catalog) : catalog :=
  {| tables := secured <$> (emptied (tables c) ++ (created <$> create_order));
     policies := script_policies |}.

(** The rows the test data block leaves in freshly created tables. *)
Definition test_data (now : timestamptz) (users : list uuid) : db :=
  {| auth_users := users;
     profiles := [test_profile test_patient_id "patient" "Test Patient" now;
                  test_profile test_nurse_id "nurse" "Test Nurse" now];
     service_areas := [];
     patient_profiles := [test_patient_profile now];
     nurse_profiles := [test_nurse_profile now];
     nurse_service_areas := [];
     nurse_slots := [];
     bookings := [] |}.

(** A sequence of statements, each by its caller, stopping at the first
    that fails. *)
Definition replay (c : catalog) (l : list (caller * statement)) (d : db)
    : outcome db :=
  foldl (λ acc cs, acc ≫= exec c cs.1 cs.2) (Done d) l.

(** The foreign keys hold except where [B] says a reference may dangle. *)
Definition fk_up_to (B : table → option uuid * parent → Prop) (d : db) : Prop :=
  ∀ t r ref, r ∈ rows t d → ref ∈ refs t r → fk_holds d ref ∨ B t ref.

(** A reference into [p] at one of the keys [gone]. *)
Definition hole (p : parent) (gone : list uuid) (ref : option uuid * parent)
    : Prop :=
  ref.2 = p ∧ ref.1 ∈ Some <$> gone.

(** How long a chain of references can end in [p]. *)
Definition below (p : parent) : nat :=
  match p with
  | Pauth_users => 4
  | Ptable Tprofiles => 3
  | Ptable Tnurse_profiles => 2
  | Ptable Tpatient_profiles | Ptable Tnurse_slots => 1
  | Ptable Tservice_areas | Ptable Tnurse_service_areas | Ptable Tbookings => 0
  end%nat.

(** Every table of [d'] holds a subsequence of what it holds in [d]. *)
Definition shrunk (d' d : db) : Prop :=
  sublist (auth_users d') (auth_users d)
  ∧ ∀ t, sublist (rows t d') (rows t d).

(** ** Auxiliary notions for the migration *)

(** A table list is clean of [x] when no table is called [x] or references
    it. *)
Definition clean_of (x : string) (l : list pg_tables.row) : Prop :=
  ∀ e, e ∈ l → pg_tables.tablename e ≠ x ∧ x ∉ pg_tables.fkeys e.

(** The tables [ts] can be created in this order on top of the tables
    called [names]. *)
Fixpoint creatable (names : list string) (ts : list table) : Prop :=
  match ts with
  | [] => True
  | t :: ts =>
      (table_name t ∉ names)
      ∧ Forall (λ x, table_name x ∈ names) (fk_targets t)
      ∧ creatable (names ++ [table_name t]) ts
  end.

(** A table has at most one policy of a given name. *)
Definition policy_key (p : pg_policies.row) : string * string :=
  (pg_policies.policyname p, pg_policies.tablename p).

(** The server has both test identities among its users. *)
Definition test_users (s : server) : Prop :=
  test_patient_id ∈ auth_users (data s) ∧ test_nurse_id ∈ auth_users (data s).

(** ** Sample data *)

(** The role that applies migrations: it owns the tables. *)
Definition postgres : caller :=
  {| role := "postgres"; bypassrls := true; uid := None |}.

(** A visitor who has not signed in. *)
Definition anon : caller :=
  {| role := "anon"; bypassrls := false; uid := None |}.

Definition result (d : db) (o : outcome db) : db :=
  match o with
  | Done d' => d'
  | Fail _ => d
  end.

(** A new project in which the two test identities have signed up, and the
    same after the migration. *)
Definition fresh : server :=
  {| cat := {| tables := []; policies := [] |};
     data := no_rows [test_patient_id; test_nurse_id] |}.

Definition demo : server := migrate true 0 fresh.

(** A project that has drifted: a policy and an audit table of its own, an
    old shape of [profiles], no test identities. *)
Definition drifted : server :=
  {| cat :=
       {| tables :=
            [ {| pg_tables.tablename := "profiles";
                 pg_tables.rowsecurity := false;
                 pg_tables.declared := None;
                 pg_tables.fkeys := [] |};
              {| pg_tables.tablename := "audit_log";
                 pg_tables.rowsecurity := false;
                 pg_tables.declared := None;
                 pg_tables.fkeys := ["profiles"] |} ];
          policies :=
            [ policy "Anyone can do anything" Tprofiles ALL to_public
                (Some Etrue) (Some Etrue);
              {| pg_policies.policyname := "Auditors read the log";
                 pg_policies.tablename := "audit_log";
                 pg_policies.cmd := SELECT;
                 pg_policies.roles := to_role "auditor";
                 pg_policies.qual := Some Etrue;
                 pg_policies.with_check := None |} ] |};
     data := no_rows [] |}.

Definition chennai : service_areas.row :=
  {| service_areas.id := "0a000000-0000-4000-8000-000000000001";
     service_areas.pincode := Some "600001";
     service_areas.service_id := Some "elder-care";
     service_areas.is_available := Some true;
     service_areas.created_at := Some 1;
     service_areas.updated_at := Some 1 |}.

Definition coverage : nurse_service_areas.row :=
  {| nurse_service_areas.id := "0a000000-0000-4000-8000-000000000002";
     nurse_service_areas.nurse_id := Some test_nurse_id;
     nurse_service_areas.pincode := Some "600001";
     nurse_service_areas.is_active := Some true;
     nurse_service_areas.created_at := Some 2;
     nurse_service_areas.updated_at := Some 2 |}.

(** A slot from 09:00 to [until], in microseconds since midnight. *)
Definition slot_from_nine (i : uuid) (until : time) : nurse_slots.row :=
  {| nurse_slots.id := i;
     nurse_slots.nurse_id := Some test_nurse_id;
     nurse_slots.date := Some 20000;
     nurse_slots.start_time := Some 32400000000;
     nurse_slots.end_time := Some until;
     nurse_slots.status := Some "available";
     nurse_slots.created_at := Some 3;
     nurse_slots.updated_at := Some 3 |}.

Definition nine_to_ten : nurse_slots.row :=
  slot_from_nine "0a000000-0000-4000-8000-000000000003" 36000000000.

Definition nine_to_half_past_ten : nurse_slots.row :=
  slot_from_nine "0a000000-0000-4000-8000-000000000004" 37800000000.

(** A booking of [nine_to_ten] that names [patient] as its patient. *)
Definition visit (i : uuid) (patient : uuid) : bookings.row :=
  {| bookings.id := i;
     bookings.patient_id := Some patient;
     bookings.nurse_id := Some test_nurse_id;
     bookings.slot_id := Some (nurse_slots.id nine_to_ten);
     bookings.service_id := Some "elder-care";
     bookings.status := Some "pending";
     bookings.notes := None;
     bookings.created_at := Some 4;
     bookings.updated_at := Some 4 |}.

(** The administrator opens a service area, the test nurse covers it and
    offers a slot, the test patient books it. *)
Definition busy_statements : list (caller * statement) :=
  [ (postgres, Insert Tservice_areas chennai);
    (signed_in test_nurse_id, Insert Tnurse_service_areas coverage);
    (signed_in test_nurse_id, Insert Tnurse_slots nine_to_ten);
    (signed_in test_patient_id,
     Insert Tbookings
       (visit "0a000000-0000-4000-8000-000000000005" test_patient_id)) ].

Definition busy : db :=
  result (data demo) (replay (cat demo) busy_statements (data demo)).

(** The test patient asks for a nurse profile as well. *)
Definition second_hat : nurse_profiles.row :=
  {| nurse_profiles.id := test_patient_id;
     nurse_profiles.qualification := Some "None";
     nurse_profiles.years_of_experience := Some 0;
     nurse_profiles.specializations := Some [];
     nurse_profiles.languages_spoken := Some [];
     nurse_profiles.created_at := Some 5;
     nurse_profiles.updated_at := Some 5 |}.



(** Two small locales. *)
Definition sample_en : gmap string jsval :=
  <["nav" := JObj (<["home" := JStr "Home"]>
                     (<["language" := JStr "English"]> ∅))]>
    (<["hero" := JObj (<["title" := JStr "Care at home"]> ∅)]> ∅).

Definition sample_ta : gmap string jsval :=
  <["nav" := JObj (<["home" := JStr "Mugappu"]>
                     (<["language" := JStr "Tamil"]> ∅))]>
    (<["hero" := JObj (<["title" := JStr "Veettil paramarippu"]> ∅)]> ∅).

(** ** The statistics of the About section ([src/unnamed/part_001]) *)





(** ** Auxiliary notions for the policies and the cascade *)

(** The expressions the script's policies contribute for a table, a command
    and a role: USING or WITH CHECK, as [sel] chooses. *)
Definition quals (sel : pg_policies.row → option expr) (name : string)
    (k : command) (rolename : string) : list expr :=
  omap sel
    (filter (λ p, applies p name k
                    {| role := rolename; bypassrls := false; uid := None |})
            script_policies).

(** The parents the foreign keys of a table point to. *)
Definition fk_parents (t : table) : list parent :=
  match t with
  | Tprofiles => [Pauth_users]
  | _ => Ptable <$> fk_targets t
  end.

(** The tables a deletion in [p] can reach: those with a foreign key to [p],
    and the ones with a foreign key to these, up to [n] steps away. *)
Fixpoint dependants (n : nat) (p : parent) : list table :=
  match n with
  | O => []
  | S n =>
      let direct := filter (λ t, p ∈ fk_parents t) all_tables in
      direct ++ (direct ≫= λ t, dependants n (Ptable t))
  end.

(** The columns of a row that the policies for writing compare with
    [auth.uid()]. *)
Definition owners (t : table) : row_of t → list (option uuid) :=
  match t with
  | Tprofiles => λ r, [Some (profiles.id r)]
  | Tservice_areas => λ _, []
  | Tpatient_profiles => λ r, [Some (patient_profiles.id r)]
  | Tnurse_profiles => λ r, [Some (nurse_profiles.id r)]
  | Tnurse_service_areas => λ r, [nurse_service_areas.nurse_id r]
  | Tnurse_slots => λ r, [nurse_slots.nurse_id r]
  | Tbookings => λ r, [bookings.patient_id r; bookings.nurse_id r]
  end.

Definition owns (who : caller) (t : table) (r : row_of t) : Prop :=
  role who = "authenticated" ∧ ∃ u, uid who = Some u ∧ Some u ∈ owners t r.

(** ** More sample data *)

(** The owner of a profile takes the role of a nurse. *)
Definition as_nurse (p : profiles.row) : profiles.row :=
  {| profiles.id := profiles.id p; profiles.role := Some "nurse";
     profiles.name := profiles.name p; profiles.phone := profiles.phone p;
     profiles.address := profiles.address p;
     profiles.created_at := profiles.created_at p;
     profiles.updated_at := profiles.updated_at p |}.

(** A profile moved to another identity. *)
Definition rekeyed (i : uuid) (p : profiles.row) : profiles.row :=
  {| profiles.id := i; profiles.role := profiles.role p;
     profiles.name := profiles.name p; profiles.phone := profiles.phone p;
     profiles.address := profiles.address p;
     profiles.created_at := profiles.created_at p;
     profiles.updated_at := profiles.updated_at p |}.

(** A booking confirmed. *)
Definition confirmed (b : bookings.row) : bookings.row :=
  {| bookings.id := bookings.id b; bookings.patient_id := bookings.patient_id b;
     bookings.nurse_id := bookings.nurse_id b;
     bookings.slot_id := bookings.slot_id b;
     bookings.service_id := bookings.service_id b;
     bookings.status := Some "confirmed"; bookings.notes := bookings.notes b;
     bookings.created_at := bookings.created_at b;
     bookings.updated_at := bookings.updated_at b |}.

(** The project after the statements of [busy_statements]. *)
Definition in_use : server := {| cat := cat demo; data := busy |}.

(** The test nurse asks for a patient profile as well. *)
Definition second_gown : patient_profiles.row :=
  {| patient_profiles.id := test_nurse_id;
     patient_profiles.date_of_birth := None;
     patient_profiles.gender := None;
     patient_profiles.blood_group := None;
     patient_profiles.emergency_contact_name := None;
     patient_profiles.emergency_contact_phone := None;
     patient_profiles.medical_conditions := Some [];
     patient_profiles.allergies := Some [];
     patient_profiles.current_medications := Some [];
     patient_profiles.created_at := Some 5;
     patient_profiles.updated_at := Some 5 |}.

(** * Properties *)


(** ** Reading and writing the tables of a database *)

Lemma rows_with_rows t l d : rows t (with_rows t l d) = l.
Proof. by destruct t. Qed.

Lemma rows_with_rows_ne t t' l d : t ≠ t' → rows t' (with_rows t l d) = rows t' d.
Proof. by destruct t, t'. Qed.

Lemma auth_users_with_rows t l d : auth_users (with_rows t l d) = auth_users d.
Proof. by destruct t. Qed.

Lemma rows_with_users t l d : rows t (with_users l d) = rows t d.
Proof. by destruct t. Qed.

Lemma with_rows_same t d : with_rows t (rows t d) d = d.
Proof. by destruct t, d. Qed.

Lemma in_all_tables t : t ∈ all_tables.
Proof. destruct t; unfold all_tables; set_solver. Qed.

Lemma parent_keys_with_rows_ne t p l d :
  p ≠ Ptable t → parent_keys p (with_rows t l d) = parent_keys p d.
Proof.
  destruct p as [|t']; simpl; intros Hp.
  - apply auth_users_with_rows.
  - unfold keys. rewrite rows_with_rows_ne; [done|congruence].
Qed.

Lemma parent_keys_with_rows t l d :
  parent_keys (Ptable t) (with_rows t l d) = pkey t <$> l.
Proof. simpl. unfold keys. by rewrite rows_with_rows. Qed.


Ltac same_table t t' :=
  destruct (decide (t = t')) as [<-|?];
  [ rewrite ?rows_with_rows in * | rewrite ?rows_with_rows_ne in * by done ].

(** ** Outcomes *)

Lemma require_Done (P : Prop) `{Decision P} e : require P e = Done () ↔ P.
Proof. unfold require. case_decide; split; (done || by intros). Qed.

Lemma bind_Done {A B} (m : outcome A) (k : A → outcome B) b :
  m ≫= k = Done b ↔ ∃ a, m = Done a ∧ k a = Done b.
Proof.
  destruct m as [a|e]; simpl; split.
  - intros. by exists a.
  - by intros (? & [= <-] & ?).
  - done.
  - by intros (? & ? & ?).
Qed.

Lemma require_bind_Done {B} (P : Prop) `{Decision P} e (k : outcome B) b :
  require P e ≫= (λ _, k) = Done b ↔ P ∧ k = Done b.
Proof.
  rewrite bind_Done. split.
  - intros ([] & HP%require_Done & ?). done.
  - intros [HP ?]. exists (). by rewrite require_Done.
Qed.

Lemma require_bind_Fail {B} (P : Prop) `{Decision P} e (k : outcome B) :
  ¬ P → require P e ≫= (λ _, k) = Fail e.
Proof. intros. unfold require. by case_decide. Qed.

Lemma constrain_Done t r others d :
  constrain t r others d = Done () ↔
    not_nulls t r ∧ checks t r ∧ (pkey t r ∉ pkey t <$> others)
    ∧ Forall (λ k, key_free (k r) (k <$> others)) (uniques t)
    ∧ Forall (fk_holds d) (refs t r).
Proof.
  unfold constrain. rewrite !require_bind_Done, require_Done. naive_solver.
Qed.

Lemma insert_Done t r d d' :
  insert_into t r d = Done d' ↔
    constrain t r (rows t d) d = Done ()
    ∧ d' = with_rows t (rows t d ++ [r]) d.
Proof.
  unfold insert_into. rewrite bind_Done. split.
  - intros ([] & ? & ?). naive_solver.
  - intros [? ->]. by exists ().
Qed.

(** The catalog's view of the foreign keys of a table agrees with the
    engine's. *)
Lemma refs_targets t (r : row_of t) t' :
  (∃ v, (v, Ptable t') ∈ refs t r) ↔ t' ∈ fk_targets t.
Proof.
  destruct t; simpl; split.
  all: try (intros [v Hv]; revert Hv).
  all: rewrite ?elem_of_cons, ?elem_of_nil.
  all: try (intros H; repeat destruct H as [H|H]; simplify_eq; tauto).
  all: intros H; repeat destruct H as [H|H]; subst; try done.
  all: eexists; rewrite ?elem_of_cons; eauto.
Qed.

(** ** Foreign keys only need their referenced keys *)

Lemma fk_holds_mono d d' ref :
  (∀ u, u ∈ parent_keys ref.2 d → u ∈ parent_keys ref.2 d') →
  fk_holds d ref → fk_holds d' ref.
Proof.
  intros Hsub [?|Hin]; [by left|right].
  apply list_elem_of_fmap in Hin as (u & -> & Hu).
  apply list_elem_of_fmap. eauto.
Qed.

Lemma fk_holds_Some d u p : fk_holds d (Some u, p) ↔ u ∈ parent_keys p d.
Proof.
  unfold fk_holds; simpl. split.
  - intros [?|Hin]; [done|].
    apply list_elem_of_fmap in Hin as (? & [= <-] & ?). done.
  - intros. right. by apply list_elem_of_fmap_2.
Qed.

(** ** INSERT keeps the constraints *)

Lemma NoDup_filter_snoc {A} (P : A → Prop) `{∀ x, Decision (P x)} (l : list A) x :
  NoDup (filter P l) → (P x → x ∉ l) → NoDup (filter P (l ++ [x])%list).
Proof.
  intros Hnd Hx. rewrite filter_app, NoDup_app. split_and!; [done| |].
  - intros y Hy Hy'. rewrite filter_cons, filter_nil in Hy'.
    case_decide; [|by apply not_elem_of_nil in Hy'].
    apply list_elem_of_singleton in Hy' as ->.
    apply list_elem_of_filter in Hy as [_ ?]. by apply Hx.
  - rewrite filter_cons, filter_nil. case_decide; [apply NoDup_singleton|apply NoDup_nil_2].
Qed.

Lemma insert_consistent t r d d' :
  consistent d → insert_into t r d = Done d' → consistent d'.
Proof.
  intros [Hu Hv Hk Hq Hf] [Hc ->]%insert_Done.
  apply constrain_Done in Hc as (Hnn & Hch & Hpk & Huq & Hfk).
  assert (Hgrow : ∀ p u, u ∈ parent_keys p d →
            u ∈ parent_keys p (with_rows t (rows t d ++ [r]) d)).
  { intros p u. destruct (decide (p = Ptable t)) as [->|Hp].
    - rewrite parent_keys_with_rows, fmap_app, elem_of_app. by left.
    - by rewrite parent_keys_with_rows_ne. }
  split.
  - by rewrite auth_users_with_rows.
  - intros t' r'. same_table t t'; [|by apply Hv].
    rewrite elem_of_app, list_elem_of_singleton. intros [?| ->]; [by apply Hv|done].
  - intros t'. unfold keys. same_table t t'; [|by apply Hk].
    rewrite fmap_app, NoDup_app. split_and!; [apply Hk| |apply NoDup_singleton].
    intros x Hx Hx'%list_elem_of_singleton. by subst.
  - intros t' k Hkin. same_table t t'; [|by apply Hq].
    rewrite fmap_app. apply (NoDup_filter_snoc _ _ _ (Hq _ _ Hkin)).
    rewrite Forall_forall in Huq. apply (Huq _ Hkin).
  - intros t' r' ref Hr' Href.
    eapply fk_holds_mono; [intros u; apply Hgrow|].
    same_table t t'; [|by eapply Hf].
    apply elem_of_app in Hr' as [?|Hr'%list_elem_of_singleton]; [by eapply Hf|].
    subst r'.
    rewrite Forall_forall in Hfk. by apply Hfk.
Qed.

(** ** UPDATE keeps the constraints *)

Lemma sublist_filter_mono {A} (P : A → Prop) `{∀ x, Decision (P x)}
    (l k : list A) :
  sublist l k → sublist (filter P l) (filter P k).
Proof.
  induction 1 as [|x l k _ IH|x l k _ IH]; [done| |];
    rewrite ?filter_cons; repeat case_decide;
    eauto using sublist_skip, sublist_cons.
Qed.

Lemma insert_Permutation {A} (l : list A) n x y :
  l !! n = Some y → <[n:=x]> l ≡ₚ x :: delete n l.
Proof.
  intros Hn. rewrite insert_take_drop by eauto using lookup_lt_Some.
  rewrite delete_take_drop. by rewrite Permutation_middle.
Qed.

Lemma referenced_intro t' (r : row_of t') p u d :
  r ∈ rows t' d → (Some u, p) ∈ refs t' r → referenced p u d.
Proof.
  intros Hr Href. unfold referenced, referenced_from.
  apply Exists_exists. exists t'. split; [apply in_all_tables|].
  apply Exists_exists. eauto.
Qed.

Lemma update_Done t i f d d' :
  update_set t i f d = Done d' ↔
    (list_find (λ r, pkey t r = i) (rows t d) = None ∧ d' = d)
    ∨ ∃ n old,
        list_find (λ r, pkey t r = i) (rows t d) = Some (n, old)
        ∧ d' = with_rows t (<[n := f old]> (rows t d)) d
        ∧ constrain t (f old) (delete n (rows t d)) d' = Done ()
        ∧ (pkey t (f old) = i ∨ ¬ referenced (Ptable t) i d').
Proof.
  unfold update_set. destruct (list_find _ _) as [[n old]|].
  - rewrite bind_Done. setoid_rewrite require_bind_Done. split.
    + intros ([] & ? & ? & [= <-]). right. by exists n, old.
    + intros [[? _]|(? & ? & [= <- <-] & -> & ? & ?)]; [done|]. by exists ().
  - split; [intros [= <-]; by left|]. intros [[_ ->]|(? & ? & ? & _)]; done.
Qed.

Lemma update_consistent t i f d d' :
  consistent d → update_set t i f d = Done d' → consistent d'.
Proof.
  intros Hd [[_ ->]|(n & old & Hfind & -> & Hc & Hin)]%update_Done; [done|].
  destruct Hd as [Hu Hv Hk Hq Hf].
  apply list_find_Some in Hfind as (Hn & Hi & _).
  apply constrain_Done in Hc as (Hnn & Hch & Hpk & Huq & Hfk).
  set (l := rows t d) in *. set (new := f old) in *.
  pose proof (insert_Permutation l n new old Hn) as Hperm.
  pose proof (delete_Permutation l n old Hn) as Hperm'.
  pose proof (sublist_delete l n) as Hsub.
  split.
  - by rewrite auth_users_with_rows.
  - intros t' r'. same_table t t'; [|by apply Hv].
    rewrite Hperm, elem_of_cons. intros [->|Hr']; [done|].
    apply Hv. eapply elem_of_sublist; eauto.
  - intros t'. unfold keys. same_table t t'; [|by apply Hk].
    rewrite Hperm, fmap_cons. apply NoDup_cons. split; [done|].
    eapply sublist_NoDup; [apply (Hk t)|]. by apply fmap_sublist.
  - intros t' k Hkin. same_table t t'; [|by apply Hq].
    rewrite Hperm, fmap_cons, filter_cons.
    assert (NoDup (filter definite (k <$> delete n l))) as Hnd.
    { eapply sublist_NoDup; [apply (Hq t k Hkin)|].
      apply sublist_filter_mono. by apply fmap_sublist. }
    case_decide as Hdef; [|done]. apply NoDup_cons. split; [|done].
    rewrite list_elem_of_filter. intros [_ Hknew].
    rewrite Forall_forall in Huq. by apply (Huq _ Hkin).
  - intros t' r' ref Hr' Href.
    assert (r' ∈ rows t' d ∨ (∃ e : t = t', fk_holds
              (with_rows t (<[n:=new]> l) d) ref)) as [Hold|[_ ?]]; [| |done].
    { same_table t t'; [|by left].
      rewrite Hperm in Hr'. apply elem_of_cons in Hr' as [->|Hr'].
      - right. eexists; [done|]. rewrite Forall_forall in Hfk. by apply Hfk.
      - left. eapply elem_of_sublist; eauto. }
    destruct ref as [[u|] p]; [|by left].
    apply fk_holds_Some. pose proof (Hf _ _ _ Hold Href) as Hu'%fk_holds_Some.
    destruct (decide (p = Ptable t)) as [->|Hp];
      [|by rewrite parent_keys_with_rows_ne].
    rewrite parent_keys_with_rows, Hperm, fmap_cons, elem_of_cons.
    simpl in Hu'. unfold keys in Hu'. fold l in Hu'.
    rewrite Hperm', fmap_cons, elem_of_cons, Hi in Hu'.
    destruct Hu' as [->|?]; [|by right].
    destruct Hin as [->|Hnot]; [by left|].
    destruct Hnot. eapply referenced_intro; [|exact Href]. done.
Qed.

(** ** DELETE and its cascade keep the constraints *)

Lemma refs_below t (r : row_of t) ref :
  ref ∈ refs t r → (below (Ptable t) < below ref.2)%nat.
Proof.
  destruct t; simpl; rewrite ?elem_of_cons, elem_of_nil;
    intros H; repeat destruct H as [H|H]; subst; simpl; (lia || done).
Qed.

Lemma shrunk_refl d : shrunk d d.
Proof. split; done. Qed.

Lemma shrunk_trans d1 d2 d3 : shrunk d1 d2 → shrunk d2 d3 → shrunk d1 d3.
Proof. intros [? H1] [? H2]. split; [|intros t]; etrans; eauto. Qed.

Lemma shrunk_with_rows t (l : list (row_of t)) d :
  sublist l (rows t d) → shrunk (with_rows t l d) d.
Proof.
  intros Hl. split; [by rewrite auth_users_with_rows|].
  intros t'. same_table t t'; done.
Qed.

Lemma purge_shrunk t p gone d : shrunk (purge t p gone d) d.
Proof. apply shrunk_with_rows, sublist_filter. Qed.

Lemma cascade_S n p gone d :
  cascade (S n) p gone d
  = foldr (λ t acc,
             cascade n (Ptable t) (purged t p gone acc) (purge t p gone acc))
          d all_tables.
Proof. reflexivity. Qed.

Lemma cascade_shrunk n p gone d : shrunk (cascade n p gone d) d.
Proof.
  revert p gone d. induction n as [|n IH]; intros p gone d;
    [apply shrunk_refl|].
  rewrite cascade_S. generalize all_tables. intros ts.
  induction ts as [|t ts IHts]; [apply shrunk_refl|]. cbn [foldr].
  eapply shrunk_trans; [apply IH|].
  eapply shrunk_trans; [apply purge_shrunk|apply IHts].
Qed.

(** The constraints that look at one table at a time survive the loss of
    rows; only the foreign keys need care. *)
Lemma consistent_shrunk d d' :
  consistent d → shrunk d' d → fk_up_to (λ _ _, False) d' → consistent d'.
Proof.
  intros [Hu Hv Hk Hq Hf] [Hsu Hsr] Hfk. split.
  - by eapply sublist_NoDup.
  - intros t r Hr. apply Hv. eapply elem_of_sublist; eauto.
  - intros t. eapply sublist_NoDup; [apply (Hk t)|]. by apply fmap_sublist.
  - intros t k Hkin. eapply sublist_NoDup; [apply (Hq t k Hkin)|].
    apply sublist_filter_mono. by apply fmap_sublist.
  - intros t r ref Hr Href. by destruct (Hfk t r ref Hr Href).
Qed.

Lemma fk_up_to_mono (B B' : table → option uuid * parent → Prop) d :
  (∀ t ref, B t ref → B' t ref) → fk_up_to B d → fk_up_to B' d.
Proof. intros HB H t r ref Hr Href. destruct (H t r ref Hr Href); eauto. Qed.

Lemma consistent_fk_up_to d : consistent d → fk_up_to (λ _ _, False) d.
Proof. intros Hd t r ref Hr Href. left. by eapply fkeys_hold. Qed.

Lemma parent_keys_purge q t p gone d u :
  u ∈ parent_keys q d →
  u ∈ parent_keys q (purge t p gone d) ∨ hole (Ptable t) (purged t p gone d) (Some u, q).
Proof.
  unfold purge, purged, hole. intros Hu.
  destruct (decide (q = Ptable t)) as [->|Hq];
    [|left; by rewrite parent_keys_with_rows_ne].
  rewrite parent_keys_with_rows. simpl in *.
  apply list_elem_of_fmap in Hu as (x & -> & Hx).
  destruct (decide (orphaned t p gone x)).
  - right. split; [done|]. apply list_elem_of_fmap_2, list_elem_of_fmap_2.
    by apply list_elem_of_filter.
  - left. apply list_elem_of_fmap_2. by apply list_elem_of_filter.
Qed.

Lemma purge_fk (B : table → option uuid * parent → Prop) t p gone d :
  fk_up_to (λ t' ref, B t' ref ∨ (t' = t ∧ hole p gone ref)) d →
  fk_up_to (λ t' ref, B t' ref ∨ hole (Ptable t) (purged t p gone d) ref)
           (purge t p gone d).
Proof.
  intros H t' r ref Hr Href.
  assert (r ∈ rows t' d ∧ (t' = t → ¬ hole p gone ref)) as [Hr' Hno].
  { unfold purge in Hr. same_table t t'; [|done].
    apply list_elem_of_filter in Hr as [Hr ?]. split; [done|].
    intros _ Hh. apply Hr. apply Exists_exists. eauto. }
  destruct (H t' r ref Hr' Href) as [Hok|[?|[-> ?]]]; [|by right; left|naive_solver].
  destruct ref as [[u|] q]; [|by left; left].
  apply fk_holds_Some in Hok.
  destruct (parent_keys_purge q t p gone d u Hok) as [?|?].
  - left. by apply fk_holds_Some.
  - right. by right.
Qed.

Lemma purged_nil_or t p gone d :
  purged t p gone d = [] ∨ (gone ≠ [] ∧ (below (Ptable t) < below p)%nat).
Proof.
  destruct (purged t p gone d) as [|u us] eqn:E; [by left|right].
  assert (u ∈ purged t p gone d) as Hu by (rewrite E; left).
  apply list_elem_of_fmap in Hu as (r & _ & Hr).
  apply list_elem_of_filter in Hr as [Ho _].
  apply Exists_exists in Ho as (ref & Href & <- & Hin).
  split; [|by eapply refs_below].
  intros ->. by apply elem_of_nil in Hin.
Qed.

Lemma hole_nil p ref : ¬ hole p [] ref.
Proof. intros [_ H]. by apply elem_of_nil in H. Qed.

Lemma cascade_fk n : ∀ p gone d (B : table → option uuid * parent → Prop),
  gone = [] ∨ (below p ≤ n)%nat →
  fk_up_to (λ t ref, B t ref ∨ hole p gone ref) d →
  fk_up_to B (cascade n p gone d).
Proof.
  induction n as [|n IH]; intros p gone d B Hfuel H; [|rewrite cascade_S].
  - change (cascade 0 p gone d) with d. intros t r ref Hr Href.
    destruct (H t r ref Hr Href) as [?|[?|Hh]]; [by left|by right|].
    destruct Hfuel as [->|Hfuel]; [by apply hole_nil in Hh|].
    destruct Hh as [<- _]. apply refs_below in Href. lia.
  - assert (∀ ts d (B : table → option uuid * parent → Prop),
      fk_up_to (λ t ref, B t ref ∨ (t ∈ ts ∧ hole p gone ref)) d →
      fk_up_to B
        (foldr (λ t acc, cascade n (Ptable t) (purged t p gone acc)
                           (purge t p gone acc)) d ts)) as Hts.
    { clear d B H. induction ts as [|t ts IHts]; intros d B H; cbn [foldr].
      - eapply fk_up_to_mono; [|exact H]. intros t ref [?|[[]%elem_of_nil _]]. done.
      - apply IH.
        + destruct (purged_nil_or t p gone
            (foldr (λ t acc, cascade n (Ptable t) (purged t p gone acc)
                               (purge t p gone acc)) d ts)) as [?|[? ?]];
            [by left|right].
          destruct Hfuel; [done|lia].
        + apply purge_fk. apply IHts.
          eapply fk_up_to_mono; [|exact H]. simpl.
          intros t' ref [?|[[->|?]%elem_of_cons ?]]; eauto. }
    apply Hts. eapply fk_up_to_mono; [|exact H].
    intros t ref [?|?]; [by left|right]. split; [apply in_all_tables|done].
Qed.

Lemma delete_from_shrunk t i d : shrunk (delete_from t i d) d.
Proof.
  unfold delete_from. case_decide; [|apply shrunk_refl].
  eapply shrunk_trans; [apply cascade_shrunk|].
  apply shrunk_with_rows, sublist_filter.
Qed.

Lemma delete_from_consistent t i d : consistent d → consistent (delete_from t i d).
Proof.
  intros Hd. eapply consistent_shrunk; [done|apply delete_from_shrunk|].
  unfold delete_from. case_decide; [|by apply consistent_fk_up_to].
  apply cascade_fk; [right; destruct t; cbv; lia|].
  intros t' r ref Hr Href.
  assert (r ∈ rows t' d) as Hr'.
  { same_table t t'; [|done]. by apply list_elem_of_filter in Hr as [_ ?]. }
  pose proof (fkeys_hold d Hd t' r ref Hr' Href) as Hok.
  destruct ref as [[u|] q]; [|left; by left].
  apply fk_holds_Some in Hok.
  destruct (decide (q = Ptable t)) as [->|Hq].
  - destruct (decide (u = i)) as [->|Hne].
    + right. right. split; [done|]. simpl. apply elem_of_cons. by left.
    + left. apply fk_holds_Some. rewrite parent_keys_with_rows.
      simpl in Hok. apply list_elem_of_fmap in Hok as (x & -> & Hx).
      apply list_elem_of_fmap_2. by apply list_elem_of_filter.
  - left. apply fk_holds_Some. by rewrite parent_keys_with_rows_ne.
Qed.

Lemma delete_user_shrunk u d : shrunk (delete_user u d) d.
Proof.
  unfold delete_user. case_decide; [|apply shrunk_refl].
  eapply shrunk_trans; [apply cascade_shrunk|].
  split; [apply sublist_filter|]. intros t. by rewrite rows_with_users.
Qed.

Lemma delete_user_consistent u d : consistent d → consistent (delete_user u d).
Proof.
  intros Hd. eapply consistent_shrunk; [done|apply delete_user_shrunk|].
  unfold delete_user. case_decide; [|by apply consistent_fk_up_to].
  apply cascade_fk; [right; cbv; lia|].
  intros t' r ref Hr Href. rewrite rows_with_users in Hr.
  pose proof (fkeys_hold d Hd t' r ref Hr Href) as Hok.
  destruct ref as [[x|] q]; [|left; by left].
  apply fk_holds_Some in Hok.
  destruct q as [|t]; [|left; by apply fk_holds_Some].
  destruct (decide (x = u)) as [->|Hne].
  - right. right. split; [done|]. simpl. apply elem_of_cons. by left.
  - left. apply fk_holds_Some. simpl. by apply list_elem_of_filter.
Qed.

Lemma sign_up_consistent u d d' :
  consistent d → sign_up u d = Done d' → consistent d'.
Proof.
  unfold sign_up. intros [Hu Hv Hk Hq Hf] [Hnew [= <-]]%require_bind_Done.
  split; simpl.
  - apply NoDup_app. split_and!; [done| |apply NoDup_singleton].
    intros x Hx ->%list_elem_of_singleton. done.
  - intros t r. rewrite rows_with_users. apply Hv.
  - intros t. unfold keys. rewrite rows_with_users. apply Hk.
  - intros t k. rewrite rows_with_users. apply Hq.
  - intros t r ref. rewrite rows_with_users. intros Hr Href.
    eapply fk_holds_mono; [|by eapply Hf].
    destruct ref as [? [|t']]; simpl; [|unfold keys; by rewrite rows_with_users].
    intros x ?. apply elem_of_app. by left.
Qed.

(** ** Every reachable state is consistent *)

Lemma run_consistent s d d' : consistent d → run s d = Done d' → consistent d'.
Proof.
  destruct s as [t r|t i f|t i]; simpl.
  - apply insert_consistent.
  - apply update_consistent.
  - intros Hd [= <-]. by apply delete_from_consistent.
Qed.

(** Row-level security only ever withholds a statement. *)
Lemma exec_Done c who s d d' :
  exec c who s d = Done d' → d' = d ∨ run s d = Done d'.
Proof.
  destruct s as [t r|t i f|t i]; simpl.
  - case_decide; [|by right]. intros [_ ?]%require_bind_Done. by right.
  - case_decide; [|by right].
    destruct (list_find _ _) as [[n old]|]; [|intros [= <-]; by left].
    destruct (_ && _); [|intros [= <-]; by left].
    intros [_ ?]%require_bind_Done. by right.
  - case_decide; [|by right].
    destruct (list_find _ _) as [[n old]|]; [|intros [= <-]; by left].
    destruct (_ && _); [by right|intros [= <-]; by left].
Qed.

Lemma exec_consistent c who s d d' :
  consistent d → exec c who s d = Done d' → consistent d'.
Proof.
  intros Hd [->|?]%exec_Done; [done|]. by eapply run_consistent.
Qed.

Lemma no_rows_consistent users : NoDup users → consistent (no_rows users).
Proof.
  intros Hu. split; simpl; [done|..].
  - intros t r. destruct t; simpl; by rewrite elem_of_nil.
  - intros t. destruct t; apply NoDup_nil_2.
  - intros t k _. destruct t; apply NoDup_nil_2.
  - intros t r ref. destruct t; simpl; by rewrite elem_of_nil.
Qed.

Lemma reachable_consistent c d : reachable c d → consistent d.
Proof.
  induction 1 as [users Hu|d who s d' _ IH He|d u d' _ IH Hs|d u _ IH].
  - by apply no_rows_consistent.
  - by eapply exec_consistent.
  - by eapply sign_up_consistent.
  - by apply delete_user_consistent.
Qed.

(** ** The gate under the policies of the script *)

Lemma holds_true t : holds t = true ↔ t = Some true.
Proof. destruct t as [[]|]; simpl; split; congruence. Qed.

Lemma permits_true ev c who t k sel (r : row_of t) :
  permits ev c who t k sel r = true ↔
    ∃ p q, p ∈ policies c ∧ applies p (table_name t) k who
           ∧ sel p = Some q ∧ ev (view t r) q = Some true.
Proof.
  unfold permits. rewrite existsb_exists. split.
  - intros (p & Hp%list_elem_of_In & [Ha%bool_decide_eq_true Hq]%andb_true_iff).
    destruct (sel p) as [q|] eqn:E; [|done].
    exists p, q. by rewrite <-holds_true.
  - intros (p & q & Hp & Ha & Hs & He). exists p.
    rewrite <-list_elem_of_In, andb_true_iff, bool_decide_eq_true, Hs, holds_true.
    done.
Qed.

Lemma eval_true n c d who v : eval (S n) c d who v Etrue = Some true.
Proof. reflexivity. Qed.

Lemma eval_uid_eq n c d who v col :
  eval (S n) c d who v (Euid_eq col) = uid_eq who (v col).
Proof. reflexivity. Qed.

Lemma eval_col_eq n c d who v col lit :
  eval (S n) c d who v (Ecol_eq col lit) = text_eq (v col) lit.
Proof. reflexivity. Qed.

Lemma eval_and n c d who v a b :
  eval (S n) c d who v (Eand a b)
  = tri_and (eval (S n) c d who v a) (eval (S n) c d who v b).
Proof. reflexivity. Qed.

Lemma eval_or n c d who v a b :
  eval (S n) c d who v (Eor a b)
  = tri_or (eval (S n) c d who v a) (eval (S n) c d who v b).
Proof. reflexivity. Qed.

Lemma eval_exists n c d who v from cond :
  eval (S n) c d who v (Eexists from cond)
  = match table_named from with
    | None => Some false
    | Some t =>
        Some (existsb
                (λ r, (negb (bool_decide (gated c who t))
                       || permits (eval n c d who) c who t SELECT using_of r)
                      && holds (eval n c d who (view t r) cond))
                (rows t d))
    end.
Proof. reflexivity. Qed.

Lemma tri_and_true a b : tri_and a b = Some true ↔ a = Some true ∧ b = Some true.
Proof. destruct a as [[]|], b as [[]|]; simpl; intuition congruence. Qed.

Lemma tri_or_true a b : tri_or a b = Some true ↔ a = Some true ∨ b = Some true.
Proof.
  destruct a as [[]|], b as [[]|]; simpl; intuition congruence.
Qed.

Lemma uid_eq_true who v :
  uid_eq who v = Some true ↔ ∃ u, uid who = Some u ∧ v = VUuid u.
Proof.
  unfold uid_eq. destruct (uid who) as [u|], v; split;
    try (done || by intros (? & ? & ?)).
  - intros [= ->%bool_decide_eq_true]. eauto.
  - intros (? & [= <-] & [= ->]). by rewrite bool_decide_eq_true_2.
Qed.

Lemma text_eq_true v lit : text_eq v lit = Some true ↔ v = VText lit.
Proof.
  destruct v; simpl; split; try done.
  - by intros [= ->%bool_decide_eq_true].
  - intros [= ->]. by rewrite bool_decide_eq_true_2.
Qed.

Lemma installed_gated c who t : installed c → bypassrls who = false → gated c who t.
Proof. intros [_ H] ?. split; [done|apply H]. Qed.

Lemma installed_depth c : installed c → policy_depth c = 18%nat.
Proof. intros [H _]. unfold policy_depth. by rewrite H. Qed.

(** Going through the seventeen policies. *)
Ltac each_policy H :=
  unfold script_policies in H;
  repeat (apply elem_of_cons in H as [->|H]);
  [..|by apply elem_of_nil in H].


(** ** Failing statements *)

Lemma not_Done_Fail {A} (m : outcome A) : (∀ a, m ≠ Done a) → ∃ e, m = Fail e.
Proof. destruct m as [a|e]; [intros H; by destruct (H a)|eauto]. Qed.

Lemma exec_Insert_Done c who t r d d' :
  exec c who (Insert t r) d = Done d' →
  insert_into t r d = Done d'
  ∧ (gated c who t → allowed c d who t INSERT r = true).
Proof.
  simpl. case_decide as Hg.
  - intros [Ha ?]%require_bind_Done. split; [done|]. intros _.
    by apply Is_true_true.
  - done.
Qed.

Lemma insert_into_valid t r d d' :
  insert_into t r d = Done d' → not_nulls t r ∧ checks t r.
Proof. intros [Hc _]%insert_Done. apply constrain_Done in Hc. tauto. Qed.

(** ** nurse_slots: the two CHECK constraints *)

Lemma one_hour_slot_checks r :
  not_nulls Tnurse_slots r → checks Tnurse_slots r → one_hour r.
Proof.
  intros (_ & [s Hs] & [e He] & _) (_ & Hv & Hh).
  unfold nurse_slots.valid_slot_time, nurse_slots.one_hour_slot, check_holds in *.
  rewrite Hs, He in Hv, Hh. simpl in *.
  exists s, e. split_and!; [done..| |].
  - destruct (decide (s < e)); [done|]. destruct Hv.
    by rewrite bool_decide_eq_false_2.
  - destruct (Qeq_bool ((e - s) # 1000000) (inject_Z 3600)) eqn:E; [|done].
    apply Qeq_bool_iff in E. unfold Qeq in E. simpl in E. lia.
Qed.

Lemma reachable_replay c l d d' :
  reachable c d → replay c l d = Done d' → reachable c d'.
Proof.
  unfold replay. revert d d'.
  induction l as [|[who s] l IH] using rev_ind; intros d d' Hd; simpl.
  - by intros [= <-].
  - rewrite foldl_app. simpl. intros (d1 & H1 & H2)%bind_Done.
    eapply reach_exec; [|exact H2]. by eapply IH.
Qed.

(** C2. Every stored slot ends after it starts and lasts exactly 3600
    seconds; an INSERT of a slot of any other duration (90 minutes, say)
    fails, whoever issues it; and whatever statement succeeds, the slots it
    leaves all last one hour. *)
Theorem nurse_slots_last_one_hour c d :
  reachable c d →
  (∀ r, r ∈ nurse_slots d → one_hour r)
  ∧ (∀ who r, ¬ one_hour r → ∃ e, exec c who (Insert Tnurse_slots r) d = Fail e)
  ∧ (∀ who s d', exec c who s d = Done d' →
       ∀ r, r ∈ nurse_slots d' → one_hour r).
Proof.
  intros Hd.
  assert (∀ d, reachable c d → ∀ r, r ∈ nurse_slots d → one_hour r) as Hinv.
  { intros d0 Hd0%reachable_consistent r Hr.
    destruct (rows_valid d0 Hd0 Tnurse_slots r Hr). by apply one_hour_slot_checks. }
  split_and!.
  - by apply Hinv.
  - intros who r Hr. apply not_Done_Fail. intros d' He.
    apply exec_Insert_Done in He as [[??]%insert_into_valid _].
    by apply Hr, one_hour_slot_checks.
  - intros who s d' He. apply Hinv. by eapply reach_exec.
Qed.

Ltac in_script :=
  unfold script_policies;
  repeat (apply elem_of_cons; first [left; reflexivity|right]).

Lemma uid_eq_signed_in u x : uid_eq (signed_in u) (VUuid x) = Some (bool_decide (x = u)).
Proof. reflexivity. Qed.

(** A signed-in nurse-to-be may insert the nurse_profiles row keyed by their
    own identity. *)
Lemma allowed_insert_nurse_profiles c d u (r : row_of Tnurse_profiles) :
  installed c → nurse_profiles.id r = u →
  allowed c d (signed_in u) Tnurse_profiles INSERT r = true.
Proof.
  intros Hc Hid. pose proof Hc as [Hp _]. apply permits_true.
  exists (policy "Nurses can insert their own profile" Tnurse_profiles INSERT
            authenticated None (Some (Euid_eq "id"))), (Euid_eq "id").
  split_and!.
  - rewrite Hp. in_script.
  - split_and!; [done|by left|by right].
  - done.
  - rewrite (installed_depth c Hc), eval_uid_eq.
    change (view Tnurse_profiles r "id") with (VUuid (nurse_profiles.id r)).
    by rewrite uid_eq_signed_in, bool_decide_eq_true_2.
Qed.

(** The same for the patient_profiles row of a signed-in identity. *)
Lemma allowed_insert_patient_profiles c d u (r : row_of Tpatient_profiles) :
  installed c → patient_profiles.id r = u →
  allowed c d (signed_in u) Tpatient_profiles INSERT r = true.
Proof.
  intros Hc Hid. pose proof Hc as [Hp _]. apply permits_true.
  exists (policy "Patients can insert their own profile" Tpatient_profiles
            INSERT authenticated None (Some (Euid_eq "id"))), (Euid_eq "id").
  split_and!.
  - rewrite Hp. in_script.
  - split_and!; [done|by left|by right].
  - done.
  - rewrite (installed_depth c Hc), eval_uid_eq.
    change (view Tpatient_profiles r "id")
      with (VUuid (patient_profiles.id r)).
    by rewrite uid_eq_signed_in, bool_decide_eq_true_2.
Qed.

Lemma filter_key_nil {A B} `{EqDecision B} (f : A → B) (l : list A) (u : B) :
  u ∉ f <$> l → filter (λ x, f x = u) l = [].
Proof.
  induction l as [|x l IH]; [done|]. rewrite fmap_cons, not_elem_of_cons.
  intros [Hne Hl]. rewrite filter_cons. case_decide; [congruence|by apply IH].
Qed.

Lemma NoDup_fmap_filter_length {A B} `{EqDecision B} (f : A → B)
    (l : list A) (u : B) :
  NoDup (f <$> l) → (length (filter (λ x, f x = u) l) ≤ 1)%nat.
Proof.
  induction l as [|x l IH]; [simpl; lia|].
  rewrite fmap_cons, NoDup_cons, filter_cons. intros [Hx Hl].
  case_decide as E; [|by apply IH]. subst u.
  rewrite (filter_key_nil f l (f x) Hx). simpl. lia.
Qed.

Lemma require_pass {B} (P : Prop) `{Decision P} e (k : outcome B) :
  P → require P e ≫= (λ _, k) = k.
Proof. intros. unfold require. by case_decide. Qed.

Lemma extension_references d :
  consistent d →
  (∀ r, r ∈ patient_profiles d →
        patient_profiles.id r ∈ profiles.id <$> profiles d)
  ∧ (∀ r, r ∈ nurse_profiles d →
          nurse_profiles.id r ∈ profiles.id <$> profiles d).
Proof.
  intros Hd. split; intros r Hr; apply (fk_holds_Some d _ (Ptable Tprofiles)).
  - apply (fkeys_hold d Hd Tpatient_profiles r); [done|]. simpl. by left.
  - apply (fkeys_hold d Hd Tnurse_profiles r); [done|]. simpl. by left.
Qed.

(** C7. The two extension tables are keyed by the profile they extend: for
    any identity there is at most one patient_profiles row and at most one
    nurse_profiles row, and every such row references an existing profiles
    row. *)
Theorem profile_extensions_share_key c d :
  reachable c d →
  (∀ u, (length (filter (λ r, patient_profiles.id r = u) (patient_profiles d))
         ≤ 1)%nat)
  ∧ (∀ u, (length (filter (λ r, nurse_profiles.id r = u) (nurse_profiles d))
           ≤ 1)%nat)
  ∧ (∀ r, r ∈ patient_profiles d →
          patient_profiles.id r ∈ profiles.id <$> profiles d)
  ∧ (∀ r, r ∈ nurse_profiles d →
          nurse_profiles.id r ∈ profiles.id <$> profiles d).
Proof.
  intros Hd%reachable_consistent. split_and!.
  - intros u. apply NoDup_fmap_filter_length, (pkey_unique d Hd Tpatient_profiles).
  - intros u. apply NoDup_fmap_filter_length, (pkey_unique d Hd Tnurse_profiles).
  - by apply extension_references.
  - by apply extension_references.
Qed.

(** What stands between an identity and a row of its own in an extension
    table is the foreign key to profiles and the identity test of the INSERT
    policy; neither reads profiles.role.  Every patient_profiles and
    nurse_profiles row carries the id of an existing profiles row, and a
    signed-in identity that has a profiles row, of either role, and no row
    yet in the extension table inserts its own row there, in nurse_profiles
    and in patient_profiles alike. *)
Lemma profile_extension_references_profile c d :
  installed c → reachable c d →
  (∀ r, r ∈ patient_profiles d →
        ∃ p, p ∈ profiles d ∧ profiles.id p = patient_profiles.id r)
  ∧ (∀ r, r ∈ nurse_profiles d →
          ∃ p, p ∈ profiles d ∧ profiles.id p = nurse_profiles.id r)
  ∧ (∀ u p (r : row_of Tnurse_profiles),
       p ∈ profiles d → profiles.id p = u → nurse_profiles.id r = u →
       not_nulls Tnurse_profiles r → u ∉ keys Tnurse_profiles d →
       exec c (signed_in u) (Insert Tnurse_profiles r) d
       = Done (with_rows Tnurse_profiles (nurse_profiles d ++ [r]) d))
  ∧ (∀ u p (r : row_of Tpatient_profiles),
       p ∈ profiles d → profiles.id p = u → patient_profiles.id r = u →
       checks Tpatient_profiles r → u ∉ keys Tpatient_profiles d →
       exec c (signed_in u) (Insert Tpatient_profiles r) d
       = Done (with_rows Tpatient_profiles (patient_profiles d ++ [r]) d)).
Proof.
  intros Hc Hd. pose proof (reachable_consistent c d Hd) as Hcons.
  destruct (extension_references d Hcons) as (H1 & H2).
  split_and!.
  - intros r (p & -> & ?)%H1%list_elem_of_fmap. eauto.
  - intros r (p & -> & ?)%H2%list_elem_of_fmap. eauto.
  - intros u p r Hp Hpu Hru Hnn Hfresh. simpl.
    rewrite decide_True by (by apply installed_gated).
    rewrite require_pass
      by (apply Is_true_true; by apply allowed_insert_nurse_profiles).
    apply insert_Done. split; [|done]. apply constrain_Done. split_and!.
    + done.
    + done.
    + unfold keys in Hfresh. simpl in *. by rewrite Hru.
    + constructor.
    + apply Forall_cons. split; [|constructor].
      apply fk_holds_Some. simpl. rewrite Hru, <-Hpu.
      by apply list_elem_of_fmap_2.
  - intros u p r Hp Hpu Hru Hch Hfresh. simpl.
    rewrite decide_True by (by apply installed_gated).
    rewrite require_pass
      by (apply Is_true_true; by apply allowed_insert_patient_profiles).
    apply insert_Done. split; [|done]. apply constrain_Done. split_and!.
    + done.
    + done.
    + unfold keys in Hfresh. simpl in *. by rewrite Hru.
    + constructor.
    + apply Forall_cons. split; [|constructor].
      apply fk_holds_Some. simpl. rewrite Hru, <-Hpu.
      by apply list_elem_of_fmap_2.
Qed.

(** ** Deleting a profile *)

Lemma NoDup_fmap_eq {A B} (f : A → B) (l : list A) x y :
  NoDup (f <$> l) → x ∈ l → y ∈ l → f x = f y → x = y.
Proof.
  induction l as [|z l IH]; [by intros _ ?%elem_of_nil|].
  rewrite fmap_cons, NoDup_cons. intros [Hz Hl].
  rewrite !elem_of_cons. intros [->|Hx] [->|Hy] Hf; [done| | |by apply IH].
  - destruct Hz. rewrite Hf. by apply list_elem_of_fmap_2.
  - destruct Hz. rewrite <-Hf. by apply list_elem_of_fmap_2.
Qed.

Lemma delete_from_key_gone t i d (r : row_of t) :
  consistent d → r ∈ rows t (delete_from t i d) → pkey t r ≠ i.
Proof.
  intros Hd. unfold delete_from. case_decide as Hi.
  - intros Hr. destruct (cascade_shrunk cascade_depth (Ptable t) [i]
      (with_rows t (filter (λ r, pkey t r ≠ i) (rows t d)) d)) as [_ Hs].
    pose proof (elem_of_sublist _ _ _ Hr (Hs t)) as Hr'.
    rewrite rows_with_rows in Hr'. by apply list_elem_of_filter in Hr' as [? _].
  - intros Hr Heq. apply Hi. rewrite <-Heq. by apply list_elem_of_fmap_2.
Qed.

Lemma reference_exists d t (r : row_of t) u t' :
  consistent d → r ∈ rows t d → (Some u, Ptable t') ∈ refs t r →
  ∃ r' : row_of t', r' ∈ rows t' d ∧ pkey t' r' = u.
Proof.
  intros Hd Hr Href.
  pose proof (fkeys_hold d Hd t r _ Hr Href) as Hu%fk_holds_Some.
  apply list_elem_of_fmap in Hu as (r' & -> & ?). eauto.
Qed.

(** C6. Deleting the profiles row of [u] leaves no row that depends on it:
    no patient_profiles or nurse_profiles row with that id, no
    nurse_service_areas or nurse_slots row of that nurse, no booking of that
    patient, of that nurse or on one of that nurse's slots; and every
    reference that remains points to a row that exists. *)
Theorem delete_profile_cascades d u :
  consistent d →
  let d' := delete_from Tprofiles u d in
  (∀ p, p ∈ profiles d' → profiles.id p ≠ u)
  ∧ (∀ r, r ∈ patient_profiles d' → patient_profiles.id r ≠ u)
  ∧ (∀ r, r ∈ nurse_profiles d' → nurse_profiles.id r ≠ u)
  ∧ (∀ r, r ∈ nurse_service_areas d' → nurse_service_areas.nurse_id r ≠ Some u)
  ∧ (∀ r, r ∈ nurse_slots d' → nurse_slots.nurse_id r ≠ Some u)
  ∧ (∀ b, b ∈ bookings d' →
       bookings.patient_id b ≠ Some u
       ∧ bookings.nurse_id b ≠ Some u
       ∧ ∀ s, s ∈ nurse_slots d →
              bookings.slot_id b = Some (nurse_slots.id s) →
              nurse_slots.nurse_id s ≠ Some u)
  ∧ consistent d'.
Proof.
  intros Hd d'.
  pose proof (delete_from_consistent Tprofiles u d Hd) as Hd'. fold d' in Hd'.
  pose proof (delete_from_shrunk Tprofiles u d) as [_ Hsub]. fold d' in Hsub.
  assert (∀ p, p ∈ profiles d' → profiles.id p ≠ u) as H0.
  { intros p. by apply (delete_from_key_gone Tprofiles). }
  assert (∀ r, r ∈ patient_profiles d' → patient_profiles.id r ≠ u) as H1.
  { intros r Hr.
    destruct (reference_exists d' Tpatient_profiles r (patient_profiles.id r)
                Tprofiles Hd' Hr) as (p & Hp & <-); [simpl; by left|].
    by apply H0. }
  assert (∀ r, r ∈ nurse_profiles d' → nurse_profiles.id r ≠ u) as H2.
  { intros r Hr.
    destruct (reference_exists d' Tnurse_profiles r (nurse_profiles.id r)
                Tprofiles Hd' Hr) as (p & Hp & <-); [simpl; by left|].
    by apply H0. }
  assert (∀ r, r ∈ nurse_slots d' → nurse_slots.nurse_id r ≠ Some u) as H4.
  { intros r Hr Hn.
    destruct (reference_exists d' Tnurse_slots r u Tnurse_profiles Hd' Hr)
      as (p & Hp & Hpu); [simpl; rewrite Hn; by left|].
    by apply (H2 p). }
  split_and!; [done|done|done| |done| |done].
  - intros r Hr Hn.
    destruct (reference_exists d' Tnurse_service_areas r u Tnurse_profiles Hd' Hr)
      as (p & Hp & Hpu); [simpl; rewrite Hn; by left|].
    by apply (H2 p).
  - intros b Hb. split_and!.
    + intros Hn.
      destruct (reference_exists d' Tbookings b u Tpatient_profiles Hd' Hb)
        as (p & Hp & Hpu); [simpl; rewrite Hn; by left|].
      by apply (H1 p).
    + intros Hn.
      destruct (reference_exists d' Tbookings b u Tnurse_profiles Hd' Hb)
        as (p & Hp & Hpu); [simpl; rewrite Hn; right; by left|].
      by apply (H2 p).
    + intros s Hs Hslot Hn.
      destruct (reference_exists d' Tbookings b (nurse_slots.id s) Tnurse_slots
                  Hd' Hb) as (s' & Hs' & Hid);
        [simpl; rewrite Hslot; right; right; by left|].
      assert (s' = s) as ->.
      { apply (NoDup_fmap_eq nurse_slots.id (nurse_slots d));
          [apply (pkey_unique d Hd Tnurse_slots)| |done..].
        apply (elem_of_sublist _ _ _ Hs' (Hsub Tnurse_slots)). }
      by apply (H4 s).
Qed.

(** ** UNIQUE constraints *)






(** ** Who sees and writes what *)

Lemma visible_patient_profiles c d u (r : row_of Tpatient_profiles) :
  installed c →
  visible c d (signed_in u) Tpatient_profiles SELECT r = true
  ↔ patient_profiles.id r = u.
Proof.
  intros Hc. pose proof Hc as [Hp _]. unfold visible.
  rewrite permits_true, (installed_depth c Hc), Hp. split.
  - intros (p & q & Hin & Ha & Hq & He). revert Ha Hq.
    each_policy Hin; intros (Ht & Hk & Hr) Hq; try discriminate Ht;
      try (destruct Hk as [Hk|Hk]; discriminate Hk).
    injection Hq as <-. rewrite eval_uid_eq in He.
    change (view Tpatient_profiles r "id") with (VUuid (patient_profiles.id r)) in He.
    rewrite uid_eq_signed_in in He. injection He as He.
    by apply bool_decide_eq_true in He.
  - intros Hid.
    exists (policy "Patients can view their own profile" Tpatient_profiles
              SELECT authenticated (Some (Euid_eq "id")) None), (Euid_eq "id").
    split_and!; [in_script| |done|].
    + split_and!; [done|by left|by right].
    + rewrite eval_uid_eq.
      change (view Tpatient_profiles r "id") with (VUuid (patient_profiles.id r)).
      by rewrite uid_eq_signed_in, bool_decide_eq_true_2.
Qed.

(** C4. What a signed-in identity [u] reads from patient_profiles is exactly
    the rows whose id is [u]; the row of another identity is not among
    them. *)
Theorem patient_profiles_select_own c d u :
  installed c →
  select_from c (signed_in u) Tpatient_profiles d
  = filter (λ r, patient_profiles.id r = u) (patient_profiles d)
  ∧ ∀ r, r ∈ patient_profiles d → patient_profiles.id r ≠ u →
         r ∉ select_from c (signed_in u) Tpatient_profiles d.
Proof.
  intros Hc.
  assert (select_from c (signed_in u) Tpatient_profiles d
          = filter (λ r, patient_profiles.id r = u) (patient_profiles d)) as Heq.
  { unfold select_from. rewrite decide_True by (by apply installed_gated).
    apply list_filter_iff. intros r.
    rewrite Is_true_true. by apply visible_patient_profiles. }
  split; [done|]. intros r _ Hne. rewrite Heq, list_elem_of_filter. tauto.
Qed.

Lemma allowed_insert_bookings c d u (r : row_of Tbookings) :
  installed c →
  allowed c d (signed_in u) Tbookings INSERT r = true →
  bookings.patient_id r = Some u
  ∧ ∃ p, p ∈ profiles d ∧ profiles.id p = u ∧ profiles.role p = Some "patient".
Proof.
  intros Hc. pose proof Hc as [Hp _]. unfold allowed.
  rewrite permits_true, (installed_depth c Hc), Hp.
  intros (p & q & Hin & Ha & Hq & He). revert Ha Hq.
  each_policy Hin; intros (Ht & Hk & Hr) Hq; try discriminate Ht;
    try (destruct Hk as [Hk|Hk]; discriminate Hk).
  injection Hq as <-.
  rewrite eval_and, eval_uid_eq, eval_exists in He.
  apply tri_and_true in He as [Hpat Hex].
  change (view Tbookings r "patient_id")
    with (val VUuid (bookings.patient_id r)) in Hpat.
  apply uid_eq_true in Hpat as (u' & [= <-] & Hpat). split.
  { destruct (bookings.patient_id r); simpl in Hpat; congruence. }
  change (table_named "profiles") with (Some Tprofiles) in Hex.
  apply (inj Some) in Hex.
  apply existsb_exists in Hex as (x & Hx%list_elem_of_In & [_ Hrow]%andb_true_iff).
  apply holds_true in Hrow. rewrite eval_and, eval_uid_eq, eval_col_eq in Hrow.
  apply tri_and_true in Hrow as [Hid Hrole].
  change (view Tprofiles x "id") with (VUuid (profiles.id x)) in Hid.
  change (view Tprofiles x "role") with (val VText (profiles.role x)) in Hrole.
  rewrite uid_eq_signed_in in Hid. injection Hid as Hid%bool_decide_eq_true.
  apply text_eq_true in Hrole.
  exists x. split_and!; [done..|].
  destruct (profiles.role x); simpl in Hrole;
    [by injection Hrole as ->|discriminate Hrole].
Qed.

(** The policy on bookings does let a patient in: evaluation does not run
    out of depth on the way. *)
Lemma allowed_insert_bookings_patient c d u (r : row_of Tbookings) p :
  installed c →
  bookings.patient_id r = Some u →
  p ∈ profiles d → profiles.id p = u → profiles.role p = Some "patient" →
  allowed c d (signed_in u) Tbookings INSERT r = true.
Proof.
  intros Hc Hpat Hp Hid Hrole. pose proof Hc as [Hpol _]. apply permits_true.
  eexists (policy "Patients can create bookings" Tbookings INSERT
             authenticated None _), _.
  split_and!; [rewrite Hpol; in_script| |reflexivity|].
  { split_and!; [done|by left|by right]. }
  rewrite (installed_depth c Hc), eval_and, eval_uid_eq, eval_exists.
  apply tri_and_true. split.
  - change (view Tbookings r "patient_id")
      with (val VUuid (bookings.patient_id r)).
    rewrite Hpat. simpl. by rewrite uid_eq_signed_in, bool_decide_eq_true_2.
  - change (table_named "profiles") with (Some Tprofiles). f_equal.
    apply existsb_exists. exists p. split; [by apply list_elem_of_In|].
    apply andb_true_iff. split.
    + apply orb_true_iff. right. apply permits_true.
      exists (policy "Users can view their own profile" Tprofiles SELECT
                authenticated (Some (Euid_eq "id")) None), (Euid_eq "id").
      split_and!; [rewrite Hpol; in_script| |done|].
      * split_and!; [done|by left|by right].
      * rewrite eval_uid_eq.
        change (view Tprofiles p "id") with (VUuid (profiles.id p)).
        by rewrite uid_eq_signed_in, bool_decide_eq_true_2.
    + apply holds_true. rewrite eval_and, eval_uid_eq, eval_col_eq.
      apply tri_and_true. split.
      * change (view Tprofiles p "id") with (VUuid (profiles.id p)).
        by rewrite uid_eq_signed_in, bool_decide_eq_true_2.
      * change (view Tprofiles p "role") with (val VText (profiles.role p)).
        by rewrite Hrole.
Qed.

(** C3. An INSERT into bookings by the signed-in identity [u] succeeds only
    if the row names [u] as its patient and profiles holds a row for [u]
    with role 'patient'; for an identity whose profiles row has role 'nurse'
    the INSERT fails. *)
Theorem bookings_insert_by_patient_only c d u (r : row_of Tbookings) :
  installed c → reachable c d →
  (∀ d', exec c (signed_in u) (Insert Tbookings r) d = Done d' →
         bookings.patient_id r = Some u
         ∧ ∃ p, p ∈ profiles d ∧ profiles.id p = u
                ∧ profiles.role p = Some "patient")
  ∧ (∀ p, p ∈ profiles d → profiles.id p = u →
          profiles.role p = Some "nurse" →
          ∃ e, exec c (signed_in u) (Insert Tbookings r) d = Fail e).
Proof.
  intros Hc Hd.
  assert (∀ d', exec c (signed_in u) (Insert Tbookings r) d = Done d' →
            bookings.patient_id r = Some u
            ∧ ∃ p, p ∈ profiles d ∧ profiles.id p = u
                   ∧ profiles.role p = Some "patient") as Honly.
  { intros d' [_ Ha]%exec_Insert_Done.
    apply (allowed_insert_bookings c d u r Hc), Ha. by apply installed_gated. }
  split; [done|]. intros p Hp Hid Hrole. apply not_Done_Fail. intros d' He.
  destruct (Honly d' He) as (_ & p' & Hp' & Hid' & Hrole').
  assert (p' = p) as ->.
  { apply (NoDup_fmap_eq profiles.id (profiles d)); [|done|done|congruence].
    apply (pkey_unique d (reachable_consistent c d Hd) Tprofiles). }
  congruence.
Qed.

Lemma filter_all {A} (P : A → Prop) `{∀ x, Decision (P x)} (l : list A) :
  (∀ x, x ∈ l → P x) → filter P l = l.
Proof.
  induction l as [|x l IH]; [done|]. intros Hall.
  rewrite filter_cons_True by (apply Hall; by left).
  f_equal. apply IH. intros y ?. apply Hall. by right.
Qed.

Lemma filter_none {A} (P : A → Prop) `{∀ x, Decision (P x)} (l : list A) :
  (∀ x, x ∈ l → ¬ P x) → filter P l = [].
Proof.
  induction l as [|x l IH]; [done|]. intros Hall.
  rewrite filter_cons_False by (apply Hall; by left).
  apply IH. intros y ?. apply Hall. by right.
Qed.

(** service_areas has one policy, for SELECT, open to every role. *)
Lemma visible_service_areas c d who (r : row_of Tservice_areas) :
  installed c → visible c d who Tservice_areas SELECT r = true.
Proof.
  intros Hc. pose proof Hc as [Hp _]. apply permits_true.
  exists (policy "Public can view service areas" Tservice_areas SELECT
            to_public (Some Etrue) None), Etrue.
  split_and!; [rewrite Hp; in_script| |done|].
  - split_and!; [done|by left|by left].
  - by rewrite (installed_depth c Hc).
Qed.

Lemma no_write_policy_service_areas ev c who k sel (r : row_of Tservice_areas) :
  installed c → k ≠ SELECT →
  permits ev c who Tservice_areas k sel r = false.
Proof.
  intros [Hp _] Hk. apply not_true_is_false. rewrite permits_true, Hp.
  intros (p & q & Hin & Ha & _). revert Ha.
  each_policy Hin; intros (Ht & Hc & _); try discriminate Ht.
  destruct Hc as [Hc|Hc]; [by apply Hk|discriminate Hc].
Qed.

(** C8. Everyone reads all of service_areas.  The table has no policy for
    writing, so every INSERT, UPDATE and DELETE on it from a caller subject
    to row-level security is rejected: the INSERT fails, the UPDATE and the
    DELETE find no row they may touch and change nothing. *)
Theorem service_areas_read_only c d who :
  installed c →
  select_from c who Tservice_areas d = service_areas d
  ∧ (∀ p, p ∈ policies c → pg_policies.tablename p = "service_areas" →
          pg_policies.cmd p = SELECT)
  ∧ (bypassrls who = false →
     (∀ s, target s = Tservice_areas → rejected c who s d)
     ∧ (∀ r, exec c who (Insert Tservice_areas r) d = Fail insufficient_privilege)
     ∧ (∀ i f, exec c who (Update Tservice_areas i f) d = Done d)
     ∧ (∀ i, exec c who (Delete Tservice_areas i) d = Done d)).
Proof.
  intros Hc. split_and!.
  - unfold select_from. case_decide; [|done].
    apply filter_all. intros r _. apply Is_true_true.
    by apply visible_service_areas.
  - destruct Hc as [-> _]. intros p Hin.
    each_policy Hin; intros Ht; (discriminate Ht || reflexivity).
  - intros Hwho. pose proof (installed_gated c who Tservice_areas Hc Hwho) as Hg.
    assert (∀ r, exec c who (Insert Tservice_areas r) d
                 = Fail insufficient_privilege) as Hins.
    { intros r. simpl. rewrite decide_True by done.
      apply require_bind_Fail. unfold allowed.
      rewrite no_write_policy_service_areas by done. by intros []. }
    assert (∀ i f, exec c who (Update Tservice_areas i f) d = Done d) as Hupd.
    { intros i f. simpl. rewrite decide_True by done.
      destruct (list_find _ _) as [[n old]|]; [|done].
      unfold visible at 2.
      rewrite no_write_policy_service_areas by done. by rewrite andb_false_r. }
    assert (∀ i, exec c who (Delete Tservice_areas i) d = Done d) as Hdel.
    { intros i. simpl. rewrite decide_True by done.
      destruct (list_find _ _) as [[n old]|]; [|done].
      unfold visible at 2.
      rewrite no_write_policy_service_areas by done. by rewrite andb_false_r. }
    split_and!; [|done..].
    intros [t r|t i f|t i] Ht d'; simpl in Ht; subst t.
    + by rewrite Hins.
    + rewrite Hupd. by intros [= <-].
    + rewrite Hdel. by intros [= <-].
Qed.

(** ** The migration *)

(** *** Dropping the policies *)

Lemma drop_policies_loop l : ∀ c,
  tables (foldl (λ acc pol,
                   drop_policy_if_exists (pg_policies.policyname pol)
                     (pg_policies.tablename pol) acc) c l) = tables c
  ∧ ∀ p, p ∈ policies
               (foldl (λ acc pol,
                         drop_policy_if_exists (pg_policies.policyname pol)
                           (pg_policies.tablename pol) acc) c l) →
         p ∈ policies c ∧ p ∉ l.
Proof.
  induction l as [|q l IH]; intros c; simpl.
  - split; [done|]. intros p ?. split; [done|apply not_elem_of_nil].
  - destruct (IH (drop_policy_if_exists (pg_policies.policyname q)
                    (pg_policies.tablename q) c)) as [Ht Hp].
    split; [by rewrite Ht|]. intros p [Hin Hl]%Hp. simpl in Hin.
    apply list_elem_of_filter in Hin as [Hne Hin]. split; [done|].
    apply not_elem_of_cons. split; [|done]. intros ->. by apply Hne.
Qed.

Lemma drop_all_policies_spec c :
  drop_all_policies c = {| tables := tables c; policies := [] |}.
Proof.
  unfold drop_all_policies.
  destruct (drop_policies_loop (policies c) c) as [Ht Hp].
  destruct (foldl _ c (policies c)) as [T P]; simpl in *. f_equal; [done|].
  destruct P as [|p P]; [done|]. destruct (Hp p) as [? ?]; [by left|done].
Qed.

(** *** Dropping the tables *)

Lemma detach_tablename x e :
  pg_tables.tablename (detach x e) = pg_tables.tablename e.
Proof. unfold detach. by case_decide. Qed.

Lemma detach_fkeys x e :
  pg_tables.fkeys (detach x e) = filter (λ y, y ≠ x) (pg_tables.fkeys e).
Proof.
  unfold detach. case_decide as Hx; [done|]. symmetry. apply filter_all.
  intros y Hy ->. done.
Qed.

Lemma detach_clean x e : x ∉ pg_tables.fkeys e → detach x e = e.
Proof. intros. unfold detach. by case_decide. Qed.

Lemma elem_of_without_table x l e' :
  e' ∈ without_table x l ↔
    ∃ e, e' = detach x e ∧ e ∈ l ∧ pg_tables.tablename e ≠ x.
Proof.
  unfold without_table. rewrite list_elem_of_fmap.
  setoid_rewrite list_elem_of_filter. split.
  - intros (e & ? & ? & ?). by exists e.
  - intros (e & ? & ? & ?). by exists e.
Qed.

Lemma without_table_clean_of x l : clean_of x (without_table x l).
Proof.
  intros e' (e & -> & _ & Hne)%elem_of_without_table.
  rewrite detach_tablename, detach_fkeys, list_elem_of_filter. tauto.
Qed.

Lemma without_table_id x l : clean_of x l → without_table x l = l.
Proof.
  intros Hc. unfold without_table. rewrite filter_all by (intros e; apply Hc).
  rewrite <-(list_fmap_id l) at 2. apply list_fmap_ext.
  intros i e He%list_elem_of_lookup_2. apply detach_clean, Hc, He.
Qed.

Lemma without_table_keeps_clean x y l :
  clean_of x l → clean_of x (without_table y l).
Proof.
  intros Hc e' (e & -> & He & _)%elem_of_without_table.
  destruct (Hc e He) as [Hn Hf].
  rewrite detach_tablename, detach_fkeys, list_elem_of_filter. tauto.
Qed.

Lemma tables_wf_alt l :
  tables_wf l ↔
    ∀ e x, e ∈ l → x ∈ pg_tables.fkeys e → x ∈ pg_tables.tablename <$> l.
Proof.
  unfold tables_wf. rewrite Forall_forall. setoid_rewrite Forall_forall.
  naive_solver.
Qed.

Lemma without_table_wf x l : tables_wf l → tables_wf (without_table x l).
Proof.
  rewrite !tables_wf_alt. intros Hwf e' y (e & -> & He & Hne)%elem_of_without_table.
  rewrite detach_fkeys, list_elem_of_filter. intros [Hy Hin].
  apply (Hwf e y He), list_elem_of_fmap in Hin as (e2 & -> & He2).
  apply list_elem_of_fmap. exists (detach x e2).
  rewrite detach_tablename. split; [done|].
  apply elem_of_without_table. eauto.
Qed.

(** In a well-formed catalog, dropping a table that does not exist is the
    same removal, of nothing. *)
Lemma absent_clean_of x l :
  tables_wf l → x ∉ pg_tables.tablename <$> l → clean_of x l.
Proof.
  rewrite tables_wf_alt. intros Hwf Hx e He. split.
  - intros <-. apply Hx. by apply list_elem_of_fmap_2.
  - intros Hin. apply Hx. by eapply Hwf.
Qed.

Lemma drop_table_tables x s :
  catalog_wf (cat s) →
  tables (cat (drop_table_if_exists_cascade x s))
  = without_table x (tables (cat s)).
Proof.
  intros Hwf. unfold drop_table_if_exists_cascade. case_decide as Hx; [done|].
  symmetry. by apply without_table_id, absent_clean_of.
Qed.

Lemma drop_table_policies x s :
  policies (cat s) = [] →
  policies (cat (drop_table_if_exists_cascade x s)) = [].
Proof.
  intros Hp. unfold drop_table_if_exists_cascade. case_decide; [|done].
  simpl. by rewrite Hp.
Qed.

Lemma drop_table_users x s :
  auth_users (data (drop_table_if_exists_cascade x s)) = auth_users (data s).
Proof.
  unfold drop_table_if_exists_cascade. case_decide; [|done]. simpl.
  destruct (table_named x); [apply auth_users_with_rows|done].
Qed.

Lemma clean_of_names x l : clean_of x l → x ∉ pg_tables.tablename <$> l.
Proof. intros Hc (e & -> & He)%list_elem_of_fmap. by destruct (Hc e He). Qed.

Lemma emptied_clean_of t l : clean_of (table_name t) (emptied l).
Proof.
  unfold emptied, drop_order. cbn [foldl].
  destruct t;
    repeat first [apply without_table_clean_of|apply without_table_keeps_clean].
Qed.

Lemma emptied_wf l : tables_wf l → tables_wf (emptied l).
Proof.
  unfold emptied. revert l.
  induction drop_order as [|t ts IH]; intros l Hl; [done|].
  cbn [foldl]. by apply IH, without_table_wf.
Qed.

Lemma run_all_app l k s :
  run_all (l ++ k) s = run_all l s ≫= run_all k.
Proof.
  revert s. induction l as [|st l IH]; intros s; [done|].
  simpl. destruct (st s) as [s'|]; [apply IH|done].
Qed.

Lemma run_all_cons st k s : run_all (st :: k) s = st s ≫= run_all k.
Proof. done. Qed.

Lemma drops_run ts : ∀ s,
  catalog_wf (cat s) → policies (cat s) = [] →
  ∃ s', run_all (drop_table_step <$> ts) s = Some s'
        ∧ tables (cat s')
          = foldl (λ acc t, without_table (table_name t) acc) (tables (cat s)) ts
        ∧ policies (cat s') = []
        ∧ auth_users (data s') = auth_users (data s).
Proof.
  induction ts as [|t ts IH]; intros s Hwf Hp.
  - by exists s.
  - rewrite fmap_cons, run_all_cons. unfold drop_table_step at 1. simpl.
    destruct (IH (drop_table_if_exists_cascade (table_name t) s))
      as (s' & Hrun & Ht & Hp' & Hu).
    + unfold catalog_wf. rewrite drop_table_tables by done.
      by apply without_table_wf.
    + by apply drop_table_policies.
    + exists s'. split_and!; [done| |done|].
      * by rewrite Ht, drop_table_tables.
      * by rewrite Hu, drop_table_users.
Qed.

(** *** Creating the tables *)

Lemma create_table_fresh t s :
  table_name t ∉ table_names (cat s) →
  Forall (λ x, table_name x ∈ table_names (cat s)) (fk_targets t) →
  create_table_if_not_exists t s
  = Some {| cat := {| tables := tables (cat s) ++ [created t];
                      policies := policies (cat s) |};
            data := with_rows t [] (data s) |}.
Proof.
  intros Hn Hf. unfold create_table_if_not_exists.
  by rewrite decide_False, decide_True.
Qed.

Lemma creates_run ts : ∀ s,
  creatable (table_names (cat s)) ts →
  run_all (create_table_if_not_exists <$> ts) s
  = Some {| cat := {| tables := tables (cat s) ++ (created <$> ts);
                      policies := policies (cat s) |};
            data := foldl (λ d t, with_rows t [] d) (data s) ts |}.
Proof.
  induction ts as [|t ts IH]; intros s.
  - intros _. simpl. rewrite app_nil_r. by destruct s as [[??]?].
  - intros (Hn & Hf & Hrest). rewrite fmap_cons, run_all_cons.
    rewrite create_table_fresh by done. simpl. rewrite IH.
    + simpl. by rewrite <-app_assoc.
    + simpl. unfold table_names. simpl. by rewrite fmap_app.
Qed.

Lemma creatable_create_order names :
  (∀ t, table_name t ∉ names) → creatable names create_order.
Proof.
  intros H.
  pose proof (H Tprofiles). pose proof (H Tservice_areas).
  pose proof (H Tpatient_profiles). pose proof (H Tnurse_profiles).
  pose proof (H Tnurse_service_areas). pose proof (H Tnurse_slots).
  pose proof (H Tbookings). clear H. simpl in *.
  repeat split; rewrite ?Forall_cons, ?Forall_nil; repeat split;
    rewrite ?elem_of_app, ?elem_of_cons, ?elem_of_nil;
    first [ tauto | intros ?; intuition discriminate ].
Qed.

Lemma emptied_all_rows d :
  foldl (λ d t, with_rows t [] d) d create_order = no_rows (auth_users d).
Proof. by destruct d. Qed.

(** *** Enabling row-level security *)

Lemma secured_secured e : secured (secured e) = secured e.
Proof. done. Qed.

Lemma enable_loop l : ∀ c,
  foldl (λ acc tbl, enable_row_level_security tbl acc) c l
  = {| tables :=
         (λ e, if decide (pg_tables.tablename e ∈ l) then secured e else e)
           <$> tables c;
       policies := policies c |}.
Proof.
  induction l as [|x l IH]; intros c; cbn [foldl].
  - destruct c as [T P]; cbn [tables policies]. f_equal.
    rewrite <-(list_fmap_id T) at 1.
    apply list_fmap_ext. intros i e _. case_decide as Hin; [|done].
    by apply elem_of_nil in Hin.
  - rewrite IH. cbn [tables policies enable_row_level_security]. f_equal.
    rewrite <-list_fmap_compose.
    apply list_fmap_ext. intros i e _. cbn [compose].
    destruct (decide (pg_tables.tablename e = x)) as [<-|Hne];
      repeat case_decide; try done.
    all: exfalso; rewrite elem_of_cons in *; tauto.
Qed.

Lemma enable_all_spec c :
  enable_all c = {| tables := secured <$> tables c; policies := policies c |}.
Proof.
  unfold enable_all. rewrite enable_loop. f_equal.
  apply list_fmap_ext. intros i e He%list_elem_of_lookup_2.
  rewrite decide_True; [done|]. by apply list_elem_of_fmap_2.
Qed.

(** *** Creating the policies *)

Lemma create_policy_fresh p c :
  Forall (λ x, x ∈ table_names c) (pg_policies.depends p) →
  policy_key p ∉ policy_key <$> policies c →
  create_policy p c = Some {| tables := tables c; policies := policies c ++ [p] |}.
Proof.
  intros Hd Hk. unfold create_policy. rewrite decide_True; [done|].
  split; [done|]. apply Forall_forall. intros q Hq [Hn Ht]. apply Hk.
  apply list_elem_of_fmap. exists q. split; [|done].
  unfold policy_key. by rewrite Hn, Ht.
Qed.

Lemma create_policy_step_fresh p s :
  Forall (λ x, x ∈ table_names (cat s)) (pg_policies.depends p) →
  policy_key p ∉ policy_key <$> policies (cat s) →
  create_policy_step p s
  = Some {| cat := {| tables := tables (cat s);
                      policies := policies (cat s) ++ [p] |};
            data := data s |}.
Proof.
  intros Hd Hk. unfold create_policy_step. by rewrite create_policy_fresh.
Qed.

Lemma policies_run ps : ∀ s,
  Forall (λ p, Forall (λ x, x ∈ table_names (cat s)) (pg_policies.depends p)) ps →
  NoDup (policy_key <$> (policies (cat s) ++ ps)) →
  run_all (create_policy_step <$> ps) s
  = Some {| cat := {| tables := tables (cat s);
                      policies := policies (cat s) ++ ps |};
            data := data s |}.
Proof.
  induction ps as [|p ps IH]; intros s Hdep Hnd.
  - simpl. rewrite app_nil_r. by destruct s as [[??]?].
  - apply Forall_cons in Hdep as [Hp Hps].
    rewrite fmap_cons, run_all_cons, create_policy_step_fresh; [|done|].
    + cbn [mbind option_bind]. rewrite IH; cbn [cat data tables policies].
      * by rewrite <-app_assoc.
      * done.
      * by rewrite <-app_assoc.
    + rewrite fmap_app, fmap_cons in Hnd.
      apply NoDup_app in Hnd as (_ & Hnd & _).
      intros Hin. apply (Hnd _ Hin). by left.
Qed.

Lemma script_policies_keys : NoDup (policy_key <$> script_policies).
Proof. apply (bool_decide_unpack _). vm_compute. exact I. Qed.

Lemma script_policies_depends :
  Forall (λ p, Forall (λ x, x ∈ table_name <$> all_tables) (pg_policies.depends p))
         script_policies.
Proof. apply (bool_decide_unpack _). vm_compute. exact I. Qed.

(** *** The schema part as a whole *)

Lemma secured_names (l : list pg_tables.row) :
  pg_tables.tablename <$> (secured <$> l) = pg_tables.tablename <$> l.
Proof. rewrite <-list_fmap_compose. by apply list_fmap_ext. Qed.

Lemma schema_steps_run s :
  catalog_wf (cat s) →
  run_all schema_steps s
  = Some {| cat := schema_catalog (cat s);
            data := no_rows (auth_users (data s)) |}.
Proof.
  intros Hwf. unfold schema_steps.
  rewrite run_all_app. cbn [run_all on_catalog mbind option_bind].
  rewrite drop_all_policies_spec.
  destruct (drops_run drop_order
              {| cat := {| tables := tables (cat s); policies := [] |};
                 data := data s |}) as (s1 & Hrun & Ht & Hp & Hu); [done..|].
  rewrite run_all_app, Hrun. cbn [mbind option_bind].
  rewrite run_all_app, creates_run.
  2:{ apply creatable_create_order. intros t. unfold table_names. rewrite Ht.
      apply clean_of_names, (emptied_clean_of t). }
  cbn [mbind option_bind]. rewrite run_all_app.
  cbn [run_all on_catalog mbind option_bind cat data].
  rewrite enable_all_spec. cbn [tables policies]. rewrite policies_run.
  - cbn [cat data tables policies]. rewrite Hp, emptied_all_rows, Hu, Ht. done.
  - cbn [cat tables]. unfold table_names. cbn [tables].
    rewrite secured_names, fmap_app.
    eapply Forall_impl; [apply script_policies_depends|].
    intros p Hp'. eapply Forall_impl; [exact Hp'|]. intros x Hx. simpl in Hx.
    apply elem_of_app. right. exact Hx.
  - cbn [cat policies]. rewrite Hp. apply script_policies_keys.
Qed.

(** *** Running the schema part on its own result *)

Lemma without_table_app x l k :
  without_table x (l ++ k) = without_table x l ++ without_table x k.
Proof. unfold without_table. by rewrite filter_app, fmap_app. Qed.

Lemma detach_secured x e : detach x (secured e) = secured (detach x e).
Proof. unfold detach. simpl. by case_decide. Qed.

Lemma without_table_secured x l :
  without_table x (secured <$> l) = secured <$> without_table x l.
Proof.
  unfold without_table. induction l as [|e l IH]; [done|].
  rewrite fmap_cons, !filter_cons. simpl.
  case_decide; [|done]. rewrite !fmap_cons, IH. f_equal. apply detach_secured.
Qed.

Lemma emptied_app l k : emptied (l ++ k) = emptied l ++ emptied k.
Proof.
  unfold emptied. revert l k.
  induction drop_order as [|t ts IH]; intros l k; [done|].
  cbn [foldl]. by rewrite without_table_app, IH.
Qed.

Lemma emptied_secured l : emptied (secured <$> l) = secured <$> emptied l.
Proof.
  unfold emptied. revert l.
  induction drop_order as [|t ts IH]; intros l; [done|].
  cbn [foldl]. by rewrite without_table_secured, IH.
Qed.

Lemma emptied_id l : (∀ t, clean_of (table_name t) l) → emptied l = l.
Proof.
  intros Hc. unfold emptied.
  induction drop_order as [|t ts IH]; [done|].
  cbn [foldl]. by rewrite without_table_id.
Qed.

Lemma emptied_emptied l : emptied (emptied l) = emptied l.
Proof. apply emptied_id. intros t. apply emptied_clean_of. Qed.

Lemma emptied_created : emptied (created <$> create_order) = [].
Proof. reflexivity. Qed.

Lemma schema_catalog_again c :
  schema_catalog (schema_catalog c) = schema_catalog c.
Proof.
  unfold schema_catalog. cbn [tables]. f_equal.
  rewrite emptied_secured, emptied_app, emptied_emptied, emptied_created.
  rewrite app_nil_r, !fmap_app. f_equal.
  rewrite <-list_fmap_compose. by apply list_fmap_ext.
Qed.

Lemma tables_wf_app l k : tables_wf l → tables_wf k → tables_wf (l ++ k).
Proof.
  rewrite !tables_wf_alt. intros Hl Hk e x [He|He]%elem_of_app Hx;
    rewrite fmap_app, elem_of_app; [left|right]; eauto.
Qed.

Lemma tables_wf_secured l : tables_wf l → tables_wf (secured <$> l).
Proof.
  rewrite !tables_wf_alt. intros Hl e' x (e & -> & He)%list_elem_of_fmap Hx.
  rewrite secured_names. by eapply Hl.
Qed.

Lemma created_wf : tables_wf (created <$> create_order).
Proof. apply (bool_decide_unpack _). vm_compute. exact I. Qed.

Lemma schema_catalog_wf c : catalog_wf c → catalog_wf (schema_catalog c).
Proof.
  intros Hwf. apply tables_wf_secured, tables_wf_app;
    [by apply emptied_wf|apply created_wf].
Qed.

Lemma insert_ocdn_fresh t r d :
  not_nulls t r → checks t r → pkey t r ∉ keys t d →
  Forall (λ k, key_free (k r) (k <$> rows t d)) (uniques t) →
  insert_on_conflict_do_nothing t r d
  = if decide (Forall (fk_holds d) (refs t r))
    then Done (with_rows t (rows t d ++ [r]) d)
    else Fail foreign_key_violation.
Proof.
  intros Hn Hc Hk Hu. unfold insert_on_conflict_do_nothing.
  rewrite !require_pass by done. rewrite decide_False by done.
  unfold insert_into, constrain. rewrite !require_pass by done.
  unfold require. by case_decide.
Qed.

Ltac by_computation := apply (bool_decide_unpack _); vm_compute; exact I.

Lemma fk_auth_users d u :
  Forall (fk_holds d) [(Some u, Pauth_users)] ↔ u ∈ auth_users d.
Proof.
  rewrite Forall_cons, fk_holds_Some. simpl. split; [tauto|].
  intros. split; [done|constructor].
Qed.

Lemma insert_test_data_fresh now us :
  insert_test_data now (no_rows us)
  = if decide (test_patient_id ∈ us ∧ test_nurse_id ∈ us)
    then Done (test_data now us)
    else Fail foreign_key_violation.
Proof.
  unfold insert_test_data.
  rewrite insert_ocdn_fresh;
    [|by_computation|by_computation|apply not_elem_of_nil|constructor].
  destruct (decide (test_patient_id ∈ us)) as [Hp|Hp].
  2:{ rewrite decide_False by (cbn [refs]; by rewrite fk_auth_users).
      rewrite decide_False by tauto. done. }
  rewrite decide_True by (cbn [refs]; by rewrite fk_auth_users). cbn [mbind outcome_bind].
  rewrite insert_ocdn_fresh;
    [|by_computation|by_computation|by_computation|constructor].
  destruct (decide (test_nurse_id ∈ us)) as [Hn|Hn].
  2:{ rewrite decide_False by (cbn [refs]; by rewrite fk_auth_users).
      rewrite decide_False by tauto. done. }
  rewrite decide_True by (cbn [refs]; by rewrite fk_auth_users). cbn [mbind outcome_bind].
  rewrite insert_ocdn_fresh;
    [|by_computation|by_computation|apply not_elem_of_nil|constructor].
  rewrite decide_True by by_computation. cbn [mbind outcome_bind].
  rewrite insert_ocdn_fresh;
    [|by_computation|by_computation|apply not_elem_of_nil|constructor].
  rewrite decide_True by by_computation.
  rewrite decide_True by done. done.
Qed.

Lemma run_each_app l k s : run_each (l ++ k) s = run_each k (run_each l s).
Proof. unfold run_each. by rewrite foldl_app. Qed.

Lemma run_all_each l s s' : run_all l s = Some s' → run_each l s = s'.
Proof.
  revert s. induction l as [|st l IH]; intros s; simpl; [by intros [= <-]|].
  unfold run_each. cbn [foldl]. destruct (st s) as [s1|]; [|done].
  simpl. apply IH.
Qed.

Lemma migrate_atomic now s :
  catalog_wf (cat s) →
  migrate true now s
  = if decide (test_users s)
    then {| cat := schema_catalog (cat s);
            data := test_data now (auth_users (data s)) |}
    else s.
Proof.
  intros Hwf. unfold migrate, run_atomic, script.
  rewrite run_all_app, schema_steps_run by done.
  cbn [mbind option_bind run_all]. unfold insert_test_data_step. cbn [cat data].
  rewrite insert_test_data_fresh. unfold test_users. by case_decide.
Qed.

Lemma migrate_each now s :
  catalog_wf (cat s) →
  migrate false now s
  = {| cat := schema_catalog (cat s);
       data := if decide (test_users s)
               then test_data now (auth_users (data s))
               else no_rows (auth_users (data s)) |}.
Proof.
  intros Hwf. unfold migrate, script.
  rewrite run_each_app, (run_all_each _ _ _ (schema_steps_run s Hwf)).
  unfold run_each. cbn [foldl]. unfold insert_test_data_step. cbn [cat data].
  rewrite insert_test_data_fresh. unfold test_users. by case_decide.
Qed.

(** C5. Applied to any catalog (in which foreign keys reference tables that
    exist), the migration applied a second time leaves the tables and the
    policies exactly as the first application left them, whether the runner
    wraps the script in a transaction or not, and whatever the clock says. *)
Theorem migrate_twice atomic now now' s :
  catalog_wf (cat s) →
  cat (migrate atomic now' (migrate atomic now s)) = cat (migrate atomic now s).
Proof.
  intros Hwf. destruct atomic.
  - rewrite (migrate_atomic now s Hwf).
    destruct (decide (test_users s)) as [Hu|Hu].
    + rewrite migrate_atomic by (by apply schema_catalog_wf).
      rewrite decide_True by done. cbn [cat]. apply schema_catalog_again.
    + rewrite migrate_atomic by done. by rewrite decide_False.
  - rewrite (migrate_each now s Hwf).
    rewrite migrate_each by (by apply schema_catalog_wf).
    cbn [cat]. apply schema_catalog_again.
Qed.

(** ** The language toggle *)

Lemma toggleLanguage_en : toggleLanguage "en" = "ta".
Proof. reflexivity. Qed.

Lemma toggleLanguage_ta : toggleLanguage "ta" = "en".
Proof. reflexivity. Qed.

Lemma content_other en ta l k :
  k ≠ "nav" → content en ta l !! k = locale en ta l !! k.
Proof. intros Hk. unfold content. by rewrite lookup_insert_ne. Qed.

Lemma content_nav en ta l :
  content en ta l !! "nav"
  = Some (JObj (<["language" := JStr l]> (spread (locale en ta l !! "nav")))).
Proof. unfold content. by rewrite lookup_insert_eq. Qed.

(** C10 (as the code has it). On the two languages the toggle is an
    involution of the state of App and switches to the other language; the
    content shown takes every property from the locale of the current
    language, en for 'en' and ta for 'ta', except for nav.language, which is
    the language code itself. *)
Theorem language_toggle en ta st :
  language st = "en" ∨ language st = "ta" →
  on_toggleLanguage (on_toggleLanguage st) = st
  ∧ (language st = "en" → language (on_toggleLanguage st) = "ta")
  ∧ (language st = "ta" → language (on_toggleLanguage st) = "en")
  ∧ (language st = "en" → locale en ta (language st) = en)
  ∧ (language st = "ta" → locale en ta (language st) = ta)
  ∧ (∀ k, k ≠ "nav" →
          content en ta (language st) !! k = locale en ta (language st) !! k)
  ∧ (∀ k, k ≠ "language" →
          spread (content en ta (language st) !! "nav") !! k
          = spread (locale en ta (language st) !! "nav") !! k)
  ∧ spread (content en ta (language st) !! "nav") !! "language"
    = Some (JStr (language st)).
Proof.
  intros Hl. split_and!.
  - destruct st as [l m]; simpl in *. unfold on_toggleLanguage; simpl.
    by destruct Hl as [->| ->].
  - intros H. simpl. by rewrite H.
  - intros H. simpl. by rewrite H.
  - intros H. by rewrite H.
  - intros H. by rewrite H.
  - intros k. apply content_other.
  - intros k Hk. rewrite content_nav. simpl. by rewrite lookup_insert_ne.
  - rewrite content_nav. simpl. by rewrite lookup_insert_eq.
Qed.

(** ** The migration installs the policies *)

Lemma schema_catalog_installed c : installed (schema_catalog c).
Proof.
  split; [done|]. intros t. unfold rls_enabled. apply Exists_exists.
  exists (secured (created t)). split; [|done].
  unfold schema_catalog. cbn [tables].
  apply list_elem_of_fmap_2, elem_of_app. right.
  destruct t; unfold create_order; rewrite !fmap_cons, !elem_of_cons; tauto.
Qed.

(** After the migration, a server whose catalog was well-formed carries the
    policies of the script, unless a transaction was rolled back for want of
    the test identities. *)
Lemma migrate_installed atomic now s :
  catalog_wf (cat s) → atomic = false ∨ test_users s →
  installed (cat (migrate atomic now s)).
Proof.
  intros Hwf Hok. destruct atomic.
  - destruct Hok as [?|Hu]; [done|].
    rewrite migrate_atomic, decide_True by done. apply schema_catalog_installed.
  - rewrite migrate_each by done. apply schema_catalog_installed.
Qed.

(** ** The sample data *)

Lemma demo_installed : installed (cat demo).
Proof.
  apply migrate_installed; [by_computation|right; by_computation].
Qed.

Lemma demo_reachable : reachable (cat demo) (data demo).
Proof.
  apply (reachable_replay (cat demo)
           [ (postgres, Insert Tprofiles
                (test_profile test_patient_id "patient" "Test Patient" 0));
             (postgres, Insert Tprofiles
                (test_profile test_nurse_id "nurse" "Test Nurse" 0));
             (postgres, Insert Tpatient_profiles (test_patient_profile 0));
             (postgres, Insert Tnurse_profiles (test_nurse_profile 0)) ]
           (no_rows [test_patient_id; test_nurse_id])).
  - apply reach_fresh. by_computation.
  - vm_compute. reflexivity.
Qed.

Lemma busy_reachable : reachable (cat demo) busy.
Proof.
  apply (reachable_replay (cat demo) busy_statements (data demo));
    [apply demo_reachable|].
  vm_compute. reflexivity.
Qed.


(** ** The claims at the sample data *)

Lemma nurse_slots_last_one_hour_witness :
  reachable (cat demo) busy
  ∧ one_hour nine_to_ten
  ∧ ∃ e, exec (cat demo) (signed_in test_nurse_id)
           (Insert Tnurse_slots nine_to_half_past_ten) busy = Fail e.
Proof.
  destruct (nurse_slots_last_one_hour (cat demo) busy busy_reachable)
    as (Hall & Hins & _).
  split_and!; [apply busy_reachable| |].
  - apply Hall. by_computation.
  - apply Hins. intros (s & e & [= <-] & [= <-] & _ & Hd). discriminate Hd.
Defined.

Lemma profile_extensions_share_key_witness :
  reachable (cat demo) busy
  ∧ (length (filter (λ r, patient_profiles.id r = test_patient_id)
               (patient_profiles busy)) ≤ 1)%nat
  ∧ nurse_profiles.id (test_nurse_profile 0) ∈ profiles.id <$> profiles busy.
Proof.
  destruct (profile_extensions_share_key (cat demo) busy busy_reachable)
    as (Hp & _ & _ & Hn).
  split_and!; [apply busy_reachable|apply Hp|].
  apply Hn. by_computation.
Defined.

(** C1. The script does not keep what the claim says.  On the server as
    the migration leaves it, the test patient, whose profiles row has role
    'patient', inserts a nurse_profiles row with its own id and the INSERT
    succeeds: the row is appended, and nurse_profiles then holds a row whose
    profiles row is a patient's.  The test nurse inserts a patient_profiles
    row in the same way. *)
Theorem nurse_profile_of_a_patient :
  installed (cat demo) ∧ reachable (cat demo) (data demo)
  ∧ test_profile test_patient_id "patient" "Test Patient" 0
      ∈ profiles (data demo)
  ∧ nurse_profiles.id second_hat = test_patient_id
  ∧ exec (cat demo) (signed_in test_patient_id)
      (Insert Tnurse_profiles second_hat) (data demo)
    = Done (with_rows Tnurse_profiles
              (nurse_profiles (data demo) ++ [second_hat]) (data demo))
  ∧ test_profile test_nurse_id "nurse" "Test Nurse" 0 ∈ profiles (data demo)
  ∧ patient_profiles.id second_gown = test_nurse_id
  ∧ exec (cat demo) (signed_in test_nurse_id)
      (Insert Tpatient_profiles second_gown) (data demo)
    = Done (with_rows Tpatient_profiles
              (patient_profiles (data demo) ++ [second_gown]) (data demo)).
Proof.
  destruct (profile_extension_references_profile (cat demo) (data demo)
              demo_installed demo_reachable) as (_ & _ & Hnurse & Hpatient).
  split_and!; [apply demo_installed|apply demo_reachable|by_computation
              |reflexivity| |by_computation|reflexivity|].
  - apply (Hnurse test_patient_id
             (test_profile test_patient_id "patient" "Test Patient" 0)).
    + by_computation.
    + reflexivity.
    + reflexivity.
    + by_computation.
    + by_computation.
  - apply (Hpatient test_nurse_id
             (test_profile test_nurse_id "nurse" "Test Nurse" 0)).
    + by_computation.
    + reflexivity.
    + reflexivity.
    + by_computation.
    + by_computation.
Qed.

Lemma bookings_insert_by_patient_only_witness :
  installed (cat demo) ∧ reachable (cat demo) busy
  ∧ ∃ e, exec (cat demo) (signed_in test_nurse_id)
           (Insert Tbookings
              (visit "0a000000-0000-4000-8000-000000000008" test_nurse_id))
           busy = Fail e.
Proof.
  split_and!; [apply demo_installed|apply busy_reachable|].
  destruct (bookings_insert_by_patient_only (cat demo) busy test_nurse_id
              (visit "0a000000-0000-4000-8000-000000000008" test_nurse_id)
              demo_installed busy_reachable) as [_ Hnurse].
  apply (Hnurse (test_profile test_nurse_id "nurse" "Test Nurse" 0)).
  - by_computation.
  - reflexivity.
  - reflexivity.
Defined.

Lemma patient_profiles_select_own_witness :
  installed (cat demo)
  ∧ select_from (cat demo) (signed_in test_nurse_id) Tpatient_profiles busy = []
  ∧ select_from (cat demo) (signed_in test_patient_id) Tpatient_profiles busy
    = [test_patient_profile 0].
Proof.
  split_and!; [apply demo_installed| |].
  - destruct (patient_profiles_select_own (cat demo) busy test_nurse_id
                demo_installed) as [-> _].
    vm_compute. reflexivity.
  - destruct (patient_profiles_select_own (cat demo) busy test_patient_id
                demo_installed) as [-> _].
    vm_compute. reflexivity.
Defined.

Lemma migrate_twice_witness :
  catalog_wf (cat drifted)
  ∧ cat (migrate false 8 (migrate false 7 drifted))
    = cat (migrate false 7 drifted).
Proof.
  split; [by_computation|]. apply migrate_twice. by_computation.
Defined.

Lemma delete_profile_cascades_witness :
  consistent busy
  ∧ consistent (delete_from Tprofiles test_nurse_id busy)
  ∧ ∀ b, b ∈ bookings (delete_from Tprofiles test_nurse_id busy) →
         bookings.nurse_id b ≠ Some test_nurse_id.
Proof.
  pose proof (reachable_consistent (cat demo) busy busy_reachable) as Hb.
  destruct (delete_profile_cascades busy test_nurse_id Hb)
    as (_ & _ & _ & _ & _ & Hk & Hd).
  split_and!; [done|done|]. intros b Hin. by destruct (Hk b Hin) as (_ & ? & _).
Defined.

Lemma service_areas_read_only_witness :
  installed (cat demo)
  ∧ select_from (cat demo) anon Tservice_areas busy = [chennai]
  ∧ exec (cat demo) (signed_in test_nurse_id) (Delete Tservice_areas
      (service_areas.id chennai)) busy = Done busy.
Proof.
  split_and!; [apply demo_installed| |].
  - destruct (service_areas_read_only (cat demo) busy anon demo_installed)
      as (-> & _ & _). vm_compute. reflexivity.
  - destruct (service_areas_read_only (cat demo) busy (signed_in test_nurse_id)
                demo_installed) as (_ & _ & Hw).
    destruct (Hw eq_refl) as (_ & _ & _ & Hdel). apply Hdel.
Defined.



Lemma language_toggle_witness :
  language {| language := "en"; isMenuOpen := true |} = "en"
  ∧ on_toggleLanguage
      (on_toggleLanguage {| language := "en"; isMenuOpen := true |})
    = {| language := "en"; isMenuOpen := true |}
  ∧ spread (content sample_en sample_ta "en" !! "nav") !! "home"
    = Some (JStr "Home").
Proof.
  destruct (language_toggle sample_en sample_ta
              {| language := "en"; isMenuOpen := true |} (or_introl eq_refl))
    as (Hinv & _ & _ & _ & _ & _ & Hnav & _).
  split_and!; [done|exact Hinv|].
  simpl in Hnav. rewrite Hnav by done. vm_compute. reflexivity.
Defined.

(** C10, as stated, fails: with language 'en' the content shown is not the
    en locale; its nav.language is the code 'en', where the locale has
    'English'. *)
Lemma content_is_not_the_locale :
  content sample_en sample_ta "en" ≠ sample_en
  ∧ spread (sample_en !! "nav") !! "language" = Some (JStr "English")
  ∧ spread (content sample_en sample_ta "en" !! "nav") !! "language"
    = Some (JStr "en").
Proof.
  split_and!; [|vm_compute; reflexivity..].
  intros H.
  apply (f_equal (λ m, spread (m !! "nav") !! "language")) in H.
  vm_compute in H. discriminate H.
Qed.

(** * Further properties *)


(** ** The gate, policy by policy *)

Lemma applies_role p name k who who' :
  role who = role who' → applies p name k who → applies p name k who'.
Proof. unfold applies. intros ->. done. Qed.

Lemma permits_quals ev c who t k sel (r : row_of t) :
  policies c = script_policies →
  permits ev c who t k sel r
  = existsb (λ q, holds (ev (view t r) q))
            (quals sel (table_name t) k (role who)).
Proof.
  intros Hp. unfold permits, quals. rewrite Hp. clear Hp.
  induction script_policies as [|p l IH].
  - done.
  - cbn [existsb]. rewrite filter_cons, IH.
    destruct (decide (applies p (table_name t) k who)) as [Ha|Ha].
    + rewrite bool_decide_eq_true_2 by done.
      rewrite decide_True by (by eapply applies_role; [|exact Ha]).
      cbn [omap list_omap]. by destruct (sel p).
    + rewrite bool_decide_eq_false_2 by done.
      rewrite decide_False; [done|].
      intros Ha'. apply Ha. by eapply applies_role; [|exact Ha'].
Qed.

Lemma filter_ext_in {A} (P Q : A → Prop) `{∀ x, Decision (P x)}
    `{∀ x, Decision (Q x)} (l : list A) :
  (∀ x, x ∈ l → P x ↔ Q x) → filter P l = filter Q l.
Proof.
  induction l as [|x l IH]; [done|]. intros Hl.
  rewrite !filter_cons, IH by (intros y ?; apply Hl; by right).
  destruct (Hl x) as [H1 H2]; [by left|]. repeat case_decide; tauto.
Qed.

Lemma script_policies_roles :
  Forall (λ p, pg_policies.roles p = to_public
               ∨ pg_policies.roles p = authenticated) script_policies.
Proof. apply (bool_decide_unpack _). vm_compute. exact I. Qed.

(** A role other than [authenticated] is served by the policies for
    [public] alone. *)
Lemma quals_outsider sel name k rolename :
  rolename ≠ "authenticated" → quals sel name k rolename = quals sel name k "anon".
Proof.
  intros Hr. unfold quals. f_equal. apply filter_ext_in. intros p Hp.
  pose proof script_policies_roles as Hroles. rewrite Forall_forall in Hroles.
  unfold applies. cbn [role].
  destruct (Hroles p Hp) as [Hpub|Hauth].
  - rewrite Hpub. split; intros (? & ? & _); split_and!; try done; by left.
  - rewrite Hauth. unfold authenticated.
    split; intros (? & ? & [?|[= ?]]); done.
Qed.

Lemma view_id t (r : row_of t) : view t r "id" = VUuid (pkey t r).
Proof. by destruct t. Qed.

Lemma view_nurse_service_areas_nurse_id (r : row_of Tnurse_service_areas) :
  view Tnurse_service_areas r "nurse_id"
  = val VUuid (nurse_service_areas.nurse_id r).
Proof. reflexivity. Qed.

Lemma view_nurse_slots_nurse_id (r : row_of Tnurse_slots) :
  view Tnurse_slots r "nurse_id" = val VUuid (nurse_slots.nurse_id r).
Proof. reflexivity. Qed.

Lemma view_bookings_patient_id (r : row_of Tbookings) :
  view Tbookings r "patient_id" = val VUuid (bookings.patient_id r).
Proof. reflexivity. Qed.

Lemma view_bookings_nurse_id (r : row_of Tbookings) :
  view Tbookings r "nurse_id" = val VUuid (bookings.nurse_id r).
Proof. reflexivity. Qed.

Lemma holds_Some b : holds (Some b) = b.
Proof. by destruct b. Qed.

Lemma uid_eq_val who (o : option uuid) :
  holds (uid_eq who (val VUuid o))
  = bool_decide (is_Some o ∧ o = uid who).
Proof.
  unfold uid_eq. destruct (uid who) as [u|], o as [x|]; cbn [val].
  - rewrite holds_Some. apply bool_decide_ext. split.
    + intros ->. split; [by eexists|done].
    + by intros [_ [= ->]].
  - symmetry. apply bool_decide_eq_false_2. by intros [[? [=]] _].
  - symmetry. apply bool_decide_eq_false_2. by intros [_ [=]].
  - symmetry. apply bool_decide_eq_false_2. by intros [[? [=]] _].
Qed.

Lemma uid_eq_key who (x : uuid) :
  holds (uid_eq who (VUuid x)) = bool_decide (uid who = Some x).
Proof.
  unfold uid_eq. destruct (uid who) as [u|].
  - rewrite holds_Some. apply bool_decide_ext. split; [by intros ->|by intros [= ->]].
  - symmetry. by apply bool_decide_eq_false_2.
Qed.

Lemma holds_tri_or a b : holds (tri_or a b) = holds a || holds b.
Proof. by destruct a as [[]|], b as [[]|]. Qed.

(** Reduce [visible] and [allowed] to the expressions that apply. *)
Lemma holds_tri_and a b : holds (tri_and a b) = holds a && holds b.
Proof. by destruct a as [[]|], b as [[]|]. Qed.

Ltac gate Hc :=
  unfold visible, allowed;
  rewrite !permits_quals by apply Hc;
  rewrite !(installed_depth _ Hc);
  try match goal with
      | H : role _ = "authenticated" |- _ => rewrite !H
      end;
  rewrite ?quals_outsider by done;
  repeat match goal with
  | |- context [quals ?s ?n ?k ?r] =>
      let l := eval vm_compute in (quals s n k r) in
      change (quals s n k r) with l
  end;
  cbn [existsb];
  rewrite ?eval_true, ?eval_or, ?eval_and, ?eval_uid_eq, ?view_id,
    ?view_nurse_service_areas_nurse_id, ?view_nurse_slots_nurse_id,
    ?view_bookings_patient_id, ?view_bookings_nurse_id,
    ?holds_tri_or, ?holds_tri_and, ?uid_eq_key, ?uid_eq_val, ?orb_false_r.

(** ** Reading *)

Lemma profiles_select_own_eq c d who :
  installed c → bypassrls who = false →
  select_from c who Tprofiles d
  = filter (λ r, role who = "authenticated" ∧ uid who = Some (profiles.id r))
           (profiles d).
Proof.
  intros Hc Hwho. unfold select_from.
  rewrite decide_True by (by apply installed_gated).
  apply list_filter_iff. intros r. rewrite Is_true_true.
  destruct (decide (role who = "authenticated")) as [Hr|Hr]; gate Hc.
  - rewrite bool_decide_eq_true. cbn [pkey]. tauto.
  - split; [done|tauto].
Qed.




(** X1. A caller subject to row-level security reads a row of profiles
    exactly when the caller has the role authenticated and the row's id is
    the caller's own identity. *)
Theorem profiles_select_own c d who r :
  installed c → bypassrls who = false →
  r ∈ select_from c who Tprofiles d
  ↔ r ∈ profiles d ∧ role who = "authenticated" ∧ uid who = Some (profiles.id r).
Proof.
  intros Hc Hwho. rewrite profiles_select_own_eq by done.
  rewrite list_elem_of_filter. tauto.
Qed.

Lemma select_from_gated c who t d :
  installed c → bypassrls who = false →
  select_from c who t d = filter (λ r, visible c d who t SELECT r) (rows t d).
Proof.
  intros Hc Hwho. unfold select_from.
  by rewrite decide_True by (by apply installed_gated).
Qed.

(** X3. nurse_profiles, nurse_service_areas and nurse_slots are read in
    full by every caller with the role authenticated, and not at all by any
    other caller subject to row-level security. *)
Theorem nurse_directory c d who t :
  installed c → bypassrls who = false →
  t ∈ [Tnurse_profiles; Tnurse_service_areas; Tnurse_slots] →
  select_from c who t d
  = if decide (role who = "authenticated") then rows t d else [].
Proof.
  intros Hc Hwho Ht. rewrite select_from_gated by done.
  case_decide as Hr.
  - apply filter_all. intros r _. apply Is_true_true.
    set_unfold in Ht. destruct Ht as [->|[->|[->|[]]]]; by gate Hc.
  - apply filter_none. intros r _. rewrite Is_true_true.
    set_unfold in Ht. destruct Ht as [->|[->|[->|[]]]]; by gate Hc.
Qed.

(** X4. What a caller subject to row-level security reads from bookings is
    exactly the bookings that name the caller, signed in and with the role
    authenticated, as patient or as nurse. *)
Theorem bookings_select_parties c d who :
  installed c → bypassrls who = false →
  select_from c who Tbookings d
  = filter (λ b, role who = "authenticated" ∧ is_Some (uid who)
                 ∧ (bookings.patient_id b = uid who
                    ∨ bookings.nurse_id b = uid who))
           (bookings d).
Proof.
  intros Hc Hwho. rewrite select_from_gated by done.
  apply list_filter_iff. intros r. rewrite Is_true_true.
  destruct (decide (role who = "authenticated")) as [Hr|Hr]; gate Hc.
  - rewrite orb_true_iff, !bool_decide_eq_true.
    destruct (uid who) as [u|]; split.
    + intros [[_ ?]|[_ ?]]; split_and!; by eauto.
    + intros (_ & _ & [H|H]); [left|right]; rewrite H; split; by eauto.
    + intros [[[x Hx] H]|[[x Hx] H]]; congruence.
    + by intros (_ & [] & _).
  - split; [done|tauto].
Qed.

Lemma quals_anon sel t k :
  k ≠ ALL → (t, k) ≠ (Tservice_areas, SELECT) →
  quals sel (table_name t) k "anon" = [].
Proof. intros ??. by destruct t, k. Qed.

Lemma outsider_blind c d who t k sel (r : row_of t) :
  installed c → role who ≠ "authenticated" →
  k ≠ ALL → (t, k) ≠ (Tservice_areas, SELECT) →
  permits (eval (policy_depth c) c d who) c who t k sel r = false.
Proof.
  intros Hc Hr ??. rewrite permits_quals by apply Hc.
  by rewrite quals_outsider, quals_anon.
Qed.

(** X5. A caller subject to row-level security whose role is not
    authenticated reads nothing from any table but service_areas, and every
    statement of such a caller either completes without changing anything or
    fails for want of privilege. *)
Theorem outsider_reads_areas_only c d who :
  installed c → bypassrls who = false → role who ≠ "authenticated" →
  (∀ t, t ≠ Tservice_areas → select_from c who t d = [])
  ∧ (∀ s, exec c who s d = Done d ∨ exec c who s d = Fail insufficient_privilege).
Proof.
  intros Hc Hwho Hr. split.
  - intros t Ht. rewrite select_from_gated by done.
    apply filter_none. intros r _. rewrite Is_true_true. unfold visible.
    rewrite outsider_blind; [done..|congruence].
  - intros [t r|t i f|t i]; simpl;
      rewrite decide_True by (by apply installed_gated).
    + right. unfold allowed. by rewrite outsider_blind.
    + left. destruct (list_find _ _) as [[n old]|]; [|done].
      unfold visible at 2. rewrite outsider_blind by done.
      by rewrite andb_false_r.
    + left. destruct (list_find _ _) as [[n old]|]; [|done].
      unfold visible at 2. rewrite outsider_blind by done.
      by rewrite andb_false_r.
Qed.



(** ** The reach of ON DELETE CASCADE *)

Lemma refs_parents t (r : row_of t) ref : ref ∈ refs t r → ref.2 ∈ fk_parents t.
Proof.
  destruct t; simpl; rewrite ?elem_of_cons, ?elem_of_nil;
    intros H; repeat destruct H as [H|H]; subst; simpl;
    rewrite ?elem_of_cons; tauto.
Qed.

Lemma purge_nothing t p gone d :
  gone = [] ∨ p ∉ fk_parents t →
  purge t p gone d = d ∧ purged t p gone d = [].
Proof.
  intros Hno.
  assert (∀ r, r ∈ rows t d → ¬ orphaned t p gone r) as Hall.
  { intros r _ (ref & Href & <- & Hin)%Exists_exists.
    destruct Hno as [->|Hno]; [by apply elem_of_nil in Hin|].
    by apply Hno, (refs_parents t r). }
  unfold purge, purged. split.
  - rewrite filter_all by done. apply with_rows_same.
  - rewrite filter_none; [done|]. intros r Hr. by apply Hall.
Qed.

Lemma cascade_nil n p d : cascade n p [] d = d.
Proof.
  revert p d. induction n as [|n IH]; intros p d; [done|].
  rewrite cascade_S. generalize all_tables. intros ts.
  induction ts as [|t ts IHts]; [done|]. cbn [foldr]. rewrite IHts.
  destruct (purge_nothing t p [] d) as [-> ->]; [by left|]. apply IH.
Qed.

Lemma auth_users_cascade n p gone d :
  auth_users (cascade n p gone d) = auth_users d.
Proof.
  revert p gone d. induction n as [|n IH]; intros p gone d; [done|].
  rewrite cascade_S. generalize all_tables. intros ts.
  induction ts as [|t ts IHts]; [done|]. cbn [foldr].
  rewrite IH. unfold purge. by rewrite auth_users_with_rows.
Qed.

Lemma cascade_untouched n p gone d t' :
  t' ∉ dependants n p → rows t' (cascade n p gone d) = rows t' d.
Proof.
  revert p gone d. induction n as [|n IH]; intros p gone d Ht'; [done|].
  rewrite cascade_S.
  assert (∀ t, t ∈ all_tables → p ∈ fk_parents t →
               t ≠ t' ∧ t' ∉ dependants n (Ptable t)) as Hdirect.
  { intros t Hin Hp. cbn [dependants] in Ht'.
    rewrite not_elem_of_app in Ht'. destruct Ht' as [H1 H2]. split.
    - intros ->. apply H1. by apply list_elem_of_filter.
    - intros H. apply H2. apply list_elem_of_bind. exists t.
      split; [done|]. by apply list_elem_of_filter. }
  clear Ht'. revert Hdirect. generalize all_tables. intros ts.
  induction ts as [|t ts IHts]; intros Hdirect; [done|]. cbn [foldr].
  rewrite <-IHts by (intros t0 ?; apply Hdirect; by right).
  set (acc := foldr _ d ts).
  destruct (decide (p ∈ fk_parents t)) as [Hp|Hp].
  - destruct (Hdirect t) as [Hne Hdep]; [by left|done|].
    rewrite IH by done. unfold purge. by rewrite rows_with_rows_ne.
  - destruct (purge_nothing t p gone acc) as [-> ->]; [by right|].
    by rewrite cascade_nil.
Qed.

Lemma dependants_self t : t ∉ dependants cascade_depth (Ptable t).
Proof. destruct t; by_computation. Qed.

Lemma delete_from_rows t i d :
  rows t (delete_from t i d) = filter (λ r, pkey t r ≠ i) (rows t d).
Proof.
  unfold delete_from. case_decide as Hi.
  - rewrite cascade_untouched by apply dependants_self.
    by rewrite rows_with_rows.
  - symmetry. apply filter_all. intros r Hr Heq. apply Hi. rewrite <-Heq.
    by apply list_elem_of_fmap_2.
Qed.

(** X12. ON DELETE CASCADE reaches only the tables that depend on the one
    deleted from: in the table itself exactly the rows with the deleted id
    go, every table outside the dependants keeps its rows, and auth.users is
    not touched. *)
Theorem delete_cascades_to_dependants_only t i d t' :
  t' ∉ dependants cascade_depth (Ptable t) →
  rows t' (delete_from t i d)
  = (if decide (t' = t) then filter (λ r, pkey t' r ≠ i) (rows t' d)
     else rows t' d)
  ∧ auth_users (delete_from t i d) = auth_users d.
Proof.
  intros Ht'. split.
  - case_decide as Heq; [subst t'; apply delete_from_rows|].
    unfold delete_from. case_decide; [|done].
    rewrite cascade_untouched by done. by rewrite rows_with_rows_ne.
  - unfold delete_from. case_decide; [|done].
    by rewrite auth_users_cascade, auth_users_with_rows.
Qed.

(** ** Every row traces back to a registered identity *)

Lemma parent_exists d t (r : row_of t) u p :
  consistent d → r ∈ rows t d → (Some u, p) ∈ refs t r → u ∈ parent_keys p d.
Proof.
  intros Hd Hr Href. by apply fk_holds_Some, (fkeys_hold d Hd t r).
Qed.

Lemma extension_registered d :
  consistent d →
  (∀ p, p ∈ profiles d → profiles.id p ∈ auth_users d)
  ∧ (∀ r, r ∈ patient_profiles d →
       patient_profiles.id r ∈ profiles.id <$> profiles d
       ∧ patient_profiles.id r ∈ auth_users d)
  ∧ (∀ r, r ∈ nurse_profiles d →
       nurse_profiles.id r ∈ profiles.id <$> profiles d
       ∧ nurse_profiles.id r ∈ auth_users d).
Proof.
  intros Hd.
  assert (∀ p, p ∈ profiles d → profiles.id p ∈ auth_users d) as H0.
  { intros p Hp.
    apply (parent_exists d Tprofiles p _ Pauth_users Hd Hp). simpl. by left. }
  assert (∀ u, u ∈ profiles.id <$> profiles d → u ∈ auth_users d) as H0'.
  { intros u (p & -> & Hp)%list_elem_of_fmap. by apply H0. }
  split_and!; [done| |]; intros r Hr.
  - assert (patient_profiles.id r ∈ profiles.id <$> profiles d); [|by auto].
    apply (parent_exists d Tpatient_profiles r _ (Ptable Tprofiles) Hd Hr).
    simpl. by left.
  - assert (nurse_profiles.id r ∈ profiles.id <$> profiles d); [|by auto].
    apply (parent_exists d Tnurse_profiles r _ (Ptable Tprofiles) Hd Hr).
    simpl. by left.
Qed.

Lemma nurse_registered d u :
  consistent d → u ∈ nurse_profiles.id <$> nurse_profiles d →
  u ∈ profiles.id <$> profiles d ∧ u ∈ auth_users d.
Proof.
  intros Hd (r & -> & Hr)%list_elem_of_fmap.
  by apply (extension_registered d Hd).
Qed.

Lemma patient_registered d u :
  consistent d → u ∈ patient_profiles.id <$> patient_profiles d →
  u ∈ profiles.id <$> profiles d ∧ u ∈ auth_users d.
Proof.
  intros Hd (r & -> & Hr)%list_elem_of_fmap.
  by apply (extension_registered d Hd).
Qed.

Lemma nurse_rows_registered d :
  consistent d →
  (∀ r u, r ∈ nurse_service_areas d → nurse_service_areas.nurse_id r = Some u →
          u ∈ nurse_profiles.id <$> nurse_profiles d)
  ∧ (∀ r u, r ∈ nurse_slots d → nurse_slots.nurse_id r = Some u →
            u ∈ nurse_profiles.id <$> nurse_profiles d)
  ∧ (∀ b u, b ∈ bookings d → bookings.nurse_id b = Some u →
            u ∈ nurse_profiles.id <$> nurse_profiles d)
  ∧ (∀ b u, b ∈ bookings d → bookings.patient_id b = Some u →
            u ∈ patient_profiles.id <$> patient_profiles d)
  ∧ (∀ b i, b ∈ bookings d → bookings.slot_id b = Some i →
            i ∈ nurse_slots.id <$> nurse_slots d).
Proof.
  intros Hd. split_and!; intros r u Hr Hu.
  - apply (parent_exists d Tnurse_service_areas r _ (Ptable Tnurse_profiles)
             Hd Hr). simpl. rewrite Hu. by left.
  - apply (parent_exists d Tnurse_slots r _ (Ptable Tnurse_profiles) Hd Hr).
    simpl. rewrite Hu. by left.
  - apply (parent_exists d Tbookings r _ (Ptable Tnurse_profiles) Hd Hr).
    simpl. rewrite Hu. right. by left.
  - apply (parent_exists d Tbookings r _ (Ptable Tpatient_profiles) Hd Hr).
    simpl. rewrite Hu. by left.
  - apply (parent_exists d Tbookings r _ (Ptable Tnurse_slots) Hd Hr).
    simpl. rewrite Hu. right. right. by left.
Qed.

(** X15. In every reachable state the patient and the nurse a booking names
    have their patient_profiles resp. nurse_profiles row, a profiles row and
    a user in auth.users, and the slot it names exists, with a nurse who is
    registered in the same way. *)
Theorem booking_parties_registered c d b :
  reachable c d → b ∈ bookings d →
  (∀ u, bookings.patient_id b = Some u →
        u ∈ patient_profiles.id <$> patient_profiles d
        ∧ u ∈ profiles.id <$> profiles d ∧ u ∈ auth_users d)
  ∧ (∀ u, bookings.nurse_id b = Some u →
          u ∈ nurse_profiles.id <$> nurse_profiles d
          ∧ u ∈ profiles.id <$> profiles d ∧ u ∈ auth_users d)
  ∧ (∀ i, bookings.slot_id b = Some i →
          ∃ s, s ∈ nurse_slots d ∧ nurse_slots.id s = i
               ∧ ∀ n, nurse_slots.nurse_id s = Some n →
                      n ∈ nurse_profiles.id <$> nurse_profiles d
                      ∧ n ∈ auth_users d).
Proof.
  intros Hd%reachable_consistent Hb.
  destruct (nurse_rows_registered d Hd) as (_ & Hs & Hn & Hp & Hi).
  split_and!.
  - intros u Hu. pose proof (Hp b u Hb Hu) as H. split; [done|].
    by apply patient_registered.
  - intros u Hu. pose proof (Hn b u Hb Hu) as H. split; [done|].
    by apply nurse_registered.
  - intros i Hslot.
    pose proof (Hi b i Hb Hslot) as (s & -> & Hin)%list_elem_of_fmap.
    exists s. split_and!; [done..|]. intros n Hsn.
    pose proof (Hs s n Hin Hsn) as H. split; [done|].
    by apply nurse_registered.
Qed.

(** X11. Deleting the user [u] from auth.users removes [u] and nobody else
    from auth.users, leaves service_areas as it was, and leaves no profiles,
    patient_profiles or nurse_profiles row with id [u], no
    nurse_service_areas or nurse_slots row of the nurse [u], no booking with
    [u] as patient or nurse; the constraints hold afterwards. *)
Theorem delete_user_cascades d u :
  consistent d →
  let d' := delete_user u d in
  auth_users d' = filter (λ x, x ≠ u) (auth_users d)
  ∧ service_areas d' = service_areas d
  ∧ (∀ p, p ∈ profiles d' → profiles.id p ≠ u)
  ∧ (∀ r, r ∈ patient_profiles d' → patient_profiles.id r ≠ u)
  ∧ (∀ r, r ∈ nurse_profiles d' → nurse_profiles.id r ≠ u)
  ∧ (∀ r, r ∈ nurse_service_areas d' → nurse_service_areas.nurse_id r ≠ Some u)
  ∧ (∀ r, r ∈ nurse_slots d' → nurse_slots.nurse_id r ≠ Some u)
  ∧ (∀ b, b ∈ bookings d' →
       bookings.patient_id b ≠ Some u ∧ bookings.nurse_id b ≠ Some u)
  ∧ consistent d'.
Proof.
  intros Hd d'.
  pose proof (delete_user_consistent u d Hd) as Hd'. fold d' in Hd'.
  assert (auth_users d' = filter (λ x, x ≠ u) (auth_users d)) as Hus.
  { unfold d', delete_user. case_decide as Hu.
    - by rewrite auth_users_cascade.
    - symmetry. apply filter_all. by intros x ? ->. }
  assert (u ∉ auth_users d') as Hgone.
  { rewrite Hus, list_elem_of_filter. tauto. }
  destruct (extension_registered d' Hd') as (H0 & H1 & H2).
  destruct (nurse_rows_registered d' Hd') as (Ha & Hs & Hn & Hp & _).
  split_and!; [done| | | | | | | |done].
  - change (rows Tservice_areas d' = rows Tservice_areas d).
    unfold d', delete_user. case_decide; [|done].
    rewrite cascade_untouched; [apply rows_with_users|by_computation].
  - intros p Hp' <-. by apply Hgone, H0.
  - intros r Hr <-. by apply Hgone, H1.
  - intros r Hr <-. by apply Hgone, H2.
  - intros r Hr Hu. by apply Hgone, (nurse_registered d' u Hd'), (Ha r).
  - intros r Hr Hu. by apply Hgone, (nurse_registered d' u Hd'), (Hs r).
  - intros b Hb. split; intros Hu.
    + by apply Hgone, (patient_registered d' u Hd'), (Hp b).
    + by apply Hgone, (nurse_registered d' u Hd'), (Hn b).
Qed.

(** ** No ON UPDATE action *)

(** X13. The foreign keys have no ON UPDATE action: an UPDATE that would
    change the id of a row that another row references fails, and issued by
    any caller it changes nothing. *)
Theorem referenced_key_frozen t i f d t' (r : row_of t') :
  consistent d →
  r ∈ rows t' d → (Some i, Ptable t) ∈ refs t' r →
  (∀ x, x ∈ rows t d → pkey t x = i → pkey t (f x) ≠ i) →
  (∃ e, update_set t i f d = Fail e)
  ∧ ∀ c who, rejected c who (Update t i f) d.
Proof.
  intros Hd Hr Href Hf.
  assert (∀ d', update_set t i f d ≠ Done d') as Hno.
  { intros d' [[Hnone _]|(n & old & Hfind & -> & _ & Hin)]%update_Done.
    - pose proof (parent_exists d t' r i (Ptable t) Hd Hr Href) as Hi.
      apply list_elem_of_fmap in Hi as (x & Hx & Hin).
      apply list_find_None in Hnone. rewrite Forall_forall in Hnone.
      by apply (Hnone x).
    - apply list_find_Some in Hfind as (Hn & Hi & _).
      destruct Hin as [Hkept|Hfree].
      + by apply (Hf old); [eapply list_elem_of_lookup_2|..].
      + apply Hfree. apply (referenced_intro t' r); [|done].
        rewrite rows_with_rows_ne; [done|]. intros ->.
        pose proof (refs_below t' r _ Href). simpl in *. lia. }
  split; [by apply not_Done_Fail|].
  intros c who d' [?|Hrun]%exec_Done; [done|]. by destruct (Hno d').
Qed.

(** ** Enumerated columns *)

Lemma sql_in_check (v : option text) (l : list text) :
  check_holds (sql_in v l) → is_Some v → ∃ s, v = Some s ∧ s ∈ l.
Proof.
  intros Hc [s ->]. exists s. split; [done|].
  unfold check_holds, sql_in in Hc. destruct (decide (s ∈ l)); [done|].
  destruct Hc. by rewrite bool_decide_eq_false_2.
Qed.

(** X14. In every reachable state the enumerated columns hold one of their
    declared values: profiles.role is 'patient' or 'nurse', a gender that is
    not NULL is 'male', 'female' or 'other', and the status of a slot and of
    a booking is one of the four values its CHECK lists. *)
Theorem enumerated_columns c d :
  reachable c d →
  (∀ p, p ∈ profiles d →
        profiles.role p = Some "patient" ∨ profiles.role p = Some "nurse")
  ∧ (∀ r g, r ∈ patient_profiles d → patient_profiles.gender r = Some g →
            g ∈ ["male"; "female"; "other"])
  ∧ (∀ s, s ∈ nurse_slots d →
          ∃ st, nurse_slots.status s = Some st
                ∧ st ∈ ["available"; "booked"; "completed"; "cancelled"])
  ∧ (∀ b, b ∈ bookings d →
          ∃ st, bookings.status b = Some st
                ∧ st ∈ ["pending"; "confirmed"; "completed"; "cancelled"]).
Proof.
  intros Hd%reachable_consistent. split_and!.
  - intros p Hp.
    destruct (rows_valid d Hd Tprofiles p Hp) as [[Hrole _] Hc].
    apply sql_in_check in Hc as (s & -> & Hs); [|done].
    rewrite !elem_of_cons, elem_of_nil in Hs.
    destruct Hs as [->|[->|[]]]; auto.
  - intros r g Hr Hg.
    destruct (rows_valid d Hd Tpatient_profiles r Hr) as [_ Hc].
    apply sql_in_check in Hc as (s & Hs & Hin); [|by rewrite Hg].
    rewrite Hg in Hs. by injection Hs as ->.
  - intros s Hs.
    destruct (rows_valid d Hd Tnurse_slots s Hs) as [(_ & _ & _ & ?) [Hc _]].
    by apply sql_in_check.
  - intros b Hb.
    destruct (rows_valid d Hd Tbookings b Hb) as [[_ ?] Hc].
    by apply sql_in_check.
Qed.

(** ** Writes stay within the caller's own rows *)

Lemma owns_intro who t (r : row_of t) (o : option uuid) :
  role who = "authenticated" → o ∈ owners t r → is_Some o → o = uid who →
  owns who t r.
Proof. intros Hr Ho [u ->] Hu. split; [done|]. exists u. by rewrite <-Hu. Qed.

Ltac owner o :=
  apply (owns_intro _ _ _ o);
  [done|cbn [owners]; rewrite !elem_of_cons; tauto|by eauto|by eauto].

Lemma write_gate c d who t k sel (r : row_of t) :
  installed c → k ∈ [INSERT; UPDATE; DELETE] →
  sel = using_of ∨ sel = check_of →
  permits (eval (policy_depth c) c d who) c who t k sel r = true →
  owns who t r.
Proof.
  intros Hc Hk Hsel. rewrite !elem_of_cons, elem_of_nil in Hk.
  destruct (decide (role who = "authenticated")) as [Hr|Hr].
  2:{ rewrite outsider_blind; [done|done|done| |];
        destruct Hk as [->|[->|[->|[]]]]; by intros [=]. }
  destruct Hsel as [->| ->], Hk as [->|[->|[->|[]]]], t; gate Hc.
  all: try discriminate.
  all: rewrite ?orb_true_iff, ?andb_true_iff, ?bool_decide_eq_true.
  all: cbn [pkey].
  all: lazymatch goal with
       | |- uid _ = Some ?x → _ => intros H; owner (Some x)
       | |- is_Some ?o ∧ ?o = _ → _ => intros [? ?]; owner o
       | |- (is_Some ?o ∧ ?o = _) ∧ _ → _ => intros [[? ?] _]; owner o
       | |- (is_Some ?o ∧ ?o = _) ∨ (is_Some ?o' ∧ ?o' = _) → _ =>
           intros [[? ?]|[? ?]]; [owner o|owner o']
       end.
Qed.

Lemma elem_of_insert_other {A} (l : list A) n old new x :
  l !! n = Some old → x ≠ old → x ≠ new → x ∈ <[n:=new]> l ↔ x ∈ l.
Proof.
  intros Hn Ho Hnew.
  rewrite (insert_Permutation l n new old Hn).
  rewrite (delete_Permutation l n old Hn) at 2.
  rewrite !elem_of_cons. tauto.
Qed.

Lemma auth_users_delete_from t i d :
  auth_users (delete_from t i d) = auth_users d.
Proof.
  unfold delete_from. case_decide; [|done].
  by rewrite auth_users_cascade, auth_users_with_rows.
Qed.

Lemma delete_from_untouched t i d t' :
  t' ≠ t → t' ∉ dependants cascade_depth (Ptable t) →
  rows t' (delete_from t i d) = rows t' d.
Proof.
  intros Hne Ht'. unfold delete_from. case_decide; [|done].
  rewrite cascade_untouched by done. by rewrite rows_with_rows_ne.
Qed.

(** What [exec] does when the caller is subject to row-level security and
    the statement takes effect. *)
Lemma exec_gated_Done c who s d d' :
  gated c who (target s) → exec c who s d = Done d' →
  d' = d ∨
  match s with
  | Insert t r =>
      allowed c d who t INSERT r = true
      ∧ d' = with_rows t (rows t d ++ [r]) d
  | Update t i f =>
      ∃ n old, rows t d !! n = Some old ∧ pkey t old = i
               ∧ visible c d who t UPDATE old = true
               ∧ allowed c d who t UPDATE (f old) = true
               ∧ d' = with_rows t (<[n := f old]> (rows t d)) d
  | Delete t i =>
      ∃ old, old ∈ rows t d ∧ pkey t old = i
             ∧ visible c d who t DELETE old = true
             ∧ d' = delete_from t i d
  end.
Proof.
  destruct s as [t r|t i f|t i]; cbn [target exec]; intros Hg;
    rewrite decide_True by done.
  - intros [Ha [_ ->]%insert_Done]%require_bind_Done. right.
    split; [|done]. by apply Is_true_true.
  - destruct (list_find _ _) as [[n old]|] eqn:Hfind;
      [|intros [= <-]; by left].
    destruct (_ && _) eqn:Hvis; [|intros [= <-]; by left].
    intros [Ha Hup]%require_bind_Done.
    apply andb_true_iff in Hvis as [_ Hvis].
    apply Is_true_true, andb_true_iff in Ha as [Ha _].
    apply update_Done in Hup as [[_ ->]|(n' & old' & Hfind' & -> & _)];
      [by left|right].
    rewrite Hfind in Hfind'. injection Hfind' as <- <-.
    apply list_find_Some in Hfind as (Hn & Hi & _).
    by exists n, old.
  - destruct (list_find _ _) as [[n old]|] eqn:Hfind;
      [|intros [= <-]; by left].
    destruct (_ && _) eqn:Hvis; [|intros [= <-]; by left].
    intros [= <-]. right.
    apply andb_true_iff in Hvis as [_ Hvis].
    apply list_find_Some in Hfind as (Hn & Hi & _).
    exists old. split_and!; [by eapply list_elem_of_lookup_2|done..].
Qed.

(** X7. A statement of a caller subject to row-level security that succeeds
    leaves every row of its table that the caller does not own where it was
    (a row is owned through its id in the three profile tables, its nurse_id
    in nurse_service_areas and nurse_slots, its patient_id or nurse_id in
    bookings); it never touches auth.users, and it leaves the other tables
    as they were, a DELETE excepted for the tables its cascade can reach. *)
Theorem writes_stay_within_own_rows c who s d d' :
  installed c → consistent d → bypassrls who = false →
  exec c who s d = Done d' →
  (∀ r : row_of (target s), ¬ owns who (target s) r →
     r ∈ rows (target s) d' ↔ r ∈ rows (target s) d)
  ∧ auth_users d' = auth_users d
  ∧ (∀ t', t' ≠ target s →
       match s with
       | Delete t _ => t' ∉ dependants cascade_depth (Ptable t)
       | _ => True
       end →
       rows t' d' = rows t' d).
Proof.
  intros Hc Hd Hwho He.
  destruct (exec_gated_Done c who s d d'
              (installed_gated c who _ Hc Hwho) He) as [->|Hs]; [done|].
  destruct s as [t r0|t i f|t i]; cbn [target] in *.
  - destruct Hs as [Ha ->]. split_and!.
    + intros r Hr. rewrite rows_with_rows, elem_of_app, list_elem_of_singleton.
      split; [|tauto]. intros [?| ->]; [done|]. destruct Hr.
      apply (write_gate c d who t INSERT check_of); [done| |by right|done].
      rewrite !elem_of_cons. tauto.
    + apply auth_users_with_rows.
    + intros t' Hne' _. by rewrite rows_with_rows_ne.
  - destruct Hs as (n & old & Hn & Hi & Hv & Ha & ->). split_and!.
    + intros r Hr. rewrite rows_with_rows.
      apply (elem_of_insert_other _ n old); [done| |]; intros ->; destruct Hr.
      * apply (write_gate c d who t UPDATE using_of); [done| |by left|done].
        rewrite !elem_of_cons. tauto.
      * apply (write_gate c d who t UPDATE check_of); [done| |by right|done].
        rewrite !elem_of_cons. tauto.
    + apply auth_users_with_rows.
    + intros t' Hne' _. by rewrite rows_with_rows_ne.
  - destruct Hs as (old & Hold & Hi & Hv & ->). split_and!.
    + intros r Hr. rewrite delete_from_rows, list_elem_of_filter.
      split; [tauto|]. intros Hin. split; [|done]. intros Hk. destruct Hr.
      assert (r = old) as ->.
      { apply (NoDup_fmap_eq (pkey t) (rows t d));
          [apply (pkey_unique d Hd t)|done|done|congruence]. }
      apply (write_gate c d who t DELETE using_of); [done| |by left|done].
      rewrite !elem_of_cons. tauto.
    + apply auth_users_delete_from.
    + intros t' Hne' Hdep. by apply delete_from_untouched.
Qed.

(** ** Inserting one's own rows *)

Lemma allowed_insert_own c d u t (r : row_of t) :
  installed c → t ∉ [Tservice_areas; Tbookings] →
  allowed c d (signed_in u) t INSERT r = bool_decide (Some u ∈ owners t r).
Proof.
  intros Hc Ht. rewrite !elem_of_cons, elem_of_nil in Ht.
  destruct t; try tauto; gate Hc; cbn [pkey owners uid signed_in].
  all: apply bool_decide_ext; rewrite list_elem_of_singleton.
  all: try (split; congruence).
  all: split; [by intros [_ ?]|intros H; rewrite <-H; split; [by eexists|done]].
Qed.

(** X10. On profiles, patient_profiles, nurse_profiles,
    nurse_service_areas and nurse_slots an INSERT by the signed-in identity
    [u] goes through to the engine when the row carries [u] in its owner
    column, and fails for want of privilege otherwise. *)
Theorem own_rows_insert c d u t (r : row_of t) :
  installed c → t ∉ [Tservice_areas; Tbookings] →
  exec c (signed_in u) (Insert t r) d
  = if decide (Some u ∈ owners t r) then insert_into t r d
    else Fail insufficient_privilege.
Proof.
  intros Hc Ht. cbn [exec].
  rewrite decide_True by (by apply installed_gated).
  rewrite allowed_insert_own by done. case_decide as Ho.
  - rewrite bool_decide_eq_true_2 by done. by rewrite require_pass.
  - by rewrite bool_decide_eq_false_2 by done.
Qed.

Lemma fk_holds_opt d (o : option uuid) p :
  fk_holds d (o, p) ↔ ∀ x, o = Some x → x ∈ parent_keys p d.
Proof.
  destruct o as [u|].
  - rewrite fk_holds_Some. split; [by intros ? x [= <-]|eauto].
  - split; [done|]. intros _. by left.
Qed.

(** X9. An INSERT into bookings by the signed-in identity [u] succeeds
    exactly when the row names [u] as patient, profiles holds a row for [u]
    with role 'patient', service_id is given, status is one of the four
    values, the id is new, [u] has a patient_profiles row, and the nurse and
    the slot the row names, if any, exist; the row is then appended.  The
    status of the slot and the bookings the slot already has play no part. *)
Theorem booking_insert_exactly c d u (b : row_of Tbookings) d' :
  installed c →
  exec c (signed_in u) (Insert Tbookings b) d = Done d'
  ↔ bookings.patient_id b = Some u
    ∧ (∃ p, p ∈ profiles d ∧ profiles.id p = u
            ∧ profiles.role p = Some "patient")
    ∧ is_Some (bookings.service_id b)
    ∧ (∃ st, bookings.status b = Some st
             ∧ st ∈ ["pending"; "confirmed"; "completed"; "cancelled"])
    ∧ (bookings.id b ∉ bookings.id <$> bookings d)
    ∧ u ∈ patient_profiles.id <$> patient_profiles d
    ∧ (∀ n, bookings.nurse_id b = Some n →
            n ∈ nurse_profiles.id <$> nurse_profiles d)
    ∧ (∀ s, bookings.slot_id b = Some s →
            s ∈ nurse_slots.id <$> nurse_slots d)
    ∧ d' = with_rows Tbookings (bookings d ++ [b]) d.
Proof.
  intros Hc.
  assert (Forall (fk_holds d) (refs Tbookings b)
          ↔ (∀ x, bookings.patient_id b = Some x →
                  x ∈ patient_profiles.id <$> patient_profiles d)
            ∧ (∀ n, bookings.nurse_id b = Some n →
                    n ∈ nurse_profiles.id <$> nurse_profiles d)
            ∧ (∀ s, bookings.slot_id b = Some s →
                    s ∈ nurse_slots.id <$> nurse_slots d)) as Hfk.
  { cbn [refs]. rewrite !Forall_cons, Forall_nil, !fk_holds_opt.
    cbn [parent_keys keys rows pkey]. tauto. }
  split.
  - intros He. pose proof He as [Hin Ha]%exec_Insert_Done.
    apply (allowed_insert_bookings c d u b Hc) in Ha as [Hpat Hp];
      [|by apply installed_gated].
    apply insert_Done in Hin as [Hcon ->].
    apply constrain_Done in Hcon as ([Hsv Hst] & Hch & Hk & _ & Hrefs).
    apply Hfk in Hrefs as (Hp' & Hn & Hs).
    split_and!; [done|done|done| |done|by apply Hp'|done|done|done].
    by apply sql_in_check.
  - intros (Hpat & (p & Hp & Hid & Hrole) & Hsv & (st & Hst & Hin) & Hk
            & Hpp & Hn & Hs & ->).
    cbn [exec]. rewrite decide_True by (by apply installed_gated).
    rewrite require_pass
      by (apply Is_true_true; by eapply allowed_insert_bookings_patient).
    apply insert_Done. split; [|done]. apply constrain_Done.
    split_and!; [split; [done|by rewrite Hst]| |done|constructor|].
    + unfold checks, bookings.checks, check_holds, sql_in. rewrite Hst.
      by rewrite bool_decide_eq_true_2.
    + apply Hfk. split_and!; [|done..]. intros x Hx.
      rewrite Hpat in Hx. by injection Hx as <-.
Qed.

(** ** Updating one's own profile *)

Lemma list_find_key {A B} `{EqDecision B} (f : A → B) (l : list A) n x :
  NoDup (f <$> l) → l !! n = Some x →
  list_find (λ y, f y = f x) l = Some (n, x).
Proof.
  intros Hnd Hn. apply list_find_Some. split_and!; [done..|].
  intros j y Hj Hlt Hy.
  assert (j = n); [|lia].
  apply (NoDup_lookup (f <$> l) j n (f x)); [done|..];
    rewrite list_lookup_fmap.
  - by rewrite Hj, <-Hy.
  - by rewrite Hn.
Qed.

Lemma key_not_among_others {A B} (f : A → B) (l : list A) n x :
  NoDup (f <$> l) → l !! n = Some x → f x ∉ f <$> delete n l.
Proof.
  intros Hnd Hn. rewrite (delete_Permutation l n x Hn), fmap_cons in Hnd.
  by apply NoDup_cons in Hnd as [? _].
Qed.

(** X8. The owner of a profiles row may rewrite it, role included: an
    UPDATE by the signed-in identity [u] of its own row succeeds whenever the
    new row keeps the id, has a name and has one of the two roles, and the
    new row then stands where the old one stood. *)
Theorem own_profile_update c d u f n p :
  installed c → consistent d →
  profiles d !! n = Some p → profiles.id p = u →
  profiles.id (f p) = u →
  is_Some (profiles.role (f p)) → is_Some (profiles.name (f p)) →
  (∀ x, profiles.role (f p) = Some x → x ∈ ["patient"; "nurse"]) →
  exec c (signed_in u) (Update Tprofiles u f) d
  = Done (with_rows Tprofiles (<[n := f p]> (profiles d)) d).
Proof.
  intros Hc Hd Hn Hid Hkept Hrole Hname Hch.
  pose proof (pkey_unique d Hd Tprofiles) as Hnd.
  assert (list_find (λ y, pkey Tprofiles y = u) (rows Tprofiles d)
          = Some (n, p)) as Hfind.
  { rewrite <-Hid. by apply (list_find_key (pkey Tprofiles)). }
  assert (∀ r : row_of Tprofiles, profiles.id r = u → ∀ k sel,
            k ∈ [SELECT; UPDATE] → sel = using_of ∨ sel = check_of →
            permits (eval (policy_depth c) c d (signed_in u)) c (signed_in u)
              Tprofiles k sel r = true) as Hgate.
  { intros r Hr k sel Hk Hsel. rewrite !elem_of_cons, elem_of_nil in Hk.
    destruct Hsel as [->| ->], Hk as [->|[->|[]]]; gate Hc;
      apply bool_decide_eq_true; cbn [pkey uid signed_in]; congruence. }
  cbn [exec]. rewrite decide_True by (by apply installed_gated).
  rewrite Hfind. unfold visible, allowed.
  rewrite !Hgate; try done; try (by left); try (by right);
    try (rewrite !elem_of_cons; tauto).
  cbn [andb]. rewrite require_pass by done.
  apply update_Done. right. exists n, p.
  split_and!; [done|done| |by left].
  apply constrain_Done. split_and!; [done| | |constructor|].
  - unfold checks, profiles.checks, check_holds, sql_in.
    destruct (profiles.role (f p)) as [x|]; [|done].
    by rewrite bool_decide_eq_true_2 by auto.
  - change (pkey Tprofiles (f p)) with (profiles.id (f p)).
    rewrite Hkept, <-Hid. by apply (key_not_among_others (pkey Tprofiles)).
  - cbn [refs]. rewrite Forall_cons, Forall_nil, fk_holds_Some.
    split; [|done]. cbn [parent_keys].
    rewrite auth_users_with_rows, Hkept, <-Hid.
    apply (extension_registered d Hd). by eapply list_elem_of_lookup_2.
Qed.

(** ** What the migration leaves behind *)

Lemma insert_ocdn_present t r d :
  not_nulls t r → checks t r → pkey t r ∈ keys t d →
  insert_on_conflict_do_nothing t r d = Done d.
Proof.
  intros Hn Hc Hk. unfold insert_on_conflict_do_nothing.
  rewrite !require_pass by done. by rewrite decide_True.
Qed.

(** X19. ON CONFLICT (id) DO NOTHING: where profiles, patient_profiles and
    nurse_profiles already hold rows with the ids of the test data, the last
    block of the script succeeds and changes nothing. *)
Theorem test_data_kept_on_conflict now d :
  test_patient_id ∈ profiles.id <$> profiles d →
  test_nurse_id ∈ profiles.id <$> profiles d →
  test_patient_id ∈ patient_profiles.id <$> patient_profiles d →
  test_nurse_id ∈ nurse_profiles.id <$> nurse_profiles d →
  insert_test_data now d = Done d.
Proof.
  intros H1 H2 H3 H4. unfold insert_test_data.
  rewrite insert_ocdn_present; [|by_computation|by_computation|done].
  cbn [mbind outcome_bind].
  rewrite insert_ocdn_present; [|by_computation|by_computation|done].
  cbn [mbind outcome_bind].
  rewrite insert_ocdn_present; [|by_computation|by_computation|done].
  cbn [mbind outcome_bind].
  by rewrite insert_ocdn_present; [|by_computation|by_computation|done].
Qed.

Lemma test_data_consistent now us :
  NoDup us → test_patient_id ∈ us → test_nurse_id ∈ us →
  consistent (test_data now us).
Proof.
  intros Hnd Hp Hn.
  assert (∀ t r, r ∈ rows t (test_data now us) →
            Forall (fk_holds (test_data now us)) (refs t r)) as Hfk.
  { intros t r Hr. destruct t; simpl in Hr;
      rewrite ?elem_of_cons, ?elem_of_nil in Hr; try done;
      repeat destruct Hr as [Hr|Hr]; try done; subst r;
      cbn [refs]; rewrite Forall_cons, Forall_nil, fk_holds_Some;
      (split; [|done]); cbn; rewrite ?elem_of_cons; tauto. }
  split.
  - done.
  - intros t r Hr. destruct t; simpl in Hr;
      rewrite ?elem_of_cons, ?elem_of_nil in Hr; try done;
      repeat destruct Hr as [Hr|Hr]; try done; subst r;
      split; by_computation.
  - intros t. destruct t; by_computation.
  - intros t k Hk. destruct t; cbn [uniques] in Hk;
      rewrite ?elem_of_cons, ?elem_of_nil in Hk; try done;
      destruct Hk as [->|[]]; constructor.
  - intros t r ref Hr Href. pose proof (Hfk t r Hr) as H.
    rewrite Forall_forall in H. by apply H.
Qed.

(** X16. On a server that has the two test identities, the migration
    replaces whatever rows the seven tables held by the four rows of the test
    data, whether it runs in a transaction or not; the result meets the
    constraints and carries the policies of the script. *)
Theorem migration_replaces_rows atomic now s :
  catalog_wf (cat s) → test_users s → NoDup (auth_users (data s)) →
  data (migrate atomic now s) = test_data now (auth_users (data s))
  ∧ consistent (data (migrate atomic now s))
  ∧ installed (cat (migrate atomic now s)).
Proof.
  intros Hwf Hu Hnd.
  assert (migrate atomic now s
          = {| cat := schema_catalog (cat s);
               data := test_data now (auth_users (data s)) |}) as ->.
  { destruct atomic.
    - by rewrite migrate_atomic, decide_True.
    - by rewrite migrate_each, decide_True. }
  cbn [cat data]. split_and!; [done| |apply schema_catalog_installed].
  destruct Hu. by apply test_data_consistent.
Qed.

(** X17. On a server without the two test identities the last block of the
    script fails on a foreign key: run in a transaction the migration leaves
    the server as it was; run statement by statement it leaves the new
    schema with its policies and seven empty tables. *)
Theorem migration_without_test_users now s :
  catalog_wf (cat s) → ¬ test_users s →
  migrate true now s = s
  ∧ migrate false now s
    = {| cat := schema_catalog (cat s);
         data := no_rows (auth_users (data s)) |}
  ∧ installed (cat (migrate false now s)).
Proof.
  intros Hwf Hu. split_and!.
  - by rewrite migrate_atomic, decide_False.
  - by rewrite migrate_each, decide_False.
  - rewrite migrate_each by done. apply schema_catalog_installed.
Qed.

Lemma without_table_names x l :
  pg_tables.tablename <$> without_table x l
  = filter (λ y, y ≠ x) (pg_tables.tablename <$> l).
Proof.
  unfold without_table. rewrite <-list_fmap_compose.
  induction l as [|e l IH]; [done|].
  rewrite fmap_cons, !filter_cons. case_decide; [|done].
  rewrite fmap_cons. cbn [compose]. by rewrite detach_tablename, IH.
Qed.

Lemma emptied_names l x :
  x ∈ pg_tables.tablename <$> emptied l
  ↔ x ∈ pg_tables.tablename <$> l ∧ ∀ t, x ≠ table_name t.
Proof.
  assert (∀ ts l, x ∈ pg_tables.tablename
                        <$> foldl (λ acc t, without_table (table_name t) acc) l ts
                  ↔ x ∈ pg_tables.tablename <$> l
                    ∧ ∀ t, t ∈ ts → x ≠ table_name t) as H.
  { intros ts. induction ts as [|t ts IH]; intros l'.
    - cbn [foldl]. split; [|tauto]. intros ?. split; [done|].
      by intros t ?%elem_of_nil.
    - cbn [foldl]. rewrite IH, without_table_names, list_elem_of_filter.
      setoid_rewrite elem_of_cons. split.
      + intros [[Hne Hin] Hall]. split; [done|]. intros t0 [->|?]; auto.
      + intros [Hin Hall]. split_and!; [apply Hall; by left|done|].
        intros t0 ?. apply Hall. by right. }
  unfold emptied. rewrite H. split; intros [? Hne]; (split; [done|]).
  - intros t. apply Hne. destruct t; unfold drop_order;
      rewrite !elem_of_cons; tauto.
  - intros t _. apply Hne.
Qed.

Lemma emptied_fkeys l e t :
  e ∈ emptied l → table_name t ∉ pg_tables.fkeys e.
Proof. intros He. by apply (emptied_clean_of t l e). Qed.

(** X18. After a migration that was not rolled back the catalog holds the
    policies of the script and no other, every table of the schema has
    row-level security enabled, the tables are those there were before plus
    the seven of the script, and no table other than these seven keeps a
    foreign key to one of them. *)
Theorem migration_catalog atomic now s :
  catalog_wf (cat s) → atomic = false ∨ test_users s →
  let c' := cat (migrate atomic now s) in
  policies c' = script_policies
  ∧ (∀ e, e ∈ tables c' → pg_tables.rowsecurity e = true)
  ∧ (∀ x, x ∈ table_names c'
          ↔ x ∈ table_names (cat s) ∨ ∃ t, x = table_name t)
  ∧ (∀ e t, e ∈ tables c' → table_name t ∈ pg_tables.fkeys e →
            ∃ t', pg_tables.tablename e = table_name t').
Proof.
  intros Hwf Hok c'.
  assert (c' = schema_catalog (cat s)) as ->.
  { unfold c'. destruct atomic.
    - destruct Hok as [?|Hu]; [done|]. by rewrite migrate_atomic, decide_True.
    - by rewrite migrate_each. }
  unfold schema_catalog, table_names. cbn [tables policies]. split_and!.
  - done.
  - by intros e' (e & -> & _)%list_elem_of_fmap.
  - intros x. rewrite secured_names, fmap_app, elem_of_app, emptied_names.
    assert (x ∈ pg_tables.tablename <$> (created <$> create_order)
            ↔ ∃ t, x = table_name t) as ->.
    { rewrite <-list_fmap_compose. split.
      - intros (t & -> & _)%list_elem_of_fmap. by exists t.
      - intros [t ->]. apply list_elem_of_fmap. exists t. split; [done|].
        destruct t; unfold create_order; rewrite !elem_of_cons; tauto. }
    destruct (decide (x ∈ table_name <$> all_tables)) as [Hx|Hx].
    + apply list_elem_of_fmap in Hx as (t & -> & _). split; eauto.
    + split; [tauto|]. intros [?|[t ->]]; [left|right; eauto].
      split; [done|]. intros t ->. apply Hx, list_elem_of_fmap_2, in_all_tables.
  - intros e' t (e & -> & [He|He]%elem_of_app)%list_elem_of_fmap Ht;
      cbn [secured pg_tables.fkeys pg_tables.tablename] in *.
    + by apply (emptied_fkeys _ _ t) in He.
    + apply list_elem_of_fmap in He as (t' & -> & _). by exists t'.
Qed.

(** ** The redundant CHECK on nurse_slots *)

(** X20. The CHECK valid_slot_time never rejects a row that the CHECK
    one_hour_slot accepts. *)
Theorem one_hour_slot_implies_valid_slot_time (r : nurse_slots.row) :
  check_holds (nurse_slots.one_hour_slot r) →
  check_holds (nurse_slots.valid_slot_time r).
Proof.
  unfold nurse_slots.valid_slot_time, nurse_slots.one_hour_slot, check_holds.
  destruct (nurse_slots.start_time r) as [s|], (nurse_slots.end_time r) as [e|];
    simpl; try done.
  intros Hh. destruct (decide (s < e)) as [Hlt|Hge].
  { by rewrite bool_decide_eq_true_2. }
  destruct Hh. f_equal. apply not_true_is_false.
  intros E%Qeq_bool_iff. unfold Qeq in E. simpl in E. lia.
Qed.

(** ** Updating one's own rows *)

Lemma is_Some_and_eq {A} (o : option A) x :
  is_Some o ∧ o = Some x ↔ Some x = o.
Proof. split; [by intros [_ ->]|intros <-; eauto]. Qed.

Lemma update_gate c d u t (r : row_of t) :
  installed c → t ≠ Tservice_areas →
  visible c d (signed_in u) t SELECT r && visible c d (signed_in u) t UPDATE r
  = bool_decide (Some u ∈ owners t r)
  ∧ allowed c d (signed_in u) t UPDATE r && visible c d (signed_in u) t SELECT r
    = bool_decide (Some u ∈ owners t r).
Proof.
  intros Hc Ht.
  destruct t; try done; gate Hc; cbn [pkey owners uid signed_in holds orb andb].
  all: rewrite ?andb_diag, ?andb_true_r.
  all: split; apply Bool.eq_iff_eq_true.
  all: rewrite ?andb_true_iff, ?orb_true_iff, ?bool_decide_eq_true,
         ?elem_of_cons, ?elem_of_nil, ?is_Some_and_eq.
  all: tauto.
Qed.

(** X21. On every table but service_areas an UPDATE by the signed-in
    identity [u] of an existing row does nothing when [u] does not own the
    row, fails for want of privilege when [u] would not own the new row, and
    otherwise goes through to the engine. *)
Theorem own_rows_update c d u t i f n (old : row_of t) :
  installed c → consistent d → t ≠ Tservice_areas →
  rows t d !! n = Some old → pkey t old = i →
  exec c (signed_in u) (Update t i f) d
  = if decide (Some u ∈ owners t old) then
      if decide (Some u ∈ owners t (f old)) then update_set t i f d
      else Fail insufficient_privilege
    else Done d.
Proof.
  intros Hc Hd Ht Hn Hi. cbn [exec].
  rewrite decide_True by (by apply installed_gated).
  assert (list_find (λ y, pkey t y = i) (rows t d) = Some (n, old)) as ->.
  { rewrite <-Hi. apply (list_find_key (pkey t)); [|done].
    apply (pkey_unique d Hd t). }
  destruct (update_gate c d u t old Hc Ht) as [-> _].
  destruct (update_gate c d u t (f old) Hc Ht) as [_ ->].
  case_decide as Ho.
  - rewrite bool_decide_eq_true_2 by done. case_decide as Hnew.
    + rewrite bool_decide_eq_true_2 by done. by rewrite require_pass.
    + by rewrite bool_decide_eq_false_2 by done.
  - by rewrite bool_decide_eq_false_2 by done.
Qed.

(** ** Deleting one's own rows *)

Lemma delete_gate c d u t (r : row_of t) :
  installed c → t ∈ [Tnurse_service_areas; Tnurse_slots] →
  visible c d (signed_in u) t SELECT r && visible c d (signed_in u) t DELETE r
  = bool_decide (Some u ∈ owners t r).
Proof.
  intros Hc Ht. rewrite !elem_of_cons, elem_of_nil in Ht.
  destruct Ht as [->|[->|[]]]; gate Hc;
    cbn [pkey owners uid signed_in holds orb andb].
  all: apply Bool.eq_iff_eq_true.
  all: rewrite ?bool_decide_eq_true, ?elem_of_cons, ?elem_of_nil,
         ?is_Some_and_eq.
  all: tauto.
Qed.

(** X22. A DELETE on nurse_service_areas or nurse_slots by the signed-in
    identity [u] deletes the row, with what depends on it, when the row's
    nurse_id is [u], and changes nothing otherwise. *)
Theorem own_rows_delete c d u t i n (old : row_of t) :
  installed c → consistent d →
  t ∈ [Tnurse_service_areas; Tnurse_slots] →
  rows t d !! n = Some old → pkey t old = i →
  exec c (signed_in u) (Delete t i) d
  = Done (if decide (Some u ∈ owners t old) then delete_from t i d else d).
Proof.
  intros Hc Hd Ht Hn Hi. cbn [exec].
  rewrite decide_True by (by apply installed_gated).
  assert (list_find (λ y, pkey t y = i) (rows t d) = Some (n, old)) as ->.
  { rewrite <-Hi. apply (list_find_key (pkey t)); [|done].
    apply (pkey_unique d Hd t). }
  rewrite delete_gate by done. case_decide.
  - by rewrite bool_decide_eq_true_2.
  - by rewrite bool_decide_eq_false_2.
Qed.

(** ** The further properties at the sample data *)


Lemma busy_consistent : consistent busy.
Proof. exact (reachable_consistent (cat demo) busy busy_reachable). Qed.

Lemma profiles_select_own_witness :
  installed (cat demo) ∧ bypassrls (signed_in test_patient_id) = false
  ∧ test_profile test_patient_id "patient" "Test Patient" 0
      ∈ select_from (cat demo) (signed_in test_patient_id) Tprofiles busy
  ∧ test_profile test_nurse_id "nurse" "Test Nurse" 0
      ∉ select_from (cat demo) (signed_in test_patient_id) Tprofiles busy.
Proof.
  split_and!; [apply demo_installed|reflexivity| |].
  - apply (profiles_select_own (cat demo) busy (signed_in test_patient_id) _
             demo_installed eq_refl).
    split_and!; [by_computation|reflexivity|reflexivity].
  - intros H.
    apply (profiles_select_own (cat demo) busy (signed_in test_patient_id) _
             demo_installed eq_refl) in H as (_ & _ & H).
    discriminate H.
Defined.


Lemma nurse_directory_witness :
  installed (cat demo)
  ∧ select_from (cat demo) (signed_in test_patient_id) Tnurse_slots busy
    = [nine_to_ten]
  ∧ select_from (cat demo) anon Tnurse_slots busy = [].
Proof.
  split_and!; [apply demo_installed| |].
  - rewrite (nurse_directory (cat demo) busy (signed_in test_patient_id)
               Tnurse_slots demo_installed eq_refl); [|by_computation].
    vm_compute. reflexivity.
  - rewrite (nurse_directory (cat demo) busy anon Tnurse_slots demo_installed
               eq_refl); [|by_computation].
    reflexivity.
Defined.

Lemma bookings_select_parties_witness :
  installed (cat demo)
  ∧ select_from (cat demo) (signed_in test_nurse_id) Tbookings busy
    = [visit "0a000000-0000-4000-8000-000000000005" test_patient_id].
Proof.
  split; [apply demo_installed|].
  rewrite (bookings_select_parties (cat demo) busy (signed_in test_nurse_id)
             demo_installed eq_refl).
  vm_compute. reflexivity.
Defined.

Lemma outsider_reads_areas_only_witness :
  installed (cat demo)
  ∧ select_from (cat demo) anon Tnurse_profiles busy = []
  ∧ (exec (cat demo) anon (Insert Tnurse_slots nine_to_half_past_ten) busy
     = Done busy
     ∨ exec (cat demo) anon (Insert Tnurse_slots nine_to_half_past_ten) busy
       = Fail insufficient_privilege).
Proof.
  destruct (outsider_reads_areas_only (cat demo) busy anon demo_installed
              eq_refl) as [Hread Hwrite]; [discriminate|].
  split_and!; [apply demo_installed|by apply Hread|apply Hwrite].
Defined.


Lemma writes_stay_within_own_rows_witness :
  installed (cat demo) ∧ consistent busy
  ∧ exec (cat demo) (signed_in test_nurse_id)
      (Delete Tnurse_slots (nurse_slots.id nine_to_ten)) busy
    = Done (delete_from Tnurse_slots (nurse_slots.id nine_to_ten) busy)
  ∧ rows Tnurse_service_areas
      (delete_from Tnurse_slots (nurse_slots.id nine_to_ten) busy)
    = rows Tnurse_service_areas busy.
Proof.
  assert (exec (cat demo) (signed_in test_nurse_id)
            (Delete Tnurse_slots (nurse_slots.id nine_to_ten)) busy
          = Done (delete_from Tnurse_slots (nurse_slots.id nine_to_ten) busy))
    as He by (vm_compute; reflexivity).
  split_and!; [apply demo_installed|apply busy_consistent|exact He|].
  destruct (writes_stay_within_own_rows (cat demo) (signed_in test_nurse_id)
              _ busy _ demo_installed busy_consistent eq_refl He)
    as (_ & _ & Hrest).
  apply (Hrest Tnurse_service_areas); [discriminate|by_computation].
Defined.

Lemma own_profile_update_witness :
  installed (cat demo) ∧ consistent busy
  ∧ exec (cat demo) (signed_in test_patient_id)
      (Update Tprofiles test_patient_id as_nurse) busy
    = Done (with_rows Tprofiles
              [test_profile test_patient_id "nurse" "Test Patient" 0;
               test_profile test_nurse_id "nurse" "Test Nurse" 0] busy).
Proof.
  split_and!; [apply demo_installed|apply busy_consistent|].
  rewrite (own_profile_update (cat demo) busy test_patient_id as_nurse 0
             (test_profile test_patient_id "patient" "Test Patient" 0)
             demo_installed busy_consistent);
    [reflexivity|reflexivity|reflexivity|reflexivity|by eexists|by eexists|].
  intros x [= <-]. by_computation.
Defined.

Lemma booking_insert_exactly_witness :
  installed (cat demo)
  ∧ visit "0a000000-0000-4000-8000-000000000005" test_patient_id
      ∈ bookings busy
  ∧ exec (cat demo) (signed_in test_patient_id)
      (Insert Tbookings
         (visit "0a000000-0000-4000-8000-000000000009" test_patient_id)) busy
    = Done (with_rows Tbookings
              (bookings busy
               ++ [visit "0a000000-0000-4000-8000-000000000009"
                     test_patient_id]) busy).
Proof.
  split_and!; [apply demo_installed|by_computation|].
  apply (booking_insert_exactly (cat demo) busy test_patient_id _ _
           demo_installed).
  split_and!; [reflexivity| |by eexists| |by_computation|by_computation| |
               |reflexivity].
  - exists (test_profile test_patient_id "patient" "Test Patient" 0).
    split_and!; [by_computation|reflexivity..].
  - exists "pending". split; [reflexivity|by_computation].
  - intros n [= <-]. by_computation.
  - intros s [= <-]. by_computation.
Defined.

Lemma own_rows_insert_witness :
  installed (cat demo)
  ∧ exec (cat demo) (signed_in test_patient_id)
      (Insert Tnurse_slots nine_to_half_past_ten) busy
    = Fail insufficient_privilege.
Proof.
  split; [apply demo_installed|].
  rewrite (own_rows_insert (cat demo) busy test_patient_id Tnurse_slots
             nine_to_half_past_ten demo_installed); [|by_computation].
  reflexivity.
Defined.

Lemma delete_user_cascades_witness :
  consistent busy
  ∧ auth_users (delete_user test_nurse_id busy) = [test_patient_id]
  ∧ ∀ b, b ∈ bookings (delete_user test_nurse_id busy) →
         bookings.nurse_id b ≠ Some test_nurse_id.
Proof.
  destruct (delete_user_cascades busy test_nurse_id busy_consistent)
    as (Hus & _ & _ & _ & _ & _ & _ & Hb & _).
  split_and!; [apply busy_consistent|by rewrite Hus|].
  intros b Hin. by destruct (Hb b Hin).
Defined.

Lemma delete_cascades_to_dependants_only_witness :
  (Tnurse_service_areas ∉ dependants cascade_depth (Ptable Tnurse_slots))
  ∧ auth_users (delete_from Tnurse_slots (nurse_slots.id nine_to_ten) busy)
    = auth_users busy.
Proof.
  assert (Tnurse_service_areas ∉ dependants cascade_depth (Ptable Tnurse_slots))
    as H by by_computation.
  split; [exact H|].
  by destruct (delete_cascades_to_dependants_only Tnurse_slots
                 (nurse_slots.id nine_to_ten) busy Tnurse_service_areas H)
    as [_ ?].
Defined.

Lemma referenced_key_frozen_witness :
  consistent busy
  ∧ test_nurse_profile 0 ∈ nurse_profiles busy
  ∧ ∃ e, update_set Tprofiles test_nurse_id
           (rekeyed "0a000000-0000-4000-8000-00000000000a") busy = Fail e.
Proof.
  split_and!; [apply busy_consistent|by_computation|].
  destruct (referenced_key_frozen Tprofiles test_nurse_id
              (rekeyed "0a000000-0000-4000-8000-00000000000a") busy
              Tnurse_profiles (test_nurse_profile 0) busy_consistent)
    as [H _]; [by_computation|by left| |exact H].
  intros x _ _. discriminate.
Defined.

Lemma enumerated_columns_witness :
  reachable (cat demo) busy
  ∧ ∃ st, nurse_slots.status nine_to_ten = Some st
          ∧ st ∈ ["available"; "booked"; "completed"; "cancelled"].
Proof.
  split; [apply busy_reachable|].
  destruct (enumerated_columns (cat demo) busy busy_reachable)
    as (_ & _ & Hs & _).
  apply Hs. by_computation.
Defined.

Lemma booking_parties_registered_witness :
  reachable (cat demo) busy
  ∧ test_nurse_id ∈ auth_users busy.
Proof.
  split; [apply busy_reachable|].
  destruct (booking_parties_registered (cat demo) busy
              (visit "0a000000-0000-4000-8000-000000000005" test_patient_id)
              busy_reachable) as (_ & Hn & _); [by_computation|].
  by destruct (Hn test_nurse_id eq_refl) as (_ & _ & ?).
Defined.

Lemma migration_replaces_rows_witness :
  catalog_wf (cat in_use) ∧ test_users in_use
  ∧ NoDup (auth_users (data in_use))
  ∧ bookings (data in_use)
    = [visit "0a000000-0000-4000-8000-000000000005" test_patient_id]
  ∧ bookings (data (migrate false 9 in_use)) = [].
Proof.
  assert (catalog_wf (cat in_use)) as H1 by by_computation.
  assert (test_users in_use) as H2 by by_computation.
  assert (NoDup (auth_users (data in_use))) as H3 by by_computation.
  split_and!; [done|done|done|by vm_compute|].
  by destruct (migration_replaces_rows false 9 in_use H1 H2 H3) as [-> _].
Defined.

Lemma migration_without_test_users_witness :
  catalog_wf (cat drifted) ∧ ¬ test_users drifted
  ∧ migrate true 7 drifted = drifted
  ∧ policies (cat (migrate false 7 drifted)) = script_policies.
Proof.
  assert (catalog_wf (cat drifted)) as H1 by by_computation.
  assert (¬ test_users drifted) as H2 by by_computation.
  destruct (migration_without_test_users 7 drifted H1 H2) as (Ha & He & _).
  split_and!; [done|done|done|]. by rewrite He.
Defined.

Lemma migration_catalog_witness :
  catalog_wf (cat drifted)
  ∧ "audit_log" ∈ table_names (cat (migrate false 7 drifted))
  ∧ ∀ e, e ∈ tables (cat (migrate false 7 drifted)) →
         pg_tables.rowsecurity e = true.
Proof.
  assert (catalog_wf (cat drifted)) as H1 by by_computation.
  destruct (migration_catalog false 7 drifted H1 (or_introl eq_refl))
    as (_ & Hsec & Hnames & _).
  split_and!; [done| |exact Hsec].
  apply Hnames. left. by_computation.
Defined.

Lemma test_data_kept_on_conflict_witness :
  test_patient_id ∈ profiles.id <$> profiles busy
  ∧ insert_test_data 9 busy = Done busy.
Proof.
  split; [by_computation|].
  apply test_data_kept_on_conflict; by_computation.
Defined.

Lemma one_hour_slot_implies_valid_slot_time_witness :
  check_holds (nurse_slots.one_hour_slot nine_to_ten)
  ∧ check_holds (nurse_slots.valid_slot_time nine_to_ten).
Proof.
  assert (check_holds (nurse_slots.one_hour_slot nine_to_ten)) as H
    by (by vm_compute).
  split; [exact H|].
  exact (one_hour_slot_implies_valid_slot_time nine_to_ten H).
Defined.

Lemma own_rows_update_witness :
  installed (cat demo) ∧ consistent busy
  ∧ exec (cat demo) (signed_in test_nurse_id)
      (Update Tbookings "0a000000-0000-4000-8000-000000000005" confirmed) busy
    = update_set Tbookings "0a000000-0000-4000-8000-000000000005" confirmed
        busy.
Proof.
  split_and!; [apply demo_installed|apply busy_consistent|].
  rewrite (own_rows_update (cat demo) busy test_nurse_id Tbookings
             "0a000000-0000-4000-8000-000000000005" confirmed 0
             (visit "0a000000-0000-4000-8000-000000000005" test_patient_id)
             demo_installed busy_consistent);
    [|discriminate|reflexivity|reflexivity].
  reflexivity.
Defined.

Lemma own_rows_delete_witness :
  installed (cat demo) ∧ consistent busy
  ∧ exec (cat demo) (signed_in test_patient_id)
      (Delete Tnurse_slots (nurse_slots.id nine_to_ten)) busy
    = Done busy.
Proof.
  split_and!; [apply demo_installed|apply busy_consistent|].
  rewrite (own_rows_delete (cat demo) busy test_patient_id Tnurse_slots
             (nurse_slots.id nine_to_ten) 0 nine_to_ten
             demo_installed busy_consistent);
    [|by_computation|reflexivity|reflexivity].
  reflexivity.
Defined.
